(** * The mark-compact collector of src/mark-compact.cc

  A shallow embedding of [MarkCompactCollector] and of the helpers of
  mark-compact.cc, with the properties stated about them.

  Conventions.
  - An [int] is a [Z] kept in the range of 32 bits by [wrap_int]; an
    [Address] is a [Z] (a byte address).  An [Object*] is the tagged word
    itself, a [Z]: [IsHeapObject] tests its tag.
  - Static members of [MarkCompactCollector], the flags and the heap the
    collector works on are fields of explicit state records.
  - A loop whose number of iterations is not bounded by its input takes a
    [fuel] and returns [None] when it runs out; the theorems give the fuel
    that is enough.
  - What mark-compact.cc uses and does not define (the spaces, the pages,
    the object layout, the marking stack) is a parameter of the section
    that uses it, or a field of [Layout]. *)

From stdpp Require Import base tactics decidable option list sets gmap.
From Stdlib Require Import ZArith Lia Bool List.
Import ListNotations.

Local Open Scope Z_scope.

(** ** Machine integers and tagged words (globals.h, objects.h) *)

Module Globals.

Definition kIntSize : Z := 4.
Definition kPointerSize : Z := 4.

Definition INT_MIN : Z := - 2 ^ 31.
Definition INT_MAX : Z := 2 ^ 31 - 1.

(** The value of an [int] expression whose mathematical value is [x]:
    two's complement on 32 bits. *)
Definition wrap_int (x : Z) : Z := (x + 2 ^ 31) mod 2 ^ 32 - 2 ^ 31.

(** The value of a [uint32_t] expression. *)
Definition wrap_uint32 (x : Z) : Z := x mod 2 ^ 32.

Definition int_add (a b : Z) : Z := wrap_int (a + b).
Definition int_sub (a b : Z) : Z := wrap_int (a - b).
Definition int_mul (a b : Z) : Z := wrap_int (a * b).

(** [a / b] on [int]: truncation towards zero; there is no result when
    [b] is zero. *)
Definition int_div (a b : Z) : option Z :=
  if b =? 0 then None else Some (wrap_int (Z.quot a b)).

(** Pointer tags: a heap object pointer ends in 01, a small integer in 0,
    a failure in 11. *)
Definition kHeapObjectTag : Z := 1.
Definition kHeapObjectTagMask : Z := 3.
Definition kFailureTag : Z := 3.
Definition kFailureTagMask : Z := 3.

Definition IsHeapObject (v : Z) : bool :=
  Z.land v kHeapObjectTagMask =? kHeapObjectTag.
Definition IsFailure (v : Z) : bool :=
  Z.land v kFailureTagMask =? kFailureTag.

(** [HeapObject::address()] and [HeapObject::FromAddress]. *)
Definition address (obj : Z) : Z := obj - kHeapObjectTag.
Definition FromAddress (a : Z) : Z := a + kHeapObjectTag.

Lemma wrap_int_small x : INT_MIN <= x <= INT_MAX -> wrap_int x = x.
Proof.
  unfold wrap_int, INT_MIN, INT_MAX. intros H.
  rewrite Z.mod_small; lia.
Qed.

Lemma wrap_int_range x : INT_MIN <= wrap_int x <= INT_MAX.
Proof.
  unfold wrap_int, INT_MIN, INT_MAX.
  pose proof (Z.mod_pos_bound (x + 2 ^ 31) (2 ^ 32)). lia.
Qed.

Lemma wrap_int_uint32 x : wrap_int (wrap_uint32 x) = wrap_int x.
Proof.
  unfold wrap_int, wrap_uint32.
  rewrite Zplus_mod_idemp_l. reflexivity.
Qed.

Lemma wrap_uint32_small x : 0 <= x < 2 ^ 32 -> wrap_uint32 x = x.
Proof. unfold wrap_uint32. intros. apply Z.mod_small. lia. Qed.

Lemma address_FromAddress a : address (FromAddress a) = a.
Proof. unfold address, FromAddress. lia. Qed.

End Globals.

Import Globals.

(** ** Raw memory ([Memory::uint32_at], [Memory::int_at], [Memory::Address_at])

  A store of 32-bit words keyed by the byte address of their first byte.
  Every access of mark-compact.cc is word-aligned, so two accesses are the
  same word or do not overlap. *)

Module Memory.

Definition t : Type := Z -> Z.

Definition store (a : Z) (bits : Z) (m : t) : t :=
  fun a' => if decide (a' = a) then wrap_uint32 bits else m a'.

Definition uint32_at (m : t) (a : Z) : Z := wrap_uint32 (m a).
Definition int_at (m : t) (a : Z) : Z := wrap_int (m a).
Definition Address_at (m : t) (a : Z) : Z := wrap_uint32 (m a).

Lemma uint32_at_store_eq m a v : uint32_at (store a v m) a = wrap_uint32 v.
Proof.
  unfold uint32_at, store. rewrite decide_True by reflexivity.
  unfold wrap_uint32. apply Z.mod_mod. lia.
Qed.

Lemma int_at_store_eq m a v : int_at (store a v m) a = wrap_int v.
Proof.
  unfold int_at, store. rewrite decide_True by reflexivity.
  apply wrap_int_uint32.
Qed.

Lemma store_ne m a b v : a <> b -> store a v m b = m b.
Proof. intros H. unfold store. rewrite decide_False; [reflexivity | congruence]. Qed.

Lemma uint32_at_store_ne m a b v : a <> b -> uint32_at (store a v m) b = uint32_at m b.
Proof. intros H. unfold uint32_at. rewrite store_ne; auto. Qed.

End Memory.

(** ** Free regions (mark-compact.cc, lines 717-743 and 1083-1101) *)

Module FreeRegion.

Definition kSingleFreeEncoding : Z := 0.
Definition kMultiFreeEncoding : Z := 1.

(** [EncodeFreeRegion(free_start, free_size)].  The body under
    [#ifdef DEBUG] that zaps the rest of the region is not part of the
    release build and is left out. *)
Definition EncodeFreeRegion (free_start free_size : Z) (m : Memory.t) : Memory.t :=
  if free_size =? kIntSize then
    Memory.store free_start kSingleFreeEncoding m
  else
    Memory.store (free_start + kIntSize) free_size
      (Memory.store free_start kMultiFreeEncoding m).

Section Walk.

(** The state the size callback works on, and the memory in it. *)
Context {St : Type}.
Variable memory : St -> Memory.t.
(** [size_func]: a [HeapObjectCallback], which may update the object. *)
Variable size_func : Z -> St -> Z * St.

(** One turn of the loop of [IterateLiveObjectsInRange] at [current]:
    the next value of [current], of [live_objects], and the state. *)
Definition IterateLiveObjectsInRange_step
    (current live_objects : Z) (st : St) : Z * Z * St :=
  let encoded_map := Memory.uint32_at (memory st) current in
  if encoded_map =? kSingleFreeEncoding then
    (current + kPointerSize, live_objects, st)
  else if encoded_map =? kMultiFreeEncoding then
    (current + Memory.int_at (memory st) (current + kIntSize), live_objects, st)
  else
    let '(size, st') := size_func (FromAddress current) st in
    (current + size, int_add live_objects 1, st').

Fixpoint IterateLiveObjectsInRange_loop
    (fuel : nat) (current end_ live_objects : Z) (st : St) : option (Z * St) :=
  if current <? end_ then
    match fuel with
    | O => None
    | S fuel' =>
        let '(current', live', st') :=
          IterateLiveObjectsInRange_step current live_objects st in
        IterateLiveObjectsInRange_loop fuel' current' end_ live' st'
    end
  else Some (live_objects, st).

Definition IterateLiveObjectsInRange
    (fuel : nat) (start end_ : Z) (st : St) : option (Z * St) :=
  IterateLiveObjectsInRange_loop fuel start end_ 0 st.

End Walk.

Lemma EncodeFreeRegion_single m a :
  Memory.uint32_at (EncodeFreeRegion a kIntSize m) a = kSingleFreeEncoding.
Proof.
  unfold EncodeFreeRegion. rewrite Z.eqb_refl.
  rewrite Memory.uint32_at_store_eq. reflexivity.
Qed.

Lemma EncodeFreeRegion_multi m a s :
  s <> kIntSize ->
  Memory.uint32_at (EncodeFreeRegion a s m) a = kMultiFreeEncoding /\
  Memory.int_at (EncodeFreeRegion a s m) (a + kIntSize) = wrap_int s.
Proof.
  intros Hs. unfold EncodeFreeRegion.
  destruct (Z.eqb_spec s kIntSize) as [?|_]; [contradiction|].
  split.
  - rewrite Memory.uint32_at_store_ne by (unfold kIntSize; lia).
    rewrite Memory.uint32_at_store_eq. reflexivity.
  - apply Memory.int_at_store_eq.
Qed.

(** Only the first word of the region, and the second when there is one,
    are written. *)
Lemma EncodeFreeRegion_frame m a s b :
  b <> a -> b <> a + kIntSize -> EncodeFreeRegion a s m b = m b.
Proof.
  intros H1 H2. unfold EncodeFreeRegion.
  destruct (s =? kIntSize); rewrite ?Memory.store_ne by congruence; reflexivity.
Qed.



End FreeRegion.

(** ** Phase 3: forwarding addresses and pointer update
    (mark-compact.cc, lines 1293-1395) *)

Module Forwarding.

(** The fields of a page header that the collector reads. *)
Record PageHeader : Type := {
  mc_first_forwarded : Z;
  mc_relocation_top : Z;
  next_page : Z
}.

(** The heap as phase 3 sees it: raw memory, and the header of the page at
    each page address. *)
Record HeapImage : Type := {
  memory : Memory.t;
  page : Z -> PageHeader
}.

Definition set_memory (m : Memory.t) (h : HeapImage) : HeapImage :=
  {| memory := m; page := page h |}.

Section Pages.

(** The geometry of a page (spaces.h): [Page::kPageSizeBits] and
    [Page::kObjectStartOffset]. *)
Variable kPageSizeBits : Z.
Variable kObjectStartOffset : Z.

(** [MapWord::DecodeOffset] (objects-inl.h): the forwarding offset held by
    an encoded map word. *)
Variable DecodeOffset : Z -> Z.

(** The new space and the large object space (spaces.h). *)
Variable NewSpace_Contains : Z -> bool.
Variable LargeObjectSpace_Contains : Z -> bool.
Variable FromSpaceLow : Z.
Variable ToSpaceOffsetForAddress : Z -> Z.

Definition kPageSize : Z := 2 ^ kPageSizeBits.
Definition kPageAlignmentMask : Z := kPageSize - 1.

(** [Page::FromAddress(a)]: [a & ~kPageAlignmentMask]. *)
Definition Page_FromAddress (a : Z) : Z := Z.land a (Z.lnot kPageAlignmentMask).
(** [p->Offset(a)], an [int]. *)
Definition Page_Offset (p a : Z) : Z := wrap_int (a - p).
(** [p->OffsetToAddress(offset)]. *)
Definition Page_OffsetToAddress (p offset : Z) : Z := p + offset.
(** [p->ObjectAreaStart()]. *)
Definition Page_ObjectAreaStart (p : Z) : Z := p + kObjectStartOffset.

(** [obj->map_word()]: the first word of the object. *)
Definition map_word (h : HeapImage) (obj : Z) : Z :=
  Memory.uint32_at (memory h) (address obj).

Definition GetForwardingAddressInOldSpace (obj : Z) (h : HeapImage) : Z :=
  let encoding := map_word h obj in
  let offset := DecodeOffset encoding in
  let obj_addr := address obj in
  let p := Page_FromAddress obj_addr in
  let first_forwarded := mc_first_forwarded (page h p) in
  let forwarded_page := Page_FromAddress first_forwarded in
  let forwarded_offset := Page_Offset forwarded_page first_forwarded in
  let mc_top := mc_relocation_top (page h forwarded_page) in
  let mc_top_offset := Page_Offset forwarded_page mc_top in
  if int_add forwarded_offset offset <? mc_top_offset then
    first_forwarded + offset
  else
    let next_page := next_page (page h forwarded_page) in
    let offset := int_sub offset (int_sub mc_top_offset forwarded_offset) in
    let offset := int_add offset kObjectStartOffset in
    Page_OffsetToAddress next_page offset.

(** [UpdatePointer(p)]: [p] is the address of the slot. *)
Definition UpdatePointer (p : Z) (h : HeapImage) : HeapImage :=
  let v := Memory.Address_at (memory h) p in
  if negb (IsHeapObject v) then h
  else
    let obj := v in
    let old_addr := address obj in
    let new_addr :=
      if NewSpace_Contains obj then
        let f_addr := FromSpaceLow + ToSpaceOffsetForAddress old_addr in
        Memory.Address_at (memory h) f_addr
      else if LargeObjectSpace_Contains obj then
        address obj
      else
        GetForwardingAddressInOldSpace obj h in
    set_memory (Memory.store p (FromAddress new_addr) (memory h)) h.

(** [UpdatingVisitor::VisitPointers(start, end)]. *)
Fixpoint UpdatingVisitor_VisitPointers (n : nat) (p : Z) (h : HeapImage) : HeapImage :=
  match n with
  | O => h
  | S n' => UpdatingVisitor_VisitPointers n' (p + kPointerSize) (UpdatePointer p h)
  end.

Lemma Page_FromAddress_spec a :
  0 <= kPageSizeBits ->
  Page_FromAddress a = a - a mod kPageSize.
Proof.
  intros Hk. unfold Page_FromAddress, kPageAlignmentMask, kPageSize.
  replace (2 ^ kPageSizeBits - 1) with (Z.ones kPageSizeBits)
    by (rewrite Z.ones_equiv; lia).
  rewrite <- Z.ldiff_land.
  rewrite Z.ldiff_ones_r by assumption.
  rewrite Z.shiftr_div_pow2, Z.shiftl_mul_pow2 by assumption.
  pose proof (Z.pow_pos_nonneg 2 kPageSizeBits ltac:(lia) Hk).
  rewrite (Z.div_mod a (2 ^ kPageSizeBits)) at 2 by lia. lia.
Qed.

Lemma Page_FromAddress_bounds a :
  0 <= kPageSizeBits ->
  Page_FromAddress a <= a < Page_FromAddress a + kPageSize.
Proof.
  intros Hk. rewrite Page_FromAddress_spec by assumption.
  unfold kPageSize.
  pose proof (Z.pow_pos_nonneg 2 kPageSizeBits ltac:(lia) Hk).
  pose proof (Z.mod_pos_bound a (2 ^ kPageSizeBits) ltac:(lia)). lia.
Qed.

Lemma kPageSize_bounds :
  0 <= kPageSizeBits <= 28 -> 0 < kPageSize <= 2 ^ 28.
Proof.
  intros [H0 H1]. unfold kPageSize. split.
  - apply Z.pow_pos_nonneg; lia.
  - apply Z.pow_le_mono_r; lia.
Qed.

(** C2. For an object [obj] of a compacted paged space, with [offset] the
    offset decoded from its map word, [first_forwarded] the field of its
    page, [mc_top] the relocation top of the page that holds
    [first_forwarded] and [next] the page after that one:
    GetForwardingAddressInOldSpace returns [first_forwarded + offset] when
    that address is below [mc_top]; otherwise it returns the address in
    [next] at the object area start plus the remainder, [offset] minus the
    [mc_top - first_forwarded] bytes that fit in the first page, and that
    address is at or above the object area start of [next].  The pages
    are at most 2^28 bytes, the decoded offset is a page offset, and
    [mc_top] lies in its page (VerifyPageHeaders asserts it). *)
Theorem GetForwardingAddressInOldSpace_wraps (obj : Z) (h : HeapImage) :
  let offset := DecodeOffset (map_word h obj) in
  let first_forwarded :=
    mc_first_forwarded (page h (Page_FromAddress (address obj))) in
  let forwarded_page := Page_FromAddress first_forwarded in
  let mc_top := mc_relocation_top (page h forwarded_page) in
  let next := next_page (page h forwarded_page) in
  0 <= kPageSizeBits <= 28 ->
  0 <= kObjectStartOffset <= kPageSize ->
  0 <= offset <= kPageSize ->
  forwarded_page <= mc_top <= forwarded_page + kPageSize ->
  (first_forwarded + offset < mc_top ->
   GetForwardingAddressInOldSpace obj h = first_forwarded + offset) /\
  (mc_top <= first_forwarded + offset ->
   GetForwardingAddressInOldSpace obj h =
     Page_ObjectAreaStart next + (offset - (mc_top - first_forwarded)) /\
   Page_ObjectAreaStart next <= GetForwardingAddressInOldSpace obj h).
Proof.
  intros offset first_forwarded forwarded_page mc_top next Hbits Hstart Hoff Htop.
  pose proof (kPageSize_bounds Hbits) as Hsize.
  pose proof (Page_FromAddress_bounds first_forwarded (proj1 Hbits)) as Hff.
  fold forwarded_page in Hff.
  unfold GetForwardingAddressInOldSpace.
  fold offset first_forwarded forwarded_page mc_top next.
  unfold Page_Offset, Page_OffsetToAddress, Page_ObjectAreaStart,
    int_add, int_sub.
  assert (Hi : forall x, - 2 ^ 30 <= x <= 2 ^ 30 -> wrap_int x = x).
  { intros x Hx. apply wrap_int_small. unfold INT_MIN, INT_MAX. lia. }
  rewrite (Hi (first_forwarded - forwarded_page)) by lia.
  rewrite (Hi (mc_top - forwarded_page)) by lia.
  rewrite (Hi (first_forwarded - forwarded_page + offset)) by lia.
  rewrite (Hi (mc_top - forwarded_page - (first_forwarded - forwarded_page)))
    by lia.
  rewrite (Hi (offset - (mc_top - forwarded_page
                         - (first_forwarded - forwarded_page)))) by lia.
  split; intros Hcmp.
  - destruct (Z.ltb_spec (first_forwarded - forwarded_page + offset)
                (mc_top - forwarded_page)); [reflexivity | lia].
  - destruct (Z.ltb_spec (first_forwarded - forwarded_page + offset)
                (mc_top - forwarded_page)); [lia |].
    rewrite Hi by lia. lia.
Qed.

(** An update writes the slot it is given and nothing else. *)
Lemma UpdatePointer_frame p q h :
  q <> p ->
  memory (UpdatePointer p h) q = memory h q /\
  page (UpdatePointer p h) = page h.
Proof.
  intros Hq. unfold UpdatePointer.
  destruct (negb (IsHeapObject (Memory.Address_at (memory h) p)));
    [split; reflexivity |].
  simpl. split; [| reflexivity]. apply Memory.store_ne. congruence.
Qed.

(** C10. When the slot [p] does not hold a heap object pointer,
    UpdatePointer returns the state it was given: neither the slot, nor
    another word of memory, nor a page header changes.  Such a slot also
    keeps its value through every run of the updating visitor over any
    range of slots, so only slots that hold heap object pointers are
    overwritten. *)
Theorem UpdatePointer_skips_non_heap_object (p : Z) (h : HeapImage) :
  IsHeapObject (Memory.Address_at (memory h) p) = false ->
  UpdatePointer p h = h /\
  forall (n : nat) (start : Z),
    memory (UpdatingVisitor_VisitPointers n start h) p = memory h p.
Proof.
  intros Hsmi. split.
  - unfold UpdatePointer. rewrite Hsmi. reflexivity.
  - intros n. revert h Hsmi. induction n as [|n IH]; intros h Hsmi start.
    + reflexivity.
    + simpl. destruct (decide (p = start)) as [->|Hne].
      * assert (Hid : UpdatePointer start h = h).
        { unfold UpdatePointer. rewrite Hsmi. reflexivity. }
        rewrite Hid. apply IH. assumption.
      * destruct (UpdatePointer_frame start p h Hne) as [Hm _].
        rewrite IH.
        -- assumption.
        -- unfold Memory.Address_at in *. rewrite Hm. assumption.
Qed.

End Pages.

(** Pages of 8K with the object area at offset 256; page 0x10000 is being
    compacted into itself, its relocation top at offset 0x300; the next
    page is 0x12000. *)
Definition example_image (word : Z) : HeapImage :=
  {| memory := fun _ => word;
     page := fun _ => {| mc_first_forwarded := 0x10100;
                         mc_relocation_top := 0x10300;
                         next_page := 0x12000 |} |}.

Lemma GetForwardingAddressInOldSpace_wraps_witness :
  GetForwardingAddressInOldSpace 13 256 (fun _ => 0x280) 0x10801 (example_image 0)
  = 0x12000 + 256 + (0x280 - (0x10300 - 0x10100)).
Proof.
  pose proof (GetForwardingAddressInOldSpace_wraps 13 256 (fun _ => 0x280)
                0x10801 (example_image 0)) as H.
  cbv zeta in H.
  destruct H as [_ H].
  - lia.
  - unfold kPageSize. lia.
  - unfold kPageSize. lia.
  - vm_compute. split; discriminate.
  - destruct H as [H _]; [simpl; lia | exact H].
Defined.

Lemma UpdatePointer_skips_non_heap_object_witness :
  UpdatePointer 13 256 (fun _ => 0x280) (fun _ => false) (fun _ => false) 0 (fun a => a)
    0x20000 (example_image 42) = example_image 42.
Proof.
  apply (UpdatePointer_skips_non_heap_object 13 256 (fun _ => 0x280)
           (fun _ => false) (fun _ => false) 0 (fun a => a) 0x20000
           (example_image 42)).
  reflexivity.
Defined.

End Forwarding.

(** ** Promotion out of new space (mark-compact.cc, lines 746-778) *)

Module Promotion.

Inductive AllocationSpace : Type :=
  NEW_SPACE | OLD_SPACE | CODE_SPACE | MAP_SPACE | LO_SPACE.

#[global] Instance AllocationSpace_eq_dec : EqDecision AllocationSpace.
Proof. solve_decision. Defined.

Section Allocation.

(** The state of the spaces, and [space->MCAllocateRaw(size)] for each
    space (spaces.cc): the object allocated, or a failure, and the new
    state. *)
Context {Spaces : Type}.
Variable MCAllocateRaw : AllocationSpace -> Z -> Spaces -> Z * Spaces.

(** [object->map()->instance_type()], and the instance types and string
    tags of objects.h. *)
Variable instance_type : Z -> Z.
Variable HEAP_NUMBER_TYPE : Z.
Variable FIRST_NONSTRING_TYPE : Z.
Variable kStringRepresentationMask : Z.
Variable kSeqStringTag : Z.

(** Modelled from the spec: [Heap::TargetSpace] (heap.h), the promotion
    policy: heap numbers and sequential strings go to code space, all
    others to old space. *)
Definition TargetSpace (object : Z) : AllocationSpace :=
  let type := instance_type object in
  if (type =? HEAP_NUMBER_TYPE)
     || ((type <? FIRST_NONSTRING_TYPE)
         && (Z.land type kStringRepresentationMask =? kSeqStringTag))
  then CODE_SPACE else OLD_SPACE.

(** The heap of this module: the spaces, and the requests made to their
    allocators so far, oldest first. *)
Definition Heap : Type := Spaces * list (AllocationSpace * Z).

Definition Allocate (space : AllocationSpace) (size : Z) (h : Heap) : Z * Heap :=
  let '(result, spaces) := MCAllocateRaw space size (fst h) in
  (result, (spaces, snd h ++ [(space, size)])).

Definition MCAllocateFromNewSpace (object object_size : Z) (h : Heap) : Z * Heap :=
  let target_space := TargetSpace object in
  let '(forwarded, h) :=
    if decide (target_space = OLD_SPACE) then
      Allocate OLD_SPACE object_size h
    else
      Allocate CODE_SPACE object_size h in
  if IsFailure forwarded then Allocate NEW_SPACE object_size h
  else (forwarded, h).

Definition MCAllocateFromOldSpace (object object_size : Z) (h : Heap) : Z * Heap :=
  Allocate OLD_SPACE object_size h.

Definition MCAllocateFromCodeSpace (object object_size : Z) (h : Heap) : Z * Heap :=
  Allocate CODE_SPACE object_size h.

Definition MCAllocateFromMapSpace (object object_size : Z) (h : Heap) : Z * Heap :=
  Allocate MAP_SPACE object_size h.

Lemma TargetSpace_cases object :
  TargetSpace object = OLD_SPACE \/ TargetSpace object = CODE_SPACE.
Proof. unfold TargetSpace. destruct (_ || _); auto. Qed.

Lemma Allocate_eq space size h :
  Allocate space size h =
  (fst (MCAllocateRaw space size (fst h)),
   (snd (MCAllocateRaw space size (fst h)), snd h ++ [(space, size)])).
Proof. unfold Allocate. destruct (MCAllocateRaw space size (fst h)). reflexivity. Qed.

(** C7. MCAllocateFromNewSpace first asks the target space of the object
    (code space for a heap number or a sequential string, old space for
    any other object) for [object_size] bytes.  When that allocation does
    not fail, its result is returned and no other request is made; when it
    fails, and only then, one more request is made, to the new space, and
    its result is returned.  So the failure of the target space is never
    the result: the result is a failure only when the allocation in new
    space fails too. *)
Theorem MCAllocateFromNewSpace_falls_back (object object_size : Z) (h : Heap) :
  let type := instance_type object in
  let target :=
    if (type =? HEAP_NUMBER_TYPE)
       || ((type <? FIRST_NONSTRING_TYPE)
           && (Z.land type kStringRepresentationMask =? kSeqStringTag))
    then CODE_SPACE else OLD_SPACE in
  let promoted := MCAllocateRaw target object_size (fst h) in
  let retried := MCAllocateRaw NEW_SPACE object_size (snd promoted) in
  let result := MCAllocateFromNewSpace object object_size h in
  (if IsFailure (fst promoted)
   then result = (fst retried,
                  (snd retried,
                   snd h ++ [(target, object_size); (NEW_SPACE, object_size)]))
   else result = (fst promoted,
                  (snd promoted, snd h ++ [(target, object_size)]))) /\
  (IsFailure (fst result) = true ->
   IsFailure (fst promoted) = true /\ IsFailure (fst retried) = true).
Proof.
  intros type target promoted retried result.
  assert (Hresult :
    result =
    if IsFailure (fst promoted)
    then (fst retried,
          (snd retried,
           snd h ++ [(target, object_size); (NEW_SPACE, object_size)]))
    else (fst promoted, (snd promoted, snd h ++ [(target, object_size)]))).
  { subst result. unfold MCAllocateFromNewSpace.
    assert (Htarget : TargetSpace object = target) by reflexivity.
    rewrite Htarget.
    assert (Hfirst :
      (if decide (target = OLD_SPACE)
       then Allocate OLD_SPACE object_size h
       else Allocate CODE_SPACE object_size h)
      = (fst promoted, (snd promoted, snd h ++ [(target, object_size)]))).
    { subst promoted.
      destruct (TargetSpace_cases object) as [Ht|Ht];
        rewrite Htarget in Ht; rewrite Ht; simpl; apply Allocate_eq. }
    rewrite Hfirst.
    destruct (IsFailure (fst promoted)); [| reflexivity].
    subst retried. rewrite Allocate_eq. simpl.
    rewrite <- app_assoc. reflexivity. }
  split.
  - destruct (IsFailure (fst promoted)); exact Hresult.
  - rewrite Hresult.
    destruct (IsFailure (fst promoted)) eqn:Hp; simpl; intros Hf.
    + split; [reflexivity | assumption].
    + congruence.
Qed.

End Allocation.

End Promotion.

(** ** Phase 1: marking (mark-compact.cc, lines 187-614) *)

Module Marking.

(** A place that holds an [Object*]: a root (a handle, a frame slot, a
    global), or the [i]-th pointer field of a heap object. *)
Inductive Slot : Type :=
  | RootSlot (i : nat)
  | FieldSlot (object : Z) (i : nat).

#[global] Instance Slot_eq_dec : EqDecision Slot.
Proof. solve_decision. Defined.

(** A page in use of a paged space: the objects in
    [ObjectAreaStart(), AllocationTop()), in address order. *)
Record Page : Type := {
  ObjectAreaStart : Z;
  AllocationTop : Z;
  page_objects : list Z
}.

(** The heap as the collector finds it: what does not change while it
    marks.  The objects of a space are listed in the order in which the
    iterator of the space yields them. *)
Record Layout : Type := {
  (** [obj->map()], whatever the mark and overflow bits of the map word. *)
  map_of : Z -> Z;
  (** [map->instance_type()]. *)
  instance_type : Z -> Z;
  (** [obj->Size()], from the map. *)
  object_size : Z -> Z;
  (** The ranges of pointer fields that [IterateBody] hands to
      [VisitPointers]: first field and number of fields. *)
  body_ranges : Z -> list (nat * nat);
  InNewSpace : Z -> bool;
  (** The objects in [bottom(), top()) of new space. *)
  new_space_bottom : Z;
  new_space_top : Z;
  new_space_objects : list Z;
  old_space_pages : list Page;
  code_space_pages : list Page;
  map_space_pages : list Page;
  lo_space_objects : list Z;
  (** The ranges of root slots that [Heap::IterateStrongRoots] visits,
      and the slots that [GlobalHandles::IterateWeakRoots] visits. *)
  strong_roots : list (nat * nat);
  weak_roots : list nat;
  symbol_table : Z;
  symbol_table_prefix : list (nat * nat);
  symbol_table_elements : list (nat * nat);
  empty_string : Z;
  empty_fixed_array : Z;
  null_value : Z;
  (** objects.h: instance types, string tags and field positions. *)
  FIRST_NONSTRING_TYPE : Z;
  kStringRepresentationMask : Z;
  kConsStringTag : Z;
  MAP_TYPE : Z;
  kFirstIndex : nat;
  kSecondIndex : nat;
  kCodeCacheIndex : nat;
  FLAG_cleanup_caches_in_maps_at_gc : bool;
  (** The room [StackLimitCheck] finds on the C++ stack, in nested calls
      of [VisitUnmarkedObjects]. *)
  stack_headroom : nat
}.

(** What a [HeapObjectIterator] over the pages yields. *)
Definition objects_of (pages : list Page) : list Z :=
  concat (map page_objects pages).

Definition old_space_objects (L : Layout) : list Z := objects_of (old_space_pages L).
Definition code_space_objects (L : Layout) : list Z := objects_of (code_space_pages L).
Definition map_space_objects (L : Layout) : list Z := objects_of (map_space_pages L).

(** The objects of the heap, in the order of the rescan of
    [ProcessMarkingStack]. *)
Definition all_objects (L : Layout) : list Z :=
  new_space_objects L ++ old_space_objects L ++ code_space_objects L
  ++ map_space_objects L ++ lo_space_objects L.

(** [MarkingStack] (mark-compact.h): a stack of at most [limit] objects
    over the from space, and its overflow flag. *)
Record MarkingStack : Type := {
  items : list Z;
  limit : nat;
  overflowed : bool
}.

(** [Initialize(low, high)]: one entry for each word of the range. *)
Definition Initialize (low high : Z) : MarkingStack :=
  {| items := []; limit := Z.to_nat ((high - low) / kPointerSize);
     overflowed := false |}.

Definition is_empty (k : MarkingStack) : bool :=
  match items k with [] => true | _ :: _ => false end.

Definition clear_overflowed (k : MarkingStack) : MarkingStack :=
  {| items := items k; limit := limit k; overflowed := false |}.

Definition Pop (k : MarkingStack) : option (Z * MarkingStack) :=
  match items k with
  | [] => None
  | object :: rest =>
      Some (object, {| items := rest; limit := limit k; overflowed := overflowed k |})
  end.

(** What marking changes: the slots (the marking visitor rewrites some),
    the mark and overflow bits of the map words, the marking stack and the
    count of the tracer. *)
Record State : Type := {
  slots : Slot -> Z;
  marked : gset Z;
  overflow : gset Z;
  marking_stack : MarkingStack;
  marked_count : Z
}.

Definition set_slots (f : Slot -> Z) (s : State) : State :=
  {| slots := f; marked := marked s; overflow := overflow s;
     marking_stack := marking_stack s; marked_count := marked_count s |}.
Definition set_marked (m : gset Z) (s : State) : State :=
  {| slots := slots s; marked := m; overflow := overflow s;
     marking_stack := marking_stack s; marked_count := marked_count s |}.
Definition set_overflow (m : gset Z) (s : State) : State :=
  {| slots := slots s; marked := marked s; overflow := m;
     marking_stack := marking_stack s; marked_count := marked_count s |}.
Definition set_marking_stack (k : MarkingStack) (s : State) : State :=
  {| slots := slots s; marked := marked s; overflow := overflow s;
     marking_stack := k; marked_count := marked_count s |}.
Definition set_marked_count (n : Z) (s : State) : State :=
  {| slots := slots s; marked := marked s; overflow := overflow s;
     marking_stack := marking_stack s; marked_count := n |}.

Definition write (p : Slot) (v : Z) (s : State) : State :=
  set_slots (fun q => if decide (q = p) then v else slots s q) s.

Definition IsMarked (obj : Z) (s : State) : bool := bool_decide (obj ∈ marked s).
Definition SetMark (obj : Z) (s : State) : State := set_marked ({[obj]} ∪ marked s) s.
Definition ClearMark (obj : Z) (s : State) : State := set_marked (marked s ∖ {[obj]}) s.
Definition IsOverflowed (obj : Z) (s : State) : bool := bool_decide (obj ∈ overflow s).
Definition SetOverflow (obj : Z) (s : State) : State := set_overflow ({[obj]} ∪ overflow s) s.
Definition ClearOverflow (obj : Z) (s : State) : State := set_overflow (overflow s ∖ {[obj]}) s.
Definition increment_marked_count (s : State) : State :=
  set_marked_count (marked_count s + 1) s.
Definition decrement_marked_count (s : State) : State :=
  set_marked_count (marked_count s - 1) s.

(** The marked objects of the heap, in the order of [all_objects]. *)
Definition marked_objects (L : Layout) (s : State) : list Z :=
  List.filter (fun obj => IsMarked obj s) (all_objects L).

(** A loop over a list that threads the state. *)
Fixpoint for_each {A : Type} (f : A -> State -> State) (l : list A) (s : State) : State :=
  match l with
  | [] => s
  | x :: l' => for_each f l' (f x s)
  end.

(** The slots of the fields [first, first + count) of [obj]. *)
Definition field_slots (obj : Z) (r : nat * nat) : list Slot :=
  map (FieldSlot obj) (seq (fst r) (snd r)).
Definition root_slots (r : nat * nat) : list Slot :=
  map RootSlot (seq (fst r) (snd r)).

Definition kMinRangeForMarkingRecursion : nat := 64.

Section Visitor.

Variable L : Layout.

(** [MarkingStack::Push] (mark-compact.h). *)
Variable Push : Z -> MarkingStack -> MarkingStack.

Definition IsMap (obj : Z) : bool :=
  instance_type L (map_of L obj) =? MAP_TYPE L.

(** [Map::ClearCodeCache] (objects-inl.h): the code cache field of the map
    is set to the empty fixed array. *)
Definition ClearCodeCache (obj : Z) (s : State) : State :=
  write (FieldSlot obj (kCodeCacheIndex L)) (empty_fixed_array L) s.

(** [MarkUnmarkedObject(obj)].  The counter of global objects and the
    debug counters of live objects are left out. *)
Definition MarkUnmarkedObject (obj : Z) (s : State) : State :=
  let s :=
    if FLAG_cleanup_caches_in_maps_at_gc L && IsMap obj
    then ClearCodeCache obj s else s in
  let s := SetMark obj s in
  let s := increment_marked_count s in
  if negb (overflowed (marking_stack s)) then
    set_marking_stack (Push obj (marking_stack s)) s
  else
    SetOverflow obj s.

(** [MarkObject(obj)] (mark-compact.h): marks [obj] unless it is marked. *)
Definition MarkObject (obj : Z) (s : State) : State :=
  if IsMarked obj s then s else MarkUnmarkedObject obj s.

(** The test of [MarkObjectByPointer] on the instance type: a string, and
    a cons string. *)
Definition IsConsStringType (type : Z) : bool :=
  (type <? FIRST_NONSTRING_TYPE L)
  && (Z.land type (kStringRepresentationMask L) =? kConsStringTag L).

(** [MarkingVisitor::MarkObjectByPointer(p)]. *)
Definition MarkObjectByPointer (p : Slot) (s : State) : State :=
  let obj := slots s p in
  if negb (IsHeapObject obj) then s
  else
    let type := instance_type L (map_of L obj) in
    if IsConsStringType type
       && (slots s (FieldSlot obj (kSecondIndex L)) =? empty_string L)
    then
      let first := slots s (FieldSlot obj (kFirstIndex L)) in
      if InNewSpace L obj || negb (InNewSpace L first) then
        MarkObject first (write p first s)
      else
        MarkObject obj s
    else
      MarkObject obj s.

(** [obj->IterateBody(type, size, visitor)] with a visitor whose
    [VisitPointers] is [visit]. *)
Definition IterateBody_with (visit : list Slot -> State -> State)
    (obj : Z) (s : State) : State :=
  for_each (fun r => visit (field_slots obj r)) (body_ranges L obj) s.

(** [MarkingVisitor::VisitUnmarkedObject(obj)]. *)
Definition VisitUnmarkedObject_with (visit : list Slot -> State -> State)
    (obj : Z) (s : State) : State :=
  let map := map_of L obj in
  let s := SetMark obj s in
  let s := increment_marked_count s in
  let s := MarkObject map s in
  IterateBody_with visit obj s.

(** [MarkingVisitor::VisitPointers(start, end)] over the slots [ps], with
    room for [depth] nested calls of [VisitUnmarkedObjects] on the C++
    stack: [VisitUnmarkedObjects] returns false, and the objects are only
    marked, when there is none. *)
Fixpoint VisitPointers (depth : nat) (ps : list Slot) (s : State) : State :=
  let mark_each := for_each MarkObjectByPointer ps s in
  if decide (kMinRangeForMarkingRecursion <= length ps)%nat then
    match depth with
    | O => mark_each
    | S depth' =>
        for_each
          (fun p s =>
             if negb (IsHeapObject (slots s p)) then s
             else
               let obj := slots s p in
               if IsMarked obj s then s
               else VisitUnmarkedObject_with (VisitPointers depth') obj s)
          ps s
    end
  else mark_each.

Definition VisitPointer (p : Slot) (s : State) : State := MarkObjectByPointer p s.

Definition IterateBody (obj : Z) (s : State) : State :=
  IterateBody_with (VisitPointers (stack_headroom L)) obj s.

(** [VisitOverflowedObject(obj)]: false when the scan has to stop. *)
Definition VisitOverflowedObject (obj : Z) (s : State) : bool * State :=
  if negb (IsOverflowed obj s) then (true, s)
  else if overflowed (marking_stack s) then (false, s)
  else
    let s := ClearOverflow obj s in
    (true, set_marking_stack (Push obj (marking_stack s)) s).

(** [ScanOverflowedObjects(it)] over the objects that [it] yields. *)
Fixpoint ScanOverflowedObjects (it : list Z) (s : State) : State :=
  match it with
  | [] => s
  | obj :: it' =>
      let '(go_on, s') := VisitOverflowedObject obj s in
      if go_on then ScanOverflowedObjects it' s' else s'
  end.

(** The second half of the body of the loop of [ProcessMarkingStack]:
    the refill of the stack, once the overflow flag was found set. *)
Definition RefillMarkingStack (s : State) : State :=
  let s := set_marking_stack (clear_overflowed (marking_stack s)) s in
  let s := ScanOverflowedObjects (new_space_objects L) s in
  if overflowed (marking_stack s) then s else
  let s := ScanOverflowedObjects (old_space_objects L) s in
  if overflowed (marking_stack s) then s else
  let s := ScanOverflowedObjects (code_space_objects L) s in
  if overflowed (marking_stack s) then s else
  let s := ScanOverflowedObjects (map_space_objects L) s in
  if overflowed (marking_stack s) then s else
  ScanOverflowedObjects (lo_space_objects L) s.

(** [ProcessMarkingStack(marking_visitor)].  One unit of fuel is used by
    each object popped and by each refill; the inner loop is the first
    branch, taken as long as the stack is not empty. *)
Fixpoint ProcessMarkingStack (fuel : nat) (s : State) : option State :=
  match fuel with
  | O => None
  | S fuel' =>
      match Pop (marking_stack s) with
      | Some (object, stack) =>
          let s := set_marking_stack stack s in
          let map := map_of L object in
          let s := MarkObject map s in
          ProcessMarkingStack fuel' (IterateBody object s)
      | None =>
          if negb (overflowed (marking_stack s)) then Some s
          else ProcessMarkingStack fuel' (RefillMarkingStack s)
      end
  end.

End Visitor.

(** *** The invariants of marking *)

Lemma size_unmarked_insert (U M : gset Z) obj :
  obj ∈ U -> obj ∉ M ->
  size (U ∖ M) = S (size (U ∖ ({[obj]} ∪ M))).
Proof.
  intros HU HM.
  assert (U ∖ M = {[obj]} ∪ (U ∖ ({[obj]} ∪ M))) as ->.
  { apply set_eq. intros x. destruct (decide (x = obj)); set_solver. }
  rewrite size_union by set_solver. rewrite size_singleton. reflexivity.
Qed.

Lemma size_insert_fresh (M : gset Z) obj :
  obj ∉ M -> size ({[obj]} ∪ M) = S (size M).
Proof.
  intros HM. rewrite size_union by set_solver. rewrite size_singleton. reflexivity.
Qed.

Lemma size_remove (M : gset Z) obj :
  obj ∈ M -> size M = S (size (M ∖ {[obj]})).
Proof.
  intros HM.
  assert (M = {[obj]} ∪ (M ∖ {[obj]})) as Heq.
  { apply set_eq. intros x. destruct (decide (x = obj)); set_solver. }
  rewrite Heq at 1. rewrite size_union by set_solver.
  rewrite size_singleton. reflexivity.
Qed.

Section Invariants.

Variable L : Layout.
Variable Push : Z -> MarkingStack -> MarkingStack.

(** The objects of the heap. *)
Definition heap_objects : gset Z := list_to_set (all_objects L).

(** What the callers of [Push] in mark-compact.cc rely on.  They test
    [overflowed()] and nothing else before they push, and
    [VisitOverflowedObject] clears the overflow bit of the object it
    pushes: an object pushed while the flag is clear has to be on the stack
    afterwards, so the flag has to be set by the push that fills the
    stack. *)
Definition PushStores : Prop :=
  forall obj k,
    overflowed k = false -> (length (items k) < limit k)%nat ->
    items (Push obj k) = obj :: items k /\
    limit (Push obj k) = limit k /\
    (overflowed (Push obj k) = false -> (S (length (items k)) < limit k)%nat).

(** The heap is closed under [map()], and the objects the collector
    stores in slots are heap objects other than the symbol table. *)
Record LayoutOk : Prop := {
  map_in_heap : forall obj, obj ∈ heap_objects -> map_of L obj ∈ heap_objects;
  map_not_symbol_table : forall obj, map_of L obj <> symbol_table L;
  empty_fixed_array_in_heap : empty_fixed_array L ∈ heap_objects;
  empty_fixed_array_not_symbol_table : empty_fixed_array L <> symbol_table L;
  null_value_in_heap : null_value L ∈ heap_objects;
  null_value_not_symbol_table : null_value L <> symbol_table L;
  symbol_table_in_heap : symbol_table L ∈ heap_objects
}.

(** The state is well formed: marks are on heap objects; a slot holds a
    small integer or a pointer to a heap object, never to the symbol table
    (the table is reached from its root only); the first field of a cons
    string is a heap object; what is on the stack or has its overflow bit
    set is marked; the stack has room while its flag is clear; the count of
    the tracer is the number of marked objects. *)
Record wf (s : State) : Prop := {
  wf_marked : marked s ⊆ heap_objects;
  wf_slots : forall p, IsHeapObject (slots s p) = true -> slots s p ∈ heap_objects;
  wf_symbol_table : forall p, slots s p <> symbol_table L;
  wf_cons : forall obj,
    obj ∈ heap_objects ->
    IsConsStringType L (instance_type L (map_of L obj)) = true ->
    slots s (FieldSlot obj (kFirstIndex L)) ∈ heap_objects;
  wf_items : forall obj, obj ∈ items (marking_stack s) -> obj ∈ marked s;
  wf_overflow : overflow s ⊆ marked s;
  wf_room :
    overflowed (marking_stack s) = false ->
    (length (items (marking_stack s)) < limit (marking_stack s))%nat;
  wf_limit : (0 < limit (marking_stack s))%nat;
  wf_count : marked_count s = Z.of_nat (size (marked s))
}.

(** Gray: reached, with children still to visit. *)
Definition gray (s : State) (obj : Z) : Prop :=
  obj ∈ items (marking_stack s) \/ obj ∈ overflow s.

Definition points_to_marked (s : State) (p : Slot) : Prop :=
  IsHeapObject (slots s p) = true -> slots s p ∈ marked s.

(** All that [obj] refers to is marked: its map, and the objects its
    pointer fields hold. *)
Definition closed (s : State) (obj : Z) : Prop :=
  map_of L obj ∈ marked s /\
  forall r p, r ∈ body_ranges L obj -> p ∈ field_slots obj r -> points_to_marked s p.

(** The tricolor invariant: a marked object that is not gray is closed,
    the symbol table (marked without a visit of its elements) and the
    objects [P] whose bodies are being visited apart. *)
Definition tricolor (P : gset Z) (s : State) : Prop :=
  forall obj,
    obj ∈ marked s -> ~ gray s obj -> obj ∉ P -> obj <> symbol_table L ->
    closed s obj.

(** What is left to do: the objects not marked yet and the gray ones. *)
Definition measure (s : State) : nat :=
  (size (heap_objects ∖ marked s) + length (items (marking_stack s))
   + size (overflow s))%nat.

(** A slot that marking leaves alone unless it visits it: a root, or a
    field of a marked object or of the symbol table. *)
Definition stable (s : State) (p : Slot) : Prop :=
  match p with
  | RootSlot _ => True
  | FieldSlot obj _ => obj ∈ marked s \/ obj = symbol_table L
  end.

(** [s'] comes from [s] by marking, with visits of the slots [W] only. *)
Record ext (W : Slot -> Prop) (s s' : State) : Prop := {
  ext_marked : marked s ⊆ marked s';
  ext_gray_mono : forall obj, gray s obj -> gray s' obj;
  ext_gray_new : forall obj, gray s' obj -> gray s obj \/ obj ∉ marked s;
  ext_slots : forall p, ~ W p -> stable s p -> slots s' p = slots s p;
  ext_flag :
    overflowed (marking_stack s) = true -> overflowed (marking_stack s') = true;
  ext_overflow :
    overflowed (marking_stack s') = false -> overflow s' = overflow s;
  ext_symbol_table : symbol_table L ∈ marked s' -> symbol_table L ∈ marked s;
  ext_measure : (measure s' <= measure s)%nat
}.

Definition no_slot : Slot -> Prop := fun _ => False.

Lemma ext_refl W s : ext W s s.
Proof. split; auto. Qed.

Lemma ext_trans W1 W2 s1 s2 s3 :
  ext W1 s1 s2 -> ext W2 s2 s3 -> ext (fun p => W1 p \/ W2 p) s1 s3.
Proof.
  intros H1 H2. split.
  - pose proof (ext_marked _ _ _ H1). pose proof (ext_marked _ _ _ H2). set_solver.
  - intros obj Hg. apply (ext_gray_mono _ _ _ H2), (ext_gray_mono _ _ _ H1), Hg.
  - intros obj Hg. destruct (ext_gray_new _ _ _ H2 obj Hg) as [Hg2|Hn].
    + apply (ext_gray_new _ _ _ H1 obj Hg2).
    + right. pose proof (ext_marked _ _ _ H1). set_solver.
  - intros p HW Hst.
    rewrite (ext_slots _ _ _ H2), (ext_slots _ _ _ H1); auto.
    destruct p as [i|obj i]; simpl in *; [exact I|].
    destruct Hst as [Hst|Hst]; [left; apply (ext_marked _ _ _ H1), Hst|right; exact Hst].
  - intros Hf. apply (ext_flag _ _ _ H2), (ext_flag _ _ _ H1), Hf.
  - intros Hf. rewrite (ext_overflow _ _ _ H2 Hf).
    apply (ext_overflow _ _ _ H1).
    destruct (overflowed (marking_stack s2)) eqn:E; [|reflexivity].
    rewrite (ext_flag _ _ _ H2 E) in Hf. discriminate.
  - intros Hm. apply (ext_symbol_table _ _ _ H1), (ext_symbol_table _ _ _ H2), Hm.
  - pose proof (ext_measure _ _ _ H1). pose proof (ext_measure _ _ _ H2). lia.
Qed.

Lemma ext_weaken (W W' : Slot -> Prop) s s' :
  (forall p, W p -> W' p) -> ext W s s' -> ext W' s s'.
Proof.
  intros HW H. destruct H. split; auto.
Qed.


(** [target] is reached from [obj] through maps and pointer fields, as
    the slots are in [s].  The symbol table is weak: nothing is reached
    through it. *)
Inductive reachable (s : State) : Z -> Z -> Prop :=
  | reachable_refl obj : reachable s obj obj
  | reachable_map obj target :
      obj <> symbol_table L ->
      reachable s (map_of L obj) target ->
      reachable s obj target
  | reachable_field obj r p target :
      obj <> symbol_table L ->
      r ∈ body_ranges L obj -> p ∈ field_slots obj r ->
      IsHeapObject (slots s p) = true ->
      reachable s (slots s p) target ->
      reachable s obj target.

Lemma closed_reachable s :
  (forall obj, obj ∈ marked s -> obj <> symbol_table L -> closed s obj) ->
  forall obj target, reachable s obj target -> obj ∈ marked s -> target ∈ marked s.
Proof.
  intros Hclosed obj target Hr.
  induction Hr as [obj|obj target Hs _ IH|obj r p target Hs Hr Hp Hh _ IH];
    intros Hm.
  - exact Hm.
  - apply IH. apply (Hclosed obj Hm Hs).
  - apply IH. destruct (Hclosed obj Hm Hs) as [_ Hf]. apply (Hf r p); assumption.
Qed.

(** With the overflow flag set, the object is marked and counted, its
    overflow bit is set, and the stack is left as it is. *)
Lemma MarkUnmarkedObject_overflowed obj s :
  overflowed (marking_stack s) = true ->
  let s' := MarkUnmarkedObject L Push obj s in
  marking_stack s' = marking_stack s /\
  obj ∈ overflow s' /\ obj ∈ marked s' /\
  marked_count s' = marked_count s + 1.
Proof.
  intros Hf. unfold MarkUnmarkedObject, ClearCodeCache.
  destruct (FLAG_cleanup_caches_in_maps_at_gc L && IsMap L obj); simpl;
    rewrite Hf; simpl; split_and!; auto; set_solver.
Qed.

(** The loop is left with the stack empty and the flag clear, and in no
    other way. *)
Lemma ProcessMarkingStack_returns fuel :
  forall s s',
    ProcessMarkingStack L Push fuel s = Some s' ->
    items (marking_stack s') = [] /\ overflowed (marking_stack s') = false.
Proof.
  induction fuel as [|fuel IH]; intros s s' Hrun; [discriminate|].
  simpl in Hrun. unfold Pop in Hrun.
  destruct (items (marking_stack s)) as [|object rest] eqn:Hitems.
  - destruct (overflowed (marking_stack s)) eqn:Hflag; cbn [negb] in Hrun.
    + apply IH in Hrun. exact Hrun.
    + injection Hrun as <-. auto.
  - apply IH in Hrun. exact Hrun.
Qed.

Hypothesis HL : LayoutOk.
Hypothesis Push_ok : PushStores.

(** Writing a heap object other than the symbol table into a slot. *)
Lemma write_wf p v s :
  wf s -> v ∈ heap_objects -> v <> symbol_table L -> wf (write p v s).
Proof.
  intros [] Hv Hs. split; simpl; auto.
  - intros q. destruct (decide (q = p)); auto.
  - intros q. destruct (decide (q = p)); auto.
  - intros obj Ho Hc. destruct (decide (_ = p)); auto.
Qed.

Lemma write_ext (W : Slot -> Prop) p v s :
  (W p \/ ~ stable s p) -> ext W s (write p v s).
Proof.
  intros Hp. split; simpl; auto.
  intros q HW Hst. destruct (decide (q = p)) as [->|]; [|reflexivity].
  destruct Hp; contradiction.
Qed.

Lemma write_tricolor P p v s :
  (match p with
   | RootSlot _ => True
   | FieldSlot obj _ => obj ∈ P \/ obj ∉ marked s \/ obj = symbol_table L
   end) ->
  tricolor P s -> tricolor P (write p v s).
Proof.
  intros Hp Ht obj Hm Hg HP Hs.
  destruct (Ht obj Hm Hg HP Hs) as [Hmap Hf]. split; [exact Hmap|].
  intros r q Hr Hq Hh. unfold points_to_marked in *. simpl in *.
  destruct (decide (q = p)) as [->|Hne].
  - unfold field_slots in Hq. apply list_elem_of_fmap in Hq as (i & -> & _).
    simpl in Hp. destruct Hp as [?|[?|?]]; contradiction.
  - apply (Hf r q Hr Hq). exact Hh.
Qed.

Lemma MarkUnmarkedObject_ok P obj s :
  wf s -> obj ∈ heap_objects -> obj ∉ marked s -> obj <> symbol_table L ->
  let s' := MarkUnmarkedObject L Push obj s in
  wf s' /\ ext no_slot s s' /\ obj ∈ marked s' /\ (tricolor P s -> tricolor P s').
Proof.
  intros Hwf HU Hm Hsym s'.
  set (s1 := if FLAG_cleanup_caches_in_maps_at_gc L && IsMap L obj
             then ClearCodeCache L obj s else s).
  assert (H1 : wf s1 /\ ext no_slot s s1 /\ marked s1 = marked s /\
               marking_stack s1 = marking_stack s /\ overflow s1 = overflow s /\
               (tricolor P s -> tricolor P s1)).
  { subst s1. destruct (_ && _).
    - unfold ClearCodeCache. split; [|split; [|split; [|split; [|split]]]]; try reflexivity.
      + apply write_wf; auto. apply HL. apply HL.
      + apply write_ext. right. simpl. intros [?|?]; contradiction.
      + apply write_tricolor. right. left. exact Hm.
    - split; [exact Hwf|]. split; [apply ext_refl|]. auto. }
  destruct H1 as (Hwf1 & Hext1 & Hmk1 & Hstk1 & Hov1 & Htri1).
  assert (Hm1 : obj ∉ marked s1) by (rewrite Hmk1; exact Hm).
  assert (Hno : obj ∉ overflow s1).
  { intros Hin. apply Hm1. apply (wf_overflow _ Hwf1). exact Hin. }
  assert (Hni : obj ∉ items (marking_stack s1)).
  { intros Hin. apply Hm1. apply (wf_items _ Hwf1). exact Hin. }
  assert (H2 : wf s' /\ ext no_slot s1 s' /\ obj ∈ marked s' /\
               (tricolor P s1 -> tricolor P s')).
  { subst s'. unfold MarkUnmarkedObject. fold s1.
    cbn [marking_stack increment_marked_count SetMark set_marked_count set_marked].
    destruct (overflowed (marking_stack s1)) eqn:Hflag; cbn [negb].
    - (* the flag is set: the overflow bit of the object is set *)
      split; [|split; [|split]].
      + destruct Hwf1. split; simpl; auto.
        * set_solver.
        * intros o Ho. apply elem_of_union_r. auto.
        * set_solver.
        * rewrite size_insert_fresh by assumption. lia.
      + split; simpl; auto.
        * set_solver.
        * intros o [Ho|Ho]; [left; exact Ho|right; set_solver].
        * intros o [Ho|Ho]; [left; left; exact Ho|].
          apply elem_of_union in Ho as [Ho|Ho]; [|left; right; exact Ho].
          apply elem_of_singleton in Ho. subst o. right. exact Hm1.
        * congruence.
        * intros Hs. apply elem_of_union in Hs as [Hs|Hs]; [|exact Hs].
          apply elem_of_singleton in Hs. congruence.
        * unfold measure. simpl.
          rewrite (size_unmarked_insert heap_objects (marked s1) obj) by assumption.
          rewrite size_insert_fresh by assumption. lia.
      + simpl. set_solver.
      + intros Ht o Ho Hg HP Hs. simpl in Ho.
        destruct (decide (o = obj)) as [->|Hne].
        * exfalso. apply Hg. right. simpl. set_solver.
        * assert (Ho' : o ∈ marked s1) by set_solver.
          assert (Hg' : ~ gray s1 o).
          { intros [Hg'|Hg']; apply Hg; [left; exact Hg'|right; simpl; set_solver]. }
          destruct (Ht o Ho' Hg' HP Hs) as [Hmap Hf]. split; simpl.
          -- set_solver.
          -- intros r q Hr Hq Hh. apply elem_of_union_r. apply (Hf r q Hr Hq Hh).
    - (* the flag is clear: the object is pushed *)
      destruct (Push_ok obj (marking_stack s1) Hflag (wf_room _ Hwf1 Hflag))
        as (Hitems & Hlimit & Hroom).
      split; [|split; [|split]].
      + destruct Hwf1. split; simpl; auto.
        * set_solver.
        * intros o Ho. rewrite Hitems in Ho. apply elem_of_cons in Ho as [->|Ho];
            [set_solver|]. apply elem_of_union_r. auto.
        * set_solver.
        * intros Hf. rewrite Hitems, Hlimit. simpl. apply Hroom. exact Hf.
        * rewrite Hlimit. assumption.
        * rewrite size_insert_fresh by assumption. lia.
      + split; simpl; auto.
        * set_solver.
        * intros o [Ho|Ho]; [left; simpl; rewrite Hitems; set_solver|right; exact Ho].
        * intros o [Ho|Ho]; [|left; right; exact Ho].
          simpl in Ho. rewrite Hitems in Ho.
          apply elem_of_cons in Ho as [->|Ho]; [right; exact Hm1|left; left; exact Ho].
        * congruence.
        * intros Hs. apply elem_of_union in Hs as [Hs|Hs]; [|exact Hs].
          apply elem_of_singleton in Hs. congruence.
        * unfold measure. simpl. rewrite Hitems. simpl.
          rewrite (size_unmarked_insert heap_objects (marked s1) obj) by assumption.
          lia.
      + simpl. set_solver.
      + intros Ht o Ho Hg HP Hs. simpl in Ho.
        destruct (decide (o = obj)) as [->|Hne].
        * exfalso. apply Hg. left. simpl. rewrite Hitems. set_solver.
        * assert (Ho' : o ∈ marked s1) by set_solver.
          assert (Hg' : ~ gray s1 o).
          { intros [Hg'|Hg']; apply Hg; [left; simpl; rewrite Hitems; set_solver|right; exact Hg']. }
          destruct (Ht o Ho' Hg' HP Hs) as [Hmap Hf]. split; simpl.
          -- set_solver.
          -- intros r q Hr Hq Hh. apply elem_of_union_r. apply (Hf r q Hr Hq Hh). }
  destruct H2 as (Hwf2 & Hext2 & Hin2 & Htri2).
  split; [exact Hwf2|]. split; [|split; [exact Hin2|auto]].
  apply (ext_weaken (fun p => no_slot p \/ no_slot p)).
  - intros p [[]|[]].
  - eapply ext_trans; eassumption.
Qed.


Lemma MarkObject_ok P obj s :
  wf s -> obj ∈ heap_objects -> obj <> symbol_table L ->
  let s' := MarkObject L Push obj s in
  wf s' /\ ext no_slot s s' /\ obj ∈ marked s' /\ (tricolor P s -> tricolor P s').
Proof.
  intros Hwf HU Hsym. unfold MarkObject, IsMarked.
  destruct (bool_decide_reflect (obj ∈ marked s)) as [Hm|Hm].
  - simpl. split; [exact Hwf|]. split; [apply ext_refl|]. auto.
  - apply MarkUnmarkedObject_ok; assumption.
Qed.

(** A slot the visitor may be given while the bodies of the objects [P]
    are visited: a root, a field of one of them, or a field of the symbol
    table. *)
Definition visitable (P : gset Z) (s : State) (p : Slot) : Prop :=
  match p with
  | RootSlot _ => True
  | FieldSlot obj _ => (obj ∈ P /\ obj ∈ marked s) \/ obj = symbol_table L
  end.

Lemma visitable_stable P s p : visitable P s p -> stable s p.
Proof. destruct p; simpl; tauto. Qed.

Lemma visitable_ext P W s s' p : ext W s s' -> visitable P s p -> visitable P s' p.
Proof.
  intros He. destruct p; simpl; [auto|]. intros [[HP Hm]|Hs]; [left|right; exact Hs].
  split; [exact HP|]. apply (ext_marked _ _ _ He), Hm.
Qed.

(** The visit of the slots [slots_of x] by [f x] keeps the invariants and
    leaves every one of these slots with a small integer or a marked
    object. *)
Definition visit_ok {A : Type} (P : gset Z)
    (f : A -> State -> State) (slots_of : A -> list Slot) : Prop :=
  forall x s,
    wf s -> (forall p, p ∈ slots_of x -> visitable P s p) -> tricolor P s ->
    wf (f x s) /\ ext (fun p => p ∈ slots_of x) s (f x s) /\
    (forall p, p ∈ slots_of x -> points_to_marked (f x s) p) /\
    tricolor P (f x s).

Lemma MarkObjectByPointer_ok P :
  visit_ok P (MarkObjectByPointer L Push) (fun p => [p]).
Proof.
  intros p s Hwf Hvis Htri.
  assert (Hp : visitable P s p) by (apply Hvis; set_solver).
  assert (Hpts : forall s' v,
    slots s' p = v -> v ∈ marked s' ->
    forall q, q ∈ [p] -> points_to_marked s' q).
  { intros s' v Hv Hm q Hq. apply list_elem_of_singleton in Hq. subst q.
    intros _. rewrite Hv. exact Hm. }
  assert (Hmark : forall s1 obj,
    wf s1 -> ext (fun q => q ∈ [p]) s s1 -> tricolor P s1 ->
    obj ∈ heap_objects -> obj <> symbol_table L -> slots s1 p = obj ->
    let s' := MarkObject L Push obj s1 in
    wf s' /\ ext (fun q => q ∈ [p]) s s' /\
    (forall q, q ∈ [p] -> points_to_marked s' q) /\ tricolor P s').
  { intros s1 obj Hwf1 Hext1 Htri1 HU Hsym Hslot s'.
    destruct (MarkObject_ok P obj s1 Hwf1 HU Hsym) as (Hwf' & Hext' & Hin & Htri').
    fold s' in Hwf', Hext', Hin, Htri'.
    split; [exact Hwf'|]. split; [|split].
    - apply (ext_weaken (fun q => q ∈ [p] \/ no_slot q)); [intros q [?|[]]; auto|].
      eapply ext_trans; eassumption.
    - apply (Hpts s' obj); [|exact Hin].
      rewrite (ext_slots _ _ _ Hext'); [exact Hslot|intros []|].
      apply (visitable_stable P). eapply visitable_ext; eassumption.
    - auto. }
  unfold MarkObjectByPointer.
  destruct (IsHeapObject (slots s p)) eqn:Hheap; cbn [negb].
  2:{ split; [exact Hwf|]. split; [apply ext_refl|]. split; [|exact Htri].
      intros q Hq. apply list_elem_of_singleton in Hq. subst q.
      unfold points_to_marked. congruence. }
  pose proof (wf_slots _ Hwf p Hheap) as HU.
  pose proof (wf_symbol_table _ Hwf p) as Hsym.
  destruct (IsConsStringType L (instance_type L (map_of L (slots s p)))) eqn:Hcons;
    cbn [andb].
  2:{ apply Hmark; auto. apply ext_refl. }
  destruct (slots s (FieldSlot (slots s p) (kSecondIndex L)) =? empty_string L).
  2:{ apply Hmark; auto. apply ext_refl. }
  destruct (InNewSpace L (slots s p)
            || negb (InNewSpace L (slots s (FieldSlot (slots s p) (kFirstIndex L))))).
  2:{ apply Hmark; auto. apply ext_refl. }
  set (first := slots s (FieldSlot (slots s p) (kFirstIndex L))).
  assert (HUf : first ∈ heap_objects) by (apply (wf_cons _ Hwf); assumption).
  assert (Hsf : first <> symbol_table L) by apply (wf_symbol_table _ Hwf).
  apply Hmark; auto.
  - apply write_wf; assumption.
  - apply write_ext. left. set_solver.
  - apply write_tricolor; [|exact Htri].
    destruct p; simpl in *; [exact I|tauto].
  - simpl. rewrite decide_True by reflexivity. reflexivity.
Qed.

Lemma for_each_visit_ok {A : Type} P (f : A -> State -> State) slots_of :
  visit_ok P f slots_of ->
  visit_ok P (for_each f) (fun l => x ← l; slots_of x).
Proof.
  intros Hf l. induction l as [|x l IH]; intros s Hwf Hvis Htri.
  - simpl. split; [exact Hwf|]. split; [apply ext_refl|]. split; [|exact Htri].
    intros p Hp. set_solver.
  - simpl for_each.
    assert (Hvx : forall p, p ∈ slots_of x -> visitable P s p).
    { intros p Hp. apply Hvis. set_solver. }
    destruct (Hf x s Hwf Hvx Htri) as (Hwf1 & Hext1 & Hpts1 & Htri1).
    assert (Hvl : forall p, p ∈ (y ← l; slots_of y) -> visitable P (f x s) p).
    { intros p Hp. eapply visitable_ext; [exact Hext1|]. apply Hvis. set_solver. }
    destruct (IH (f x s) Hwf1 Hvl Htri1) as (Hwf2 & Hext2 & Hpts2 & Htri2).
    split; [exact Hwf2|]. split; [|split; [|exact Htri2]].
    + eapply ext_weaken; [|eapply ext_trans; [exact Hext1|exact Hext2]].
      intros p [Hp|Hp]; set_solver.
    + intros p Hp.
      destruct (decide (p ∈ (y ← l; slots_of y))) as [Hin|Hnin];
        [apply Hpts2; exact Hin|].
      assert (Hpx : p ∈ slots_of x) by set_solver.
      unfold points_to_marked.
      rewrite (ext_slots _ _ _ Hext2 p Hnin).
      * intros Hh. apply (ext_marked _ _ _ Hext2). apply Hpts1; assumption.
      * apply (visitable_stable P). eapply visitable_ext; [exact Hext1|].
        apply Hvx. exact Hpx.
Qed.


Lemma ext_restrict (W W' : Slot -> Prop) s s' :
  (forall p, W p -> stable s p -> W' p) -> ext W s s' -> ext W' s s'.
Proof.
  intros HW H. destruct H. split; auto.
Qed.

Lemma visit_ok_slots {A : Type} P (f : A -> State -> State) slots_of slots_of' :
  (forall x p, p ∈ slots_of x <-> p ∈ slots_of' x) ->
  visit_ok P f slots_of -> visit_ok P f slots_of'.
Proof.
  intros Heq Hf x s Hwf Hvis Htri.
  destruct (Hf x s Hwf) as (Hwf' & Hext & Hpts & Htri'); [|exact Htri|].
  - intros p Hp. apply Hvis, Heq, Hp.
  - split; [exact Hwf'|]. split; [|split; [|exact Htri']].
    + eapply ext_weaken; [|exact Hext]. intros p Hp. apply Heq, Hp.
    + intros p Hp. apply Hpts, Heq, Hp.
Qed.

Lemma SetMark_count_ok P obj s :
  wf s -> obj ∈ heap_objects -> obj ∉ marked s -> obj <> symbol_table L ->
  tricolor P s ->
  let s' := increment_marked_count (SetMark obj s) in
  wf s' /\ ext no_slot s s' /\ obj ∈ marked s' /\ tricolor ({[obj]} ∪ P) s'.
Proof.
  intros Hwf HU Hm Hsym Htri s'. subst s'.
  split; [|split; [|split]].
  - destruct Hwf. split; simpl; auto.
    + set_solver.
    + intros o Ho. apply elem_of_union_r. auto.
    + set_solver.
    + rewrite size_insert_fresh by assumption. lia.
  - split; simpl; auto.
    + set_solver.
    + intros Hs. apply elem_of_union in Hs as [Hs|Hs]; [|exact Hs].
      apply elem_of_singleton in Hs. congruence.
    + unfold measure. simpl.
      rewrite (size_unmarked_insert heap_objects (marked s) obj) by assumption.
      lia.
  - simpl. set_solver.
  - intros o Ho Hg HP Hs. simpl in Ho.
    assert (Ho' : o ∈ marked s) by set_solver.
    assert (HP' : o ∉ P) by set_solver.
    destruct (Htri o Ho' Hg HP' Hs) as [Hmap Hf]. split; simpl.
    + set_solver.
    + intros r q Hr Hq Hh. apply elem_of_union_r. apply (Hf r q Hr Hq Hh).
Qed.

Lemma IterateBody_ok (visit : list Slot -> State -> State) :
  (forall P, visit_ok P visit (fun ps => ps)) ->
  forall P obj s,
    wf s -> obj ∈ P -> obj ∈ marked s -> map_of L obj ∈ marked s ->
    tricolor P s ->
    let s' := IterateBody_with L visit obj s in
    wf s' /\ ext (fun p => exists i, p = FieldSlot obj i) s s' /\
    closed s' obj /\ tricolor (P ∖ {[obj]}) s'.
Proof.
  intros Hvisit P obj s Hwf HP Hm Hmap Htri s'.
  destruct (for_each_visit_ok P
              (fun r => visit (field_slots obj r)) (field_slots obj)
              ltac:(intros r; apply (Hvisit P))
              (body_ranges L obj) s Hwf) as (Hwf3 & Hext3 & Hpts3 & Htri3).
  { intros p Hp. apply list_elem_of_bind in Hp as (r & Hp & _).
    unfold field_slots in Hp. apply list_elem_of_fmap in Hp as (i & -> & _).
    simpl. left. split; assumption. }
  { exact Htri. }
  change (for_each (fun r => visit (field_slots obj r)) (body_ranges L obj) s)
    with s' in *.
  assert (Hclosed : closed s' obj).
  { split.
    - apply (ext_marked _ _ _ Hext3), Hmap.
    - intros r p Hr Hp. apply Hpts3. apply list_elem_of_bind. eauto. }
  split; [exact Hwf3|]. split; [|split; [exact Hclosed|]].
  - eapply ext_weaken; [|exact Hext3].
    intros p Hp. apply list_elem_of_bind in Hp as (r & Hp & _).
    unfold field_slots in Hp. apply list_elem_of_fmap in Hp as (i & -> & _).
    eauto.
  - intros o Ho Hg HPo Hs.
    destruct (decide (o = obj)) as [->|Hne]; [exact Hclosed|].
    apply Htri3; auto. set_solver.
Qed.

Lemma VisitUnmarkedObject_ok (visit : list Slot -> State -> State) :
  (forall P, visit_ok P visit (fun ps => ps)) ->
  forall P obj s,
    wf s -> obj ∈ heap_objects -> obj ∉ marked s -> obj <> symbol_table L ->
    tricolor P s ->
    let s' := VisitUnmarkedObject_with L Push visit obj s in
    wf s' /\ ext no_slot s s' /\ obj ∈ marked s' /\ tricolor P s'.
Proof.
  intros Hvisit P obj s Hwf HU Hm Hsym Htri s'.
  destruct (SetMark_count_ok P obj s Hwf HU Hm Hsym Htri)
    as (Hwf1 & Hext1 & Hin1 & Htri1).
  set (s1 := increment_marked_count (SetMark obj s)) in *.
  destruct (MarkObject_ok ({[obj]} ∪ P) (map_of L obj) s1 Hwf1)
    as (Hwf2 & Hext2 & Hin2 & Htri2).
  { apply (map_in_heap HL). exact HU. }
  { apply (map_not_symbol_table HL). }
  set (s2 := MarkObject L Push (map_of L obj) s1) in *.
  specialize (Htri2 Htri1).
  assert (Hin12 : obj ∈ marked s2) by (apply (ext_marked _ _ _ Hext2), Hin1).
  destruct (IterateBody_ok visit Hvisit ({[obj]} ∪ P) obj s2 Hwf2)
    as (Hwf3 & Hext3 & Hclosed & Htri3); auto.
  { set_solver. }
  change (IterateBody_with L visit obj s2) with s' in *.
  split; [exact Hwf3|]. split; [|split].
  - apply (ext_restrict
             (fun p => (no_slot p \/ no_slot p) \/ exists i, p = FieldSlot obj i)).
    + intros p [[[]|[]]|[i ->]] Hst. simpl in Hst. destruct Hst; contradiction.
    + eapply ext_trans; [eapply ext_trans; [exact Hext1|exact Hext2]|exact Hext3].
  - apply (ext_marked _ _ _ Hext3), Hin12.
  - intros o Ho Hg HP Hs.
    destruct (decide (o = obj)) as [->|Hne]; [exact Hclosed|].
    apply Htri3; auto. set_solver.
Qed.

Lemma VisitPointers_ok depth :
  forall P, visit_ok P (VisitPointers L Push depth) (fun ps => ps).
Proof.
  assert (Hsingle : forall (ps : list Slot) (p : Slot), p ∈ (q ← ps; [q]) <-> p ∈ ps).
  { intros ps p. rewrite list_elem_of_bind. split.
    - intros (q & Hq & Hin). apply list_elem_of_singleton in Hq. subst. exact Hin.
    - intros Hin. exists p. split; [set_solver|exact Hin]. }
  assert (Heach : forall P,
    visit_ok P (for_each (MarkObjectByPointer L Push)) (fun ps => ps)).
  { intros P. eapply visit_ok_slots; [exact Hsingle|].
    apply for_each_visit_ok, MarkObjectByPointer_ok. }
  induction depth as [|depth IH]; intros P ps s Hwf Hvis Htri.
  - simpl. destruct (decide _); apply Heach; assumption.
  - simpl. destruct (decide _) as [Hlen|Hlen]; [|apply Heach; assumption].
    clear Hlen. revert ps s Hwf Hvis Htri.
    change (visit_ok P
      (for_each (fun p s =>
         if negb (IsHeapObject (slots s p)) then s
         else if IsMarked (slots s p) s then s
              else VisitUnmarkedObject_with L Push (VisitPointers L Push depth)
                     (slots s p) s))
      (fun ps => ps)).
    eapply visit_ok_slots; [exact Hsingle|].
    apply for_each_visit_ok.
    intros p s Hwf Hvis Htri.
    assert (Hp : visitable P s p) by (apply Hvis; set_solver).
    destruct (IsHeapObject (slots s p)) eqn:Hheap; cbn [negb].
    2:{ split; [exact Hwf|]. split; [apply ext_refl|]. split; [|exact Htri].
        intros q Hq. apply list_elem_of_singleton in Hq. subst q.
        unfold points_to_marked. congruence. }
    unfold IsMarked.
    destruct (bool_decide_reflect (slots s p ∈ marked s)) as [Hm|Hm].
    { split; [exact Hwf|]. split; [apply ext_refl|]. split; [|exact Htri].
      intros q Hq. apply list_elem_of_singleton in Hq. subst q. intros _. exact Hm. }
    destruct (VisitUnmarkedObject_ok (VisitPointers L Push depth) IH P
                (slots s p) s Hwf) as (Hwf' & Hext' & Hin' & Htri'); auto.
    { apply (wf_slots _ Hwf). exact Hheap. }
    { apply (wf_symbol_table _ Hwf). }
    split; [exact Hwf'|]. split; [|split; [|exact Htri']].
    + eapply ext_weaken; [|exact Hext']. intros q [].
    + intros q Hq. apply list_elem_of_singleton in Hq. subst q. intros _.
      rewrite (ext_slots _ _ _ Hext'); [exact Hin'|intros []|].
      apply (visitable_stable P). exact Hp.
Qed.


(** *** The refill of the marking stack *)

Lemma ScanOverflowedObjects_overflowed it s :
  overflowed (marking_stack s) = true ->
  ScanOverflowedObjects Push it s = s.
Proof.
  intros Hf. induction it as [|obj it IH]; [reflexivity|].
  simpl. unfold VisitOverflowedObject.
  destruct (negb (IsOverflowed obj s)); [exact IH|].
  rewrite Hf. reflexivity.
Qed.

Lemma ScanOverflowedObjects_app it1 it2 s :
  ScanOverflowedObjects Push (it1 ++ it2) s =
  let s1 := ScanOverflowedObjects Push it1 s in
  if overflowed (marking_stack s1) then s1
  else ScanOverflowedObjects Push it2 s1.
Proof.
  revert s. induction it1 as [|obj it1 IH]; intros s.
  - simpl. destruct (overflowed (marking_stack s)) eqn:Hf; [|reflexivity].
    apply ScanOverflowedObjects_overflowed. exact Hf.
  - simpl. unfold VisitOverflowedObject.
    destruct (negb (IsOverflowed obj s)); [apply IH|].
    destruct (overflowed (marking_stack s)) eqn:Hf; [|apply IH].
    rewrite Hf. reflexivity.
Qed.

(** The rescan visits the spaces in the order new, old, code, map, large
    objects, and stops at the first object it cannot push: it is one scan
    of the objects of the heap in that order. *)
Lemma RefillMarkingStack_scan s :
  RefillMarkingStack L Push s =
  ScanOverflowedObjects Push (all_objects L)
    (set_marking_stack (clear_overflowed (marking_stack s)) s).
Proof.
  unfold RefillMarkingStack, all_objects.
  repeat (rewrite ScanOverflowedObjects_app; cbv zeta). reflexivity.
Qed.


(** What a scan changes: objects move from the overflowed state to the
    stack, and nothing else. *)
Record scan_rel (s s' : State) : Prop := {
  sr_marked : marked s' = marked s;
  sr_slots : slots s' = slots s;
  sr_count : marked_count s' = marked_count s;
  sr_gray : forall obj, gray s' obj <-> gray s obj;
  sr_measure : measure s' = measure s;
  sr_overflow : overflow s' ⊆ overflow s;
  sr_flag :
    overflowed (marking_stack s) = true -> overflowed (marking_stack s') = true;
  sr_progress :
    overflowed (marking_stack s') = true ->
    overflowed (marking_stack s) = true \/ items (marking_stack s') <> [];
  sr_items : items (marking_stack s) <> [] -> items (marking_stack s') <> []
}.

Lemma scan_rel_refl s : scan_rel s s.
Proof. split; auto. Qed.

Lemma scan_rel_trans s1 s2 s3 : scan_rel s1 s2 -> scan_rel s2 s3 -> scan_rel s1 s3.
Proof.
  intros [] []. split; try congruence; auto.
  - intros obj. rewrite sr_gray1. apply sr_gray0.
  - set_solver.
  - intros Hf. destruct (sr_progress1 Hf) as [Hf2|Hi]; [|right; exact Hi].
    destruct (sr_progress0 Hf2) as [Hf1|Hi]; [left; exact Hf1|right; auto].
Qed.

Lemma scan_rel_tricolor P s s' : scan_rel s s' -> tricolor P s -> tricolor P s'.
Proof.
  intros Hr Ht obj Hm Hg HP Hs.
  rewrite (sr_marked _ _ Hr) in Hm. rewrite (sr_gray _ _ Hr) in Hg.
  destruct (Ht obj Hm Hg HP Hs) as [Hmap Hf].
  split.
  - rewrite (sr_marked _ _ Hr). exact Hmap.
  - intros r p Hr' Hp. unfold points_to_marked.
    rewrite (sr_slots _ _ Hr), (sr_marked _ _ Hr). apply (Hf r p Hr' Hp).
Qed.

Lemma ScanOverflowedObjects_ok it :
  forall s, wf s ->
    let s' := ScanOverflowedObjects Push it s in
    wf s' /\ scan_rel s s' /\
    (overflowed (marking_stack s') = false -> forall obj, obj ∈ it -> obj ∉ overflow s').
Proof.
  induction it as [|obj it IH]; intros s Hwf; simpl.
  - split; [exact Hwf|]. split; [apply scan_rel_refl|]. intros _ o Ho. set_solver.
  - unfold VisitOverflowedObject, IsOverflowed.
    destruct (bool_decide_reflect (obj ∈ overflow s)) as [Hov|Hov]; cbn [negb].
    2:{ destruct (IH s Hwf) as (Hwf' & Hrel & Hclear).
        split; [exact Hwf'|]. split; [exact Hrel|].
        intros Hf o Ho. apply elem_of_cons in Ho as [->|Ho]; [|auto].
        pose proof (sr_overflow _ _ Hrel). set_solver. }
    destruct (overflowed (marking_stack s)) eqn:Hflag.
    { split; [exact Hwf|]. split; [apply scan_rel_refl|]. congruence. }
    destruct (Push_ok obj (marking_stack s) Hflag (wf_room _ Hwf Hflag))
      as (Hitems & Hlimit & Hroom).
    set (s1 := set_marking_stack
                 (Push obj (marking_stack (ClearOverflow obj s)))
                 (ClearOverflow obj s)).
    assert (Hwf1 : wf s1).
    { destruct Hwf. split; simpl; auto.
      - intros o Ho. rewrite Hitems in Ho.
        apply elem_of_cons in Ho as [->|Ho]; [set_solver|auto].
      - set_solver.
      - intros Hf. rewrite Hitems, Hlimit. simpl. auto.
      - rewrite Hlimit. assumption. }
    assert (Hrel1 : scan_rel s s1).
    { split; simpl; auto.
      - intros o. unfold gray. simpl. rewrite Hitems.
        rewrite elem_of_cons, elem_of_difference, elem_of_singleton.
        destruct (decide (o = obj)) as [->|Hne]; tauto.
      - unfold measure. simpl. rewrite Hitems. simpl.
        rewrite (size_remove (overflow s) obj Hov). lia.
      - set_solver.
      - congruence.
      - intros _. right. rewrite Hitems. discriminate.
      - intros _. rewrite Hitems. discriminate. }
    destruct (IH s1 Hwf1) as (Hwf' & Hrel & Hclear).
    split; [exact Hwf'|]. split; [eapply scan_rel_trans; eassumption|].
    intros Hf o Ho. apply elem_of_cons in Ho as [->|Ho]; [|auto].
    pose proof (sr_overflow _ _ Hrel). subst s1. simpl in *. set_solver.
Qed.

Lemma RefillMarkingStack_ok s :
  wf s -> items (marking_stack s) = [] ->
  let s' := RefillMarkingStack L Push s in
  wf s' /\
  marked s' = marked s /\ slots s' = slots s /\ marked_count s' = marked_count s /\
  (forall obj, gray s' obj <-> gray s obj) /\
  measure s' = measure s /\
  (overflowed (marking_stack s') = false -> overflow s' = ∅) /\
  (overflowed (marking_stack s') = true -> items (marking_stack s') <> []).
Proof.
  intros Hwf Hempty s'. subst s'. rewrite RefillMarkingStack_scan.
  set (s0 := set_marking_stack (clear_overflowed (marking_stack s)) s).
  assert (Hwf0 : wf s0).
  { destruct Hwf. split; simpl; auto. intros _. rewrite Hempty. simpl. assumption. }
  destruct (ScanOverflowedObjects_ok (all_objects L) s0 Hwf0) as (Hwf' & Hrel & Hclear).
  destruct Hrel. simpl in *.
  split; [exact Hwf'|]. repeat split; auto.
  - apply sr_gray0.
  - apply sr_gray0.
  - intros Hf. apply set_eq. intros o. split; [|set_solver].
    intros Ho. exfalso. apply (Hclear Hf o); [|exact Ho].
    pose proof (wf_marked _ Hwf') as HU. pose proof (wf_overflow _ Hwf') as HO.
    unfold heap_objects in HU. set_solver.
  - intros Hf. destruct (sr_progress0 Hf) as [Hf0|Hi]; [discriminate|exact Hi].
Qed.

(** What is left to do by [ProcessMarkingStack], in units of fuel. *)
Definition fuel_needed (s : State) : nat :=
  (2 * measure s
   + (if is_empty (marking_stack s) && overflowed (marking_stack s) then 1 else 0))%nat.

Lemma ProcessMarkingStack_ok fuel :
  forall s,
    wf s -> tricolor ∅ s ->
    (overflowed (marking_stack s) = false -> overflow s = ∅) ->
    (fuel_needed s < fuel)%nat ->
    exists s',
      ProcessMarkingStack L Push fuel s = Some s' /\
      wf s' /\ tricolor ∅ s' /\
      items (marking_stack s') = [] /\ overflowed (marking_stack s') = false /\
      overflow s' = ∅ /\
      marked s ⊆ marked s' /\
      (forall i, slots s' (RootSlot i) = slots s (RootSlot i)) /\
      (symbol_table L ∈ marked s' -> symbol_table L ∈ marked s) /\
      (measure s' <= measure s)%nat.
Proof.
  induction fuel as [|fuel IH]; intros s Hwf Htri Hov Hfuel; [lia|].
  simpl. unfold Pop.
  destruct (items (marking_stack s)) as [|object rest] eqn:Hitems.
  - (* the stack is empty *)
    destruct (overflowed (marking_stack s)) eqn:Hflag; cbn [negb].
    + destruct (RefillMarkingStack_ok s Hwf Hitems)
        as (Hwf' & Hm & Hsl & Hc & Hg & Hme & Hov' & Hprog).
      set (s1 := RefillMarkingStack L Push s) in *.
      destruct (IH s1 Hwf') as (s' & Hrun & Hpost).
      * intros o Ho Hgr HP Hs. rewrite Hm in Ho. rewrite Hg in Hgr.
        destruct (Htri o Ho Hgr HP Hs) as [Hmap Hf]. split.
        -- rewrite Hm. exact Hmap.
        -- intros r p Hr Hp. unfold points_to_marked. rewrite Hsl, Hm.
           apply (Hf r p Hr Hp).
      * exact Hov'.
      * unfold fuel_needed in *. rewrite Hme.
        unfold is_empty in Hfuel. rewrite Hitems, Hflag in Hfuel. simpl in Hfuel.
        assert ((if is_empty (marking_stack s1) && overflowed (marking_stack s1)
                 then 1 else 0) = 0)%nat as ->; [|lia].
        unfold is_empty.
        destruct (overflowed (marking_stack s1)) eqn:Hf1;
          [|rewrite andb_false_r; reflexivity].
        specialize (Hprog eq_refl).
        destruct (items (marking_stack s1)); [contradiction|reflexivity].
      * exists s'. split; [exact Hrun|].
        destruct Hpost as (? & ? & ? & ? & ? & ? & Hroots & ? & ?).
        rewrite Hm, Hme in *. split_and!; auto.
        intros i. rewrite Hroots, Hsl. reflexivity.
    + exists s. split; [reflexivity|]. split_and!; auto.
  - (* an object is popped *)
    set (s1 := set_marking_stack
                 {| items := rest; limit := limit (marking_stack s);
                    overflowed := overflowed (marking_stack s) |} s).
    assert (Hobj : object ∈ marked s).
    { apply (wf_items _ Hwf). rewrite Hitems. set_solver. }
    assert (Hwf1 : wf s1).
    { destruct Hwf. split; simpl; auto.
      - intros o Ho. apply wf_items0. rewrite Hitems. set_solver.
      - intros Hf. specialize (wf_room0 Hf). rewrite Hitems in wf_room0.
        simpl in wf_room0. lia. }
    assert (Htri1 : tricolor {[object]} s1).
    { intros o Ho Hg HP Hs. apply (Htri o Ho); [|set_solver|exact Hs].
      intros [Hin|Hin]; [|apply Hg; right; exact Hin].
      rewrite Hitems in Hin. apply elem_of_cons in Hin as [->|Hin]; [set_solver|].
      apply Hg. left. exact Hin. }
    assert (Hme1 : measure s = S (measure s1)).
    { unfold measure. simpl. rewrite Hitems. simpl. lia. }
    destruct (MarkObject_ok {[object]} (map_of L object) s1 Hwf1)
      as (Hwf2 & Hext2 & Hin2 & Htri2).
    { apply (map_in_heap HL). apply (wf_marked _ Hwf). exact Hobj. }
    { apply (map_not_symbol_table HL). }
    set (s2 := MarkObject L Push (map_of L object) s1) in *.
    destruct (IterateBody_ok (VisitPointers L Push (stack_headroom L))
                (VisitPointers_ok (stack_headroom L)) {[object]} object s2 Hwf2)
      as (Hwf3 & Hext3 & Hclosed & Htri3); auto.
    { set_solver. }
    { apply (ext_marked _ _ _ Hext2). exact Hobj. }
    fold (IterateBody L Push object s2) in *.
    set (s3 := IterateBody L Push object s2) in *.
    pose proof (ext_trans _ _ _ _ _ Hext2 Hext3) as Hext.
    destruct (IH s3 Hwf3) as (s' & Hrun & Hpost).
    + intros o Ho Hg HP Hs. apply Htri3; auto. set_solver.
    + intros Hf. rewrite (ext_overflow _ _ _ Hext Hf). apply Hov.
      assert (Hf1 : overflowed (marking_stack s1) = overflowed (marking_stack s))
        by reflexivity.
      destruct (overflowed (marking_stack s)); [|reflexivity].
      rewrite (ext_flag _ _ _ Hext Hf1) in Hf. discriminate.
    + pose proof (ext_measure _ _ _ Hext) as Hle.
      unfold fuel_needed in *.
      destruct (is_empty (marking_stack s3) && overflowed (marking_stack s3));
        destruct (is_empty (marking_stack s) && overflowed (marking_stack s)); lia.
    + exists s'. split; [exact Hrun|].
      destruct Hpost as (? & ? & ? & ? & ? & Hmk & Hroots & Hsym & Hms).
      pose proof (ext_marked _ _ _ Hext) as Hmk1.
      pose proof (ext_measure _ _ _ Hext) as Hle.
      split_and!; auto.
      * simpl in Hmk1. set_solver.
      * intros i. rewrite Hroots.
        apply (ext_slots _ _ _ Hext); [|exact I].
        intros [[]|[j Hj]]. discriminate.
      * intros Hs. apply (ext_symbol_table _ _ _ Hext). auto.
      * lia.
Qed.



End Invariants.

(** *** Two marking stacks *)

(** A stack that sets its flag at the push that fills it. *)
Definition Push_latching (object : Z) (k : MarkingStack) : MarkingStack :=
  {| items := object :: items k;
     limit := limit k;
     overflowed := overflowed k || (limit k <=? S (length (items k)))%nat |}.

Lemma Push_latching_stores : PushStores Push_latching.
Proof.
  intros obj k Hf Hroom. unfold Push_latching. simpl. split_and!; auto.
  rewrite Hf. simpl. intros Hle. apply Nat.leb_gt in Hle. exact Hle.
Qed.

(** A stack that sets its flag at the first push it has no room for, and
    drops the object of that push and of those that follow. *)
Definition Push_dropping (object : Z) (k : MarkingStack) : MarkingStack :=
  if (length (items k) <? limit k)%nat then
    {| items := object :: items k; limit := limit k; overflowed := overflowed k |}
  else
    {| items := items k; limit := limit k; overflowed := true |}.

(** *** A small heap *)

(** Slots given by a list of their contents; the others hold the small
    integer 0. *)
Fixpoint slots_from (l : list (Slot * Z)) (p : Slot) : Z :=
  match l with
  | [] => 0
  | (q, v) :: l' => if decide (p = q) then v else slots_from l' p
  end.

Lemma slots_from_holds (Q : Z -> Prop) l :
  Q 0 -> Forall (fun e => Q (snd e)) l -> forall p, Q (slots_from l p).
Proof.
  intros H0 Hl p. induction Hl as [|[q v] l Hv _ IH]; simpl; [exact H0|].
  destruct (decide (p = q)); [exact Hv|exact IH].
Qed.

(** Objects of 16 bytes.  The first page of old space holds the object
    0x101, whose fields are 0x111 and 0x121, and 0x131, the field of
    0x121; the second page holds the symbol table 0x2101, the empty string
    0x2111, the empty fixed array 0x2121 and null 0x2131.  Every object has
    the map 0x4101, which is its own map. *)
Definition example_layout : Layout := {|
  map_of := fun _ => 0x4101;
  instance_type := fun _ => 0xA0;
  object_size := fun _ => 16;
  body_ranges := fun obj => if decide (obj = 0x4101) then [] else [(0, 2)%nat];
  InNewSpace := fun _ => false;
  new_space_bottom := 0x8000;
  new_space_top := 0x8000;
  new_space_objects := [];
  old_space_pages :=
    [{| ObjectAreaStart := 0x100; AllocationTop := 0x140;
        page_objects := [0x101; 0x111; 0x121; 0x131] |};
     {| ObjectAreaStart := 0x2100; AllocationTop := 0x2140;
        page_objects := [0x2101; 0x2111; 0x2121; 0x2131] |}];
  code_space_pages := [];
  map_space_pages :=
    [{| ObjectAreaStart := 0x4100; AllocationTop := 0x4110;
        page_objects := [0x4101] |}];
  lo_space_objects := [];
  strong_roots := [(0, 1)%nat];
  weak_roots := [];
  symbol_table := 0x2101;
  symbol_table_prefix := [];
  symbol_table_elements := [(2, 1)%nat];
  empty_string := 0x2111;
  empty_fixed_array := 0x2121;
  null_value := 0x2131;
  FIRST_NONSTRING_TYPE := 0x80;
  kStringRepresentationMask := 0x3;
  kConsStringTag := 0x1;
  MAP_TYPE := 0xA1;
  kFirstIndex := 0;
  kSecondIndex := 1;
  kCodeCacheIndex := 2;
  FLAG_cleanup_caches_in_maps_at_gc := true;
  stack_headroom := 4
|}.

Definition example_slots : Slot -> Z :=
  slots_from [(RootSlot 0, 0x101);
              (FieldSlot 0x101 0, 0x111); (FieldSlot 0x101 1, 0x121);
              (FieldSlot 0x121 0, 0x131)].

(** The root object is marked and on a stack of two entries. *)
Definition example_gray : State := {|
  slots := example_slots;
  marked := {[0x101]};
  overflow := ∅;
  marking_stack := {| items := [0x101]; limit := 2; overflowed := false |};
  marked_count := 1
|}.

Ltac in_example_heap :=
  unfold heap_objects, all_objects, old_space_objects, code_space_objects,
    map_space_objects, objects_of; simpl; set_solver.

Lemma example_layout_ok : LayoutOk example_layout.
Proof.
  split; simpl; try discriminate; try in_example_heap.
Qed.

Lemma example_gray_wf : wf example_layout example_gray.
Proof.
  split; simpl.
  - in_example_heap.
  - apply (slots_from_holds
             (fun v => IsHeapObject v = true -> v ∈ heap_objects example_layout)).
    + discriminate.
    + repeat constructor; intros _; in_example_heap.
  - apply (slots_from_holds (fun v => v <> 0x2101)).
    + discriminate.
    + repeat constructor; discriminate.
  - intros obj _ H. vm_compute in H. discriminate.
  - intros obj Hobj. apply list_elem_of_singleton in Hobj. set_solver.
  - set_solver.
  - intros _. lia.
  - lia.
  - vm_compute. reflexivity.
Qed.

Lemma example_gray_tricolor : tricolor example_layout ∅ example_gray.
Proof.
  intros obj Hm Hg. exfalso. apply Hg. left. simpl in *. set_solver.
Qed.


Example example_overflows :
  option_map (fun s => (marked_objects example_layout s, marked_count s))
    (ProcessMarkingStack example_layout Push_latching 12 example_gray)
  = Some ([0x101; 0x111; 0x121; 0x131; 0x4101], 5).
Proof. vm_compute. reflexivity. Qed.

(** With the stack that drops the push it has no room for, the object
    0x121 of the example is marked and dropped: it is neither on the stack
    nor overflowed, its field is never visited, and 0x131 stays unmarked. *)
Lemma Push_dropping_loses_object :
  option_map (marked_objects example_layout)
    (ProcessMarkingStack example_layout Push_dropping 12 example_gray)
  = Some [0x101; 0x111; 0x121; 0x4101] /\
  reachable example_layout example_gray 0x101 0x131.
Proof.
  split; [vm_compute; reflexivity|].
  apply reachable_field with (r := (0, 2)%nat) (p := FieldSlot 0x101 1);
    [discriminate|set_solver|vm_compute; set_solver|reflexivity|].
  change (slots example_gray (FieldSlot 0x101 1)) with 0x121.
  apply reachable_field with (r := (0, 2)%nat) (p := FieldSlot 0x121 0);
    [discriminate|set_solver|vm_compute; set_solver|reflexivity|].
  apply reachable_refl.
Qed.

(** *** The bypass of cons strings *)

Section ConsBypass.

Variable L : Layout.
Variable Push : Z -> MarkingStack -> MarkingStack.

(** Marking an object that is not a map marks it and writes no slot. *)
Lemma MarkObject_not_map obj s :
  IsMap L obj = false ->
  slots (MarkObject L Push obj s) = slots s /\
  marked (MarkObject L Push obj s) = {[obj]} ∪ marked s.
Proof.
  intros Hmap. unfold MarkObject, IsMarked.
  destruct (bool_decide_reflect (obj ∈ marked s)) as [Hm|Hm].
  - split; [reflexivity|]. set_solver.
  - unfold MarkUnmarkedObject. rewrite Hmap, andb_false_r. simpl.
    destruct (overflowed (marking_stack s)); simpl; split; reflexivity.
Qed.


End ConsBypass.

(** The example heap with a cons string 0x111 in place of a plain object:
    its map 0x4111 has a cons string type, its first component is 0x121
    and its second the empty string. *)
Definition cons_layout : Layout := {|
  map_of := fun obj => if decide (obj = 0x111) then 0x4111 else 0x4101;
  instance_type := fun map => if decide (map = 0x4111) then 0x01 else 0xA0;
  object_size := object_size example_layout;
  body_ranges := body_ranges example_layout;
  InNewSpace := InNewSpace example_layout;
  new_space_bottom := new_space_bottom example_layout;
  new_space_top := new_space_top example_layout;
  new_space_objects := new_space_objects example_layout;
  old_space_pages := old_space_pages example_layout;
  code_space_pages := code_space_pages example_layout;
  map_space_pages :=
    [{| ObjectAreaStart := 0x4100; AllocationTop := 0x4120;
        page_objects := [0x4101; 0x4111] |}];
  lo_space_objects := lo_space_objects example_layout;
  strong_roots := strong_roots example_layout;
  weak_roots := weak_roots example_layout;
  symbol_table := symbol_table example_layout;
  symbol_table_prefix := symbol_table_prefix example_layout;
  symbol_table_elements := symbol_table_elements example_layout;
  empty_string := empty_string example_layout;
  empty_fixed_array := empty_fixed_array example_layout;
  null_value := null_value example_layout;
  FIRST_NONSTRING_TYPE := FIRST_NONSTRING_TYPE example_layout;
  kStringRepresentationMask := kStringRepresentationMask example_layout;
  kConsStringTag := kConsStringTag example_layout;
  MAP_TYPE := MAP_TYPE example_layout;
  kFirstIndex := kFirstIndex example_layout;
  kSecondIndex := kSecondIndex example_layout;
  kCodeCacheIndex := kCodeCacheIndex example_layout;
  FLAG_cleanup_caches_in_maps_at_gc := true;
  stack_headroom := stack_headroom example_layout
|}.

Definition cons_state : State := {|
  slots :=
    slots_from [(RootSlot 0, 0x111);
                (FieldSlot 0x111 0, 0x121); (FieldSlot 0x111 1, 0x2111)];
  marked := ∅;
  overflow := ∅;
  marking_stack := {| items := []; limit := 2; overflowed := false |};
  marked_count := 0
|}.


End Marking.

(** ** The collector (mark-compact.cc, lines 60-185 and 551-614, and
    phases 2 to 5) *)

Module Collector.

Import Marking.
Import Promotion.

(** [MarkCompactCollector::CollectorState], kept in debug builds. *)
Inductive CollectorState : Type :=
  | IDLE
  | PREPARE_GC
  | MARK_LIVE_OBJECTS
  | SWEEP_SPACES
  | ENCODE_FORWARDING_ADDRESSES
  | UPDATE_POINTERS
  | RELOCATE_OBJECTS
  | REBUILD_RSETS.

(** The phases of a collection, as [CollectGarbage] calls them. *)
Inductive Phase : Type :=
  | PhasePrepare
  | PhaseMarkLiveObjects
  | PhaseSweepLargeObjectSpace
  | PhaseEncodeForwardingAddresses
  | PhaseUpdatePointers
  | PhaseRelocateObjects
  | PhaseRebuildRSets
  | PhaseSweepSpaces
  | PhaseFinish.

(** What the phases after marking do to the objects, beyond mark bits:
    kept as a log, oldest event first. *)
Inductive Event : Type :=
  (** A forwarding address was computed ("forward %p -> %p"). *)
  | Forwarded (object new_address : Z)
  (** [Page::mc_first_forwarded] of the page of the object was set. *)
  | FirstForwarded (object new_address : Z)
  (** The map word of the object was set to the encoding of the address
      of its map and of the offset. *)
  | MapWordEncoded (object map_address offset : Z)
  | CodeDeleteEvent (a : Z)
  | CodeMoveEvent (object : Z)
  | RelocationInfoReset
  | RelocationInfoWritten (space : AllocationSpace)
  | RelocationInfoCommitted (space : AllocationSpace)
  | RootsUpdated
  | PointersUpdated (space : AllocationSpace) (object : Z)
  | Relocated (space : AllocationSpace) (object : Z)
  | ICTargetsConverted (object : Z)
  | Flipped
  | AgeMarkSet
  | RSetsRebuilt
  | StubCacheCleared
  | Freed (space : AllocationSpace) (start size : Z)
  | RSetRangeCleared (start size : Z)
  | Filler (object size : Z).

(** [Waste()], [AvailableFree()] and [Size()] of a paged space. *)
Record SpaceStats : Type := {
  Waste : Z;
  AvailableFree : Z;
  Size : Z
}.

(** The flags, and what the collector reads from the heap besides the
    [Layout]. *)
Record Settings : Type := {
  FLAG_always_compact : bool;
  FLAG_never_compact : bool;
  old_space : SpaceStats;
  code_space : SpaceStats;
  FromSpaceLow : Z;
  FromSpaceHigh : Z;
  ToSpaceOffsetForAddress : Z -> Z;
  IsCode : Z -> bool;
  (** objects.h: [Array::kHeaderSize], [Map::kSize], an instance type and
      a string tag. *)
  kArrayHeaderSize : Z;
  kMapSize : Z;
  HEAP_NUMBER_TYPE : Z;
  kSeqStringTag : Z
}.

Definition kFragmentationLimit : Z := 50.

(** The value [Prepare] computes for [compacting_collection_]; there is
    none when [old_gen_used] is zero, the division being undefined. *)
Definition Prepare_compacting (S : Settings) : option bool :=
  let compacting_collection := FLAG_always_compact S in
  match
    (if negb compacting_collection then
       let old_gen_recoverable :=
         int_add (int_add (int_add (Waste (old_space S))
                                   (AvailableFree (old_space S)))
                          (Waste (code_space S)))
                 (AvailableFree (code_space S)) in
       let old_gen_used :=
         int_add (int_add old_gen_recoverable (Size (old_space S)))
                 (Size (code_space S)) in
       match int_div (int_mul old_gen_recoverable 100) old_gen_used with
       | None => None
       | Some old_gen_fragmentation =>
           if old_gen_fragmentation >? kFragmentationLimit then Some true
           else Some compacting_collection
       end
     else Some compacting_collection)
  with
  | None => None
  | Some compacting_collection =>
      if FLAG_never_compact S then Some false else Some compacting_collection
  end.

Section Phases.

(** The state of the allocators of the spaces, and
    [space->MCAllocateRaw(size)]. *)
Context {Spaces : Type}.
Variable MCAllocateRaw : AllocationSpace -> Z -> Spaces -> Z * Spaces.

Variable L : Layout.
Variable cfg : Settings.
Variable Push : Z -> MarkingStack -> MarkingStack.

(** [LargeObjectSpace::FreeUnmarkedObjects] (spaces.cc). *)
Variable FreeUnmarkedObjects : State -> State.

(** The collector and the heap it works on.  [heap] holds the slots, the
    mark and overflow bits, the marking stack and the marked count of the
    tracer; [forwarded] is the set of the objects that have a forwarding
    address. *)
Record Collector : Type := {
  heap : State;
  object_groups : list (option (list Slot));
  compacting_collection_ : bool;
  state_ : CollectorState;
  previous_marked_count_ : Z;
  tracer_is_compacting : bool;
  forwarded : gset Z;
  memory : Memory.t;
  spaces : Spaces * list (AllocationSpace * Z);
  phases : list Phase;
  events : list Event
}.

Definition with_heap (f : State -> State) (c : Collector) : Collector :=
  {| heap := f (heap c); object_groups := object_groups c;
     compacting_collection_ := compacting_collection_ c; state_ := state_ c;
     previous_marked_count_ := previous_marked_count_ c;
     tracer_is_compacting := tracer_is_compacting c;
     forwarded := forwarded c; memory := memory c; spaces := spaces c;
     phases := phases c; events := events c |}.
Definition set_object_groups (g : list (option (list Slot))) (c : Collector) : Collector :=
  {| heap := heap c; object_groups := g;
     compacting_collection_ := compacting_collection_ c; state_ := state_ c;
     previous_marked_count_ := previous_marked_count_ c;
     tracer_is_compacting := tracer_is_compacting c;
     forwarded := forwarded c; memory := memory c; spaces := spaces c;
     phases := phases c; events := events c |}.
Definition set_compacting_collection (b : bool) (c : Collector) : Collector :=
  {| heap := heap c; object_groups := object_groups c;
     compacting_collection_ := b; state_ := state_ c;
     previous_marked_count_ := previous_marked_count_ c;
     tracer_is_compacting := tracer_is_compacting c;
     forwarded := forwarded c; memory := memory c; spaces := spaces c;
     phases := phases c; events := events c |}.
Definition set_state (st : CollectorState) (c : Collector) : Collector :=
  {| heap := heap c; object_groups := object_groups c;
     compacting_collection_ := compacting_collection_ c; state_ := st;
     previous_marked_count_ := previous_marked_count_ c;
     tracer_is_compacting := tracer_is_compacting c;
     forwarded := forwarded c; memory := memory c; spaces := spaces c;
     phases := phases c; events := events c |}.
Definition set_previous_marked_count (n : Z) (c : Collector) : Collector :=
  {| heap := heap c; object_groups := object_groups c;
     compacting_collection_ := compacting_collection_ c; state_ := state_ c;
     previous_marked_count_ := n;
     tracer_is_compacting := tracer_is_compacting c;
     forwarded := forwarded c; memory := memory c; spaces := spaces c;
     phases := phases c; events := events c |}.
Definition set_is_compacting (c : Collector) : Collector :=
  {| heap := heap c; object_groups := object_groups c;
     compacting_collection_ := compacting_collection_ c; state_ := state_ c;
     previous_marked_count_ := previous_marked_count_ c;
     tracer_is_compacting := true;
     forwarded := forwarded c; memory := memory c; spaces := spaces c;
     phases := phases c; events := events c |}.
Definition set_forwarded (f : gset Z) (c : Collector) : Collector :=
  {| heap := heap c; object_groups := object_groups c;
     compacting_collection_ := compacting_collection_ c; state_ := state_ c;
     previous_marked_count_ := previous_marked_count_ c;
     tracer_is_compacting := tracer_is_compacting c;
     forwarded := f; memory := memory c; spaces := spaces c;
     phases := phases c; events := events c |}.
Definition with_memory (f : Memory.t -> Memory.t) (c : Collector) : Collector :=
  {| heap := heap c; object_groups := object_groups c;
     compacting_collection_ := compacting_collection_ c; state_ := state_ c;
     previous_marked_count_ := previous_marked_count_ c;
     tracer_is_compacting := tracer_is_compacting c;
     forwarded := forwarded c; memory := f (memory c); spaces := spaces c;
     phases := phases c; events := events c |}.
Definition set_spaces (sp : Spaces * list (AllocationSpace * Z)) (c : Collector) : Collector :=
  {| heap := heap c; object_groups := object_groups c;
     compacting_collection_ := compacting_collection_ c; state_ := state_ c;
     previous_marked_count_ := previous_marked_count_ c;
     tracer_is_compacting := tracer_is_compacting c;
     forwarded := forwarded c; memory := memory c; spaces := sp;
     phases := phases c; events := events c |}.
Definition enter (ph : Phase) (c : Collector) : Collector :=
  {| heap := heap c; object_groups := object_groups c;
     compacting_collection_ := compacting_collection_ c; state_ := state_ c;
     previous_marked_count_ := previous_marked_count_ c;
     tracer_is_compacting := tracer_is_compacting c;
     forwarded := forwarded c; memory := memory c; spaces := spaces c;
     phases := phases c ++ [ph]; events := events c |}.
Definition log (e : Event) (c : Collector) : Collector :=
  {| heap := heap c; object_groups := object_groups c;
     compacting_collection_ := compacting_collection_ c; state_ := state_ c;
     previous_marked_count_ := previous_marked_count_ c;
     tracer_is_compacting := tracer_is_compacting c;
     forwarded := forwarded c; memory := memory c; spaces := spaces c;
     phases := phases c; events := events c ++ [e] |}.

(** A loop over a list that threads the collector. *)
Fixpoint iterate {A : Type} (f : A -> Collector -> Collector) (l : list A)
    (c : Collector) : Collector :=
  match l with
  | [] => c
  | x :: l' => iterate f l' (f x c)
  end.

Definition IsCompacting (c : Collector) : bool := compacting_collection_ c.

(** [Prepare()].  The calls of [PrepareForMarkCompact] on the spaces and
    the reset of the counters do not show in this state. *)
Definition Prepare (c : Collector) : option Collector :=
  let c := enter PhasePrepare c in
  let c := set_state PREPARE_GC c in
  match Prepare_compacting cfg with
  | None => None
  | Some compacting => Some (set_compacting_collection compacting c)
  end.

(** [Finish()]. *)
Definition Finish (c : Collector) : Collector :=
  let c := enter PhaseFinish c in
  let c := set_state IDLE c in
  log StubCacheCleared c.

(** *** Phase 1 *)

(** [MarkStrongRoots(marking_visitor)]. *)
Definition MarkStrongRoots (s : State) : State :=
  let s :=
    for_each (fun r => VisitPointers L Push (stack_headroom L) (root_slots r))
      (strong_roots L) s in
  let s :=
    for_each
      (fun r => VisitPointers L Push (stack_headroom L)
                  (field_slots (symbol_table L) r))
      (symbol_table_prefix L) s in
  let s := SetMark (symbol_table L) s in
  increment_marked_count s.

(** The body of the loop of [MarkObjectGroups] over the entries. *)
Fixpoint MarkObjectGroups_entries (entries : list (option (list Slot)))
    (s : State) : list (option (list Slot)) * State :=
  match entries with
  | [] => ([], s)
  | None :: rest =>
      let '(rest', s') := MarkObjectGroups_entries rest s in
      (None :: rest', s')
  | Some objects :: rest =>
      let group_marked :=
        existsb (fun p => IsHeapObject (slots s p) && IsMarked (slots s p) s)
          objects in
      if negb group_marked then
        let '(rest', s') := MarkObjectGroups_entries rest s in
        (Some objects :: rest', s')
      else
        let s :=
          for_each
            (fun p s =>
               if IsHeapObject (slots s p) then MarkObject L Push (slots s p) s
               else s)
            objects s in
        let '(rest', s') := MarkObjectGroups_entries rest s in
        (None :: rest', s')
  end.

Definition MarkObjectGroups (c : Collector) : Collector :=
  let '(groups, s) := MarkObjectGroups_entries (object_groups c) (heap c) in
  set_object_groups groups (with_heap (fun _ => s) c).

Definition ProcessMarkingStack_in (fuel : nat) (c : Collector) : option Collector :=
  match ProcessMarkingStack L Push fuel (heap c) with
  | None => None
  | Some s => Some (with_heap (fun _ => s) c)
  end.

(** [ProcessObjectGroups(marking_visitor)]: [turns] bounds the turns of
    its loop, [fuel] each run of [ProcessMarkingStack]. *)
Fixpoint ProcessObjectGroups (turns fuel : nat) (c : Collector) : option Collector :=
  match turns with
  | O => None
  | S turns' =>
      let c := MarkObjectGroups c in
      let work_to_do := negb (is_empty (marking_stack (heap c))) in
      match ProcessMarkingStack_in fuel c with
      | None => None
      | Some c =>
          if work_to_do then ProcessObjectGroups turns' fuel c else Some c
      end
  end.

(** [MustBeMarked(p)], the predicate handed to
    [GlobalHandles::MarkWeakRoots]. *)
Definition MustBeMarked (p : Slot) (s : State) : bool :=
  if negb (IsHeapObject (slots s p)) then false
  else negb (IsMarked (slots s p) s).

(** [SymbolTableCleaner::VisitPointers(start, end)]: the state and the
    number of pointers removed. *)
Fixpoint SymbolTableCleaner_VisitPointers (ps : list Slot) (removed : Z)
    (s : State) : Z * State :=
  match ps with
  | [] => (removed, s)
  | p :: ps' =>
      if IsHeapObject (slots s p) && negb (IsMarked (slots s p) s) then
        SymbolTableCleaner_VisitPointers ps' (int_add removed 1)
          (write p (null_value L) s)
      else SymbolTableCleaner_VisitPointers ps' removed s
  end.

(** [symbol_table->IterateElements(&v)]. *)
Fixpoint IterateElements (ranges : list (nat * nat)) (removed : Z) (s : State)
    : Z * State :=
  match ranges with
  | [] => (removed, s)
  | r :: ranges' =>
      let '(removed, s) :=
        SymbolTableCleaner_VisitPointers
          (field_slots (symbol_table L) r) removed s in
      IterateElements ranges' removed s
  end.

(** [MarkLiveObjects()].  [GlobalHandles::MarkWeakRoots] changes the
    state of handles only, and [ElementsRemoved] the symbol table's count
    of elements: they do not show in this state. *)
Definition MarkLiveObjects (fuel : nat) (c : Collector) : option Collector :=
  let c := enter PhaseMarkLiveObjects c in
  let c := set_state MARK_LIVE_OBJECTS c in
  let c :=
    with_heap (set_marking_stack (Initialize (FromSpaceLow cfg) (FromSpaceHigh cfg))) c in
  let c := with_heap MarkStrongRoots c in
  match ProcessMarkingStack_in fuel c with
  | None => None
  | Some c =>
  match ProcessObjectGroups fuel fuel c with
  | None => None
  | Some c =>
  let c :=
    with_heap
      (for_each (fun i => VisitPointer L Push (RootSlot i)) (weak_roots L)) c in
  match ProcessMarkingStack_in fuel c with
  | None => None
  | Some c =>
  match ProcessObjectGroups fuel fuel c with
  | None => None
  | Some c =>
  let c :=
    with_heap
      (fun s => snd (IterateElements (symbol_table_elements L) 0 s)) c in
  Some (set_object_groups [] c)
  end end end end.

(** [SweepLargeObjectSpace()]. *)
Definition SweepLargeObjectSpace (c : Collector) : Collector :=
  let c := enter PhaseSweepLargeObjectSpace c in
  let c :=
    set_state
      (if compacting_collection_ c then ENCODE_FORWARDING_ADDRESSES
       else SWEEP_SPACES) c in
  with_heap FreeUnmarkedObjects c.

(** *** Phase 2: forwarding addresses *)

Definition AllocationFunction : Type := Z -> Z -> Collector -> Z * Collector.
Definition EncodingFunction : Type := Z -> Z -> Z -> Z -> Collector -> Z * Collector.
Definition ProcessNonLiveFunction : Type := Z -> Collector -> Collector.

(** An allocation function of module [Promotion], on the spaces of the
    collector. *)
Definition on_spaces
    (f : Z -> Z -> Spaces * list (AllocationSpace * Z)
         -> Z * (Spaces * list (AllocationSpace * Z)))
    : AllocationFunction :=
  fun object object_size c =>
    let '(forwarded, sp) := f object object_size (spaces c) in
    (forwarded, set_spaces sp c).

Definition MCAllocateFromNewSpace : AllocationFunction :=
  on_spaces
    (Promotion.MCAllocateFromNewSpace MCAllocateRaw
       (fun object => instance_type L (map_of L object))
       (HEAP_NUMBER_TYPE cfg) (FIRST_NONSTRING_TYPE L)
       (kStringRepresentationMask L) (kSeqStringTag cfg)).
Definition MCAllocateFromOldSpace : AllocationFunction :=
  on_spaces (Promotion.MCAllocateFromOldSpace MCAllocateRaw).
Definition MCAllocateFromCodeSpace : AllocationFunction :=
  on_spaces (Promotion.MCAllocateFromCodeSpace MCAllocateRaw).
Definition MCAllocateFromMapSpace : AllocationFunction :=
  on_spaces (Promotion.MCAllocateFromMapSpace MCAllocateRaw).

(** [EncodeForwardingAddressInNewSpace]. *)
Definition EncodeForwardingAddressInNewSpace : EncodingFunction :=
  fun old_object object_size new_object ignored c =>
    let offset := ToSpaceOffsetForAddress cfg (address old_object) in
    let c :=
      with_memory
        (Memory.store (FromSpaceLow cfg + offset) (address new_object)) c in
    (ignored, set_forwarded ({[old_object]} ∪ forwarded c) c).

(** [EncodeForwardingAddressInPagedSpace]. *)
Definition EncodeForwardingAddressInPagedSpace : EncodingFunction :=
  fun old_object object_size new_object offset c =>
    let c :=
      if offset =? 0 then log (FirstForwarded old_object (address new_object)) c
      else c in
    let c :=
      log (MapWordEncoded old_object (address (map_of L old_object)) offset) c in
    let c := set_forwarded ({[old_object]} ∪ forwarded c) c in
    (int_add offset object_size, c).

Definition IgnoreNonLiveObject : ProcessNonLiveFunction := fun object c => c.

Definition LogNonLiveCodeObject : ProcessNonLiveFunction :=
  fun object c =>
    if IsCode cfg object then log (CodeDeleteEvent (address object)) c else c.

Section EncodeRange.

(** The parameters of the template. *)
Variable Alloc : AllocationFunction.
Variable Encode : EncodingFunction.
Variable ProcessNonLive : ProcessNonLiveFunction.

(** The loop of [EncodeForwardingAddressesInRange] over the objects of
    the range, in address order: [current] is the address of the object
    at hand. *)
Fixpoint EncodeForwardingAddressesInRange_loop (objects : list Z)
    (free_start : Z) (is_prev_alive : bool) (offset : Z) (c : Collector)
    : Z * bool * Z * Collector :=
  match objects with
  | [] => (free_start, is_prev_alive, offset, c)
  | object :: rest =>
      let current := address object in
      if IsMarked object (heap c) then
        let c := with_heap (ClearMark object) c in
        let c := with_heap decrement_marked_count c in
        let object_size := object_size L object in
        let '(forwarded, c) := Alloc object object_size c in
        let '(offset, c) := Encode object object_size forwarded offset c in
        let c := log (Forwarded object (address forwarded)) c in
        let c :=
          if negb is_prev_alive then
            with_memory
              (FreeRegion.EncodeFreeRegion free_start (int_sub current free_start)) c
          else c in
        EncodeForwardingAddressesInRange_loop rest free_start true offset c
      else
        let c := ProcessNonLive object c in
        if is_prev_alive then
          EncodeForwardingAddressesInRange_loop rest current false offset c
        else
          EncodeForwardingAddressesInRange_loop rest free_start false offset c
  end.

(** [EncodeForwardingAddressesInRange(start, end, offset)]: the range
    holds [objects] and ends at [end_]. *)
Definition EncodeForwardingAddressesInRange (objects : list Z) (end_ : Z)
    (offset : Z) (c : Collector) : Z * Collector :=
  let '(free_start, is_prev_alive, offset, c) :=
    EncodeForwardingAddressesInRange_loop objects 0 true offset c in
  let c :=
    if negb is_prev_alive then
      with_memory
        (FreeRegion.EncodeFreeRegion free_start (int_sub end_ free_start)) c
    else c in
  (offset, c).

End EncodeRange.

Definition EncodeForwardingAddressesInNewSpace (c : Collector) : Collector :=
  snd (EncodeForwardingAddressesInRange MCAllocateFromNewSpace
         EncodeForwardingAddressInNewSpace IgnoreNonLiveObject
         (new_space_objects L) (new_space_top L) 0 c).

Definition EncodeForwardingAddressesInPagedSpace
    (Alloc : AllocationFunction) (ProcessNonLive : ProcessNonLiveFunction)
    (pages : list Page) (c : Collector) : Collector :=
  iterate
    (fun p c =>
       snd (EncodeForwardingAddressesInRange Alloc
              EncodeForwardingAddressInPagedSpace ProcessNonLive
              (page_objects p) (AllocationTop p) 0 c))
    pages c.

(** [EncodeForwardingAddresses()]. *)
Definition EncodeForwardingAddresses (c : Collector) : Collector :=
  let c := enter PhaseEncodeForwardingAddresses c in
  let c := log RelocationInfoReset c in
  let c :=
    EncodeForwardingAddressesInPagedSpace MCAllocateFromOldSpace
      IgnoreNonLiveObject (old_space_pages L) c in
  let c :=
    EncodeForwardingAddressesInPagedSpace MCAllocateFromCodeSpace
      LogNonLiveCodeObject (code_space_pages L) c in
  let c := EncodeForwardingAddressesInNewSpace c in
  let c :=
    EncodeForwardingAddressesInPagedSpace MCAllocateFromMapSpace
      IgnoreNonLiveObject (map_space_pages L) c in
  let c := log (RelocationInfoWritten OLD_SPACE) c in
  let c := log (RelocationInfoWritten CODE_SPACE) c in
  log (RelocationInfoWritten MAP_SPACE) c.

(** *** The sweep of a collection that does not compact *)

Definition DeallocateFunction : Type := Z -> Z -> Collector -> Collector.

(** [SweepSpace] of the new space. *)
Definition SweepNewSpace (c : Collector) : Collector :=
  iterate
    (fun object c =>
       if IsMarked object (heap c) then
         let c := with_heap (ClearMark object) c in
         with_heap decrement_marked_count c
       else
         log (Filler object (object_size L object)) c)
    (new_space_objects L) c.

(** The loop of [SweepSpace] of a paged space, with its [dealloc], over
    the objects of a page. *)
Fixpoint SweepPage_loop (dealloc : DeallocateFunction) (objects : list Z)
    (free_start : Z) (is_previous_alive : bool) (c : Collector)
    : Z * bool * Collector :=
  match objects with
  | [] => (free_start, is_previous_alive, c)
  | object :: rest =>
      let current := address object in
      if IsMarked object (heap c) then
        let c := with_heap (ClearMark object) c in
        let c := with_heap decrement_marked_count c in
        let c :=
          if IsCompacting c && IsCode cfg object
          then log (ICTargetsConverted object) c else c in
        let c :=
          if negb is_previous_alive
          then dealloc free_start (int_sub current free_start) c else c in
        SweepPage_loop dealloc rest free_start true c
      else
        let c :=
          if IsCode cfg object then log (CodeDeleteEvent (address object)) c
          else c in
        if is_previous_alive then SweepPage_loop dealloc rest current false c
        else SweepPage_loop dealloc rest free_start false c
  end.

Definition SweepPagedSpace (dealloc : DeallocateFunction) (pages : list Page)
    (c : Collector) : Collector :=
  iterate
    (fun p c =>
       let '(free_start, is_previous_alive, c) :=
         SweepPage_loop dealloc (page_objects p) 0 true c in
       if negb is_previous_alive then
         let free_size := int_sub (AllocationTop p) free_start in
         if free_size >? 0 then dealloc free_start free_size c else c
       else c)
    pages c.

Definition DeallocateOldBlock : DeallocateFunction :=
  fun start size_in_bytes c =>
    let c := log (RSetRangeCleared start size_in_bytes) c in
    log (Freed OLD_SPACE start size_in_bytes) c.

Definition DeallocateCodeBlock : DeallocateFunction :=
  fun start size_in_bytes c => log (Freed CODE_SPACE start size_in_bytes) c.

(** [DeallocateMapBlock]: the block is freed in chunks of [Map::kSize],
    a positive constant. *)
Definition DeallocateMapBlock : DeallocateFunction :=
  fun start size_in_bytes c =>
    let c := log (RSetRangeCleared start size_in_bytes) c in
    let chunks :=
      Z.to_nat ((size_in_bytes + kMapSize cfg - 1) / kMapSize cfg) in
    iterate
      (fun i c =>
         log (Freed MAP_SPACE (start + Z.of_nat i * kMapSize cfg) (kMapSize cfg)) c)
      (seq 0 chunks) c.

(** [SweepSpaces()]. *)
Definition SweepSpaces (c : Collector) : Collector :=
  let c := enter PhaseSweepSpaces c in
  let c := SweepPagedSpace DeallocateOldBlock (old_space_pages L) c in
  let c := SweepPagedSpace DeallocateCodeBlock (code_space_pages L) c in
  let c := SweepNewSpace c in
  SweepPagedSpace DeallocateMapBlock (map_space_pages L) c.

(** *** Phases 3 to 5 *)

(** [IterateLiveObjects(space, size_f)]: the walk skips the free regions
    that phase 2 encoded, so [size_f] is called on the objects that have a
    forwarding address. *)
Definition IterateLiveObjects (objects : list Z)
    (size_f : Z -> Collector -> Collector) (c : Collector) : Collector :=
  iterate
    (fun object c => if decide (object ∈ forwarded c) then size_f object c else c)
    objects c.

Definition UpdatePointersInOldObject (space : AllocationSpace) (obj : Z)
    (c : Collector) : Collector :=
  log (PointersUpdated space obj) c.

Definition UpdatePointersInNewObject (space : AllocationSpace) (obj : Z)
    (c : Collector) : Collector :=
  log (PointersUpdated space obj) c.

(** [UpdatePointers()]: the slots are rewritten by [UpdatePointer]
    (module [Forwarding]); here is the order of the visits. *)
Definition UpdatePointers (c : Collector) : Collector :=
  let c := enter PhaseUpdatePointers c in
  let c := set_state UPDATE_POINTERS c in
  let c := log RootsUpdated c in
  let c :=
    IterateLiveObjects (map_space_objects L) (UpdatePointersInOldObject MAP_SPACE) c in
  let c :=
    IterateLiveObjects (old_space_objects L) (UpdatePointersInOldObject OLD_SPACE) c in
  let c :=
    IterateLiveObjects (code_space_objects L) (UpdatePointersInOldObject CODE_SPACE) c in
  let c :=
    IterateLiveObjects (new_space_objects L) (UpdatePointersInNewObject NEW_SPACE) c in
  iterate (UpdatePointersInNewObject LO_SPACE) (lo_space_objects L) c.

Definition RelocateMapObject (obj : Z) (c : Collector) : Collector :=
  log (Relocated MAP_SPACE obj) c.

Definition RelocateOldObject (obj : Z) (c : Collector) : Collector :=
  let c := log (Relocated OLD_SPACE obj) c in
  if IsCode cfg obj then log (CodeMoveEvent obj) c else c.

Definition RelocateCodeObject (obj : Z) (c : Collector) : Collector :=
  let c := if IsCode cfg obj then log (ICTargetsConverted obj) c else c in
  let c := log (Relocated CODE_SPACE obj) c in
  if IsCode cfg obj then log (CodeMoveEvent obj) c else c.

Definition RelocateNewObject (obj : Z) (c : Collector) : Collector :=
  log (Relocated NEW_SPACE obj) c.

Definition ConvertCodeICTargetToAddress (obj : Z) (c : Collector) : Collector :=
  if IsCode cfg obj then log (ICTargetsConverted obj) c else c.

(** [RelocateObjects()]: the bytes moved are not part of this state;
    here is the order of the moves. *)
Definition RelocateObjects (c : Collector) : Collector :=
  let c := enter PhaseRelocateObjects c in
  let c := set_state RELOCATE_OBJECTS c in
  let c := IterateLiveObjects (map_space_objects L) RelocateMapObject c in
  let c := IterateLiveObjects (old_space_objects L) RelocateOldObject c in
  let c := IterateLiveObjects (code_space_objects L) RelocateCodeObject c in
  let c := IterateLiveObjects (new_space_objects L) RelocateNewObject c in
  let c := iterate ConvertCodeICTargetToAddress (lo_space_objects L) c in
  let c := log Flipped c in
  let c := log AgeMarkSet c in
  let c := log (RelocationInfoCommitted NEW_SPACE) c in
  let c := log (RelocationInfoCommitted MAP_SPACE) c in
  let c := log (RelocationInfoCommitted OLD_SPACE) c in
  log (RelocationInfoCommitted CODE_SPACE) c.

(** [RebuildRSets()]. *)
Definition RebuildRSets (c : Collector) : Collector :=
  let c := enter PhaseRebuildRSets c in
  let c := set_state REBUILD_RSETS c in
  log RSetsRebuilt c.

(** [CollectGarbage(tracer)]: the marked count of the tracer is the one
    of [heap]. *)
Definition CollectGarbage (fuel : nat) (c : Collector) : option Collector :=
  match Prepare c with
  | None => None
  | Some c =>
  let c := if IsCompacting c then set_is_compacting c else c in
  match MarkLiveObjects fuel c with
  | None => None
  | Some c =>
  let c := SweepLargeObjectSpace c in
  let c :=
    if compacting_collection_ c then
      let c := EncodeForwardingAddresses c in
      let c := UpdatePointers c in
      let c := RelocateObjects c in
      RebuildRSets c
    else
      SweepSpaces c in
  let c := Finish c in
  Some (set_previous_marked_count (marked_count (heap c)) c)
  end end.

End Phases.

(** *** The decision of [Prepare] *)

(** [old_gen_recoverable] and [old_gen_used] as numbers. *)
Definition recoverable (cfg : Settings) : Z :=
  Waste (old_space cfg) + AvailableFree (old_space cfg)
  + Waste (code_space cfg) + AvailableFree (code_space cfg).
Definition used (cfg : Settings) : Z :=
  recoverable cfg + Size (old_space cfg) + Size (code_space cfg).

(** As long as a hundred times the recoverable bytes fit in an [int],
    [Prepare] compacts exactly when [never_compact] is unset and
    [always_compact] is set or the fragmentation, in whole percent, is
    above 50. *)
Lemma Prepare_compacting_without_overflow (cfg : Settings) :
  0 <= Waste (old_space cfg) -> 0 <= AvailableFree (old_space cfg) ->
  0 <= Waste (code_space cfg) -> 0 <= AvailableFree (code_space cfg) ->
  0 <= Size (old_space cfg) -> 0 <= Size (code_space cfg) ->
  recoverable cfg * 100 <= INT_MAX -> 0 < used cfg <= INT_MAX ->
  Prepare_compacting cfg =
  Some (negb (FLAG_never_compact cfg)
        && (FLAG_always_compact cfg
            || (50 <? recoverable cfg * 100 / used cfg))).
Proof.
  intros Hw1 Ha1 Hw2 Ha2 Hs1 Hs2 Hrec Hused.
  unfold Prepare_compacting.
  destruct (FLAG_always_compact cfg); cbn [negb orb].
  { destruct (FLAG_never_compact cfg); reflexivity. }
  unfold used, recoverable, INT_MAX in *.
  assert (Hi : forall x, 0 <= x <= 2 ^ 31 - 1 -> wrap_int x = x).
  { intros x Hx. apply wrap_int_small. unfold INT_MIN, INT_MAX. lia. }
  unfold int_add, int_mul, int_div.
  rewrite (Hi (Waste (old_space cfg) + AvailableFree (old_space cfg))) by lia.
  rewrite (Hi (Waste (old_space cfg) + AvailableFree (old_space cfg)
               + Waste (code_space cfg))) by lia.
  rewrite (Hi (Waste (old_space cfg) + AvailableFree (old_space cfg)
               + Waste (code_space cfg) + AvailableFree (code_space cfg))) by lia.
  rewrite (Hi (_ + Size (old_space cfg))) by lia.
  rewrite (Hi (_ + Size (old_space cfg) + Size (code_space cfg))) by lia.
  rewrite (Hi (_ * 100)) by lia.
  destruct (Z.eqb_spec
              (Waste (old_space cfg) + AvailableFree (old_space cfg)
               + Waste (code_space cfg) + AvailableFree (code_space cfg)
               + Size (old_space cfg) + Size (code_space cfg)) 0) as [H0|_];
    [lia|].
  rewrite Z.quot_div_nonneg by lia.
  rewrite Hi.
  - unfold kFragmentationLimit. rewrite Z.gtb_ltb.
    destruct (50 <? _); destruct (FLAG_never_compact cfg); reflexivity.
  - split; [apply Z.div_pos; lia|].
    apply Z.le_trans with
      ((Waste (old_space cfg) + AvailableFree (old_space cfg)
        + Waste (code_space cfg) + AvailableFree (code_space cfg)) * 100);
      [|lia].
    apply Z.div_le_upper_bound; [lia|]. nia.
Qed.

(** An old space with 30,000,000 bytes on its free list and 10,000,000
    bytes of objects, and an empty code space. *)
Definition fragmented_settings : Settings := {|
  FLAG_always_compact := false;
  FLAG_never_compact := false;
  old_space := {| Waste := 0; AvailableFree := 30000000; Size := 10000000 |};
  code_space := {| Waste := 0; AvailableFree := 0; Size := 0 |};
  FromSpaceLow := 0x9000;
  FromSpaceHigh := 0x9008;
  ToSpaceOffsetForAddress := fun a => a - 0x8000;
  IsCode := fun _ => false;
  kArrayHeaderSize := 8;
  kMapSize := 16;
  HEAP_NUMBER_TYPE := 0x90;
  kSeqStringTag := 0
|}.

(** C6. With 30,000,000 recoverable bytes out of 40,000,000, a
    fragmentation of 75 percent, and neither flag set, [Prepare] does not
    compact: [old_gen_recoverable * 100] does not fit in an [int], and the
    fragmentation it computes is negative. *)
Theorem Prepare_fragmentation_overflows :
  recoverable fragmented_settings * 100 / used fragmented_settings = 75 /\
  int_mul (recoverable fragmented_settings) 100 = -1294967296 /\
  Prepare_compacting fragmented_settings = Some false.
Proof. vm_compute. auto. Qed.

(** *** The order of the phases *)

Section Control.

Context {Spaces : Type}.
Variable MCAllocateRaw : AllocationSpace -> Z -> Spaces -> Z * Spaces.
Variable L : Layout.
Variable cfg : Settings.
Variable Push : Z -> MarkingStack -> MarkingStack.
Variable FreeUnmarkedObjects : State -> State.

(** What decides the path of [CollectGarbage], and the log of it. *)
Definition control (c : @Collector Spaces) : list Phase * bool :=
  (phases c, compacting_collection_ c).

Definition keeps_control (f : @Collector Spaces -> @Collector Spaces) : Prop :=
  forall c, control (f c) = control c.

Lemma control_log e c : control (log e c) = control c.
Proof. reflexivity. Qed.

Lemma iterate_control {A : Type} (f : A -> @Collector Spaces -> @Collector Spaces) l :
  (forall x, keeps_control (f x)) -> keeps_control (iterate f l).
Proof.
  intros Hf. induction l as [|x l IH]; intros c; simpl; [reflexivity|].
  rewrite IH. apply Hf.
Qed.

Lemma MarkObjectGroups_control : keeps_control (MarkObjectGroups L Push).
Proof.
  intros c. unfold MarkObjectGroups.
  destruct (MarkObjectGroups_entries L Push (object_groups c) (heap c)).
  reflexivity.
Qed.

Lemma ProcessMarkingStack_in_control fuel (c c' : @Collector Spaces) :
  ProcessMarkingStack_in L Push fuel c = Some c' -> control c' = control c.
Proof.
  unfold ProcessMarkingStack_in.
  destruct (ProcessMarkingStack L Push fuel (heap c)); [|discriminate].
  intros [= <-]. reflexivity.
Qed.

Lemma ProcessObjectGroups_control turns fuel :
  forall c c' : @Collector Spaces,
    ProcessObjectGroups L Push turns fuel c = Some c' -> control c' = control c.
Proof.
  induction turns as [|turns IH]; intros c c' Hrun; [discriminate|].
  simpl in Hrun.
  destruct (ProcessMarkingStack_in L Push fuel (MarkObjectGroups L Push c))
    as [c1|] eqn:Hpms; [|discriminate].
  apply ProcessMarkingStack_in_control in Hpms.
  rewrite MarkObjectGroups_control in Hpms.
  destruct (negb (is_empty _)).
  - apply IH in Hrun. congruence.
  - injection Hrun as <-. exact Hpms.
Qed.

Lemma MarkLiveObjects_control fuel (c c' : @Collector Spaces) :
  MarkLiveObjects L cfg Push fuel c = Some c' ->
  control c' = (phases c ++ [PhaseMarkLiveObjects], compacting_collection_ c).
Proof.
  unfold MarkLiveObjects. intros Hrun.
  repeat match type of Hrun with
  | match ?x with Some _ => _ | None => _ end = Some _ =>
      let H := fresh "H" in
      destruct x eqn:H; [|discriminate];
      first [apply ProcessMarkingStack_in_control in H
            |apply ProcessObjectGroups_control in H]
  end.
  injection Hrun as <-.
  change (control (set_object_groups [] (with_heap
            (fun s => snd (IterateElements L (symbol_table_elements L) 0 s)) c3)))
    with (control c3).
  change (control (with_heap
            (for_each (fun i => VisitPointer L Push (RootSlot i)) (weak_roots L)) c1))
    with (control c1) in H1.
  rewrite H2, H1, H0, H. reflexivity.
Qed.

Section RangeControl.

Variable Alloc : @AllocationFunction Spaces.
Variable Encode : @EncodingFunction Spaces.
Variable ProcessNonLive : @ProcessNonLiveFunction Spaces.
Hypothesis Alloc_control : forall o z c, control (snd (Alloc o z c)) = control c.
Hypothesis Encode_control : forall o z n k c, control (snd (Encode o z n k c)) = control c.
Hypothesis ProcessNonLive_control : forall o, keeps_control (ProcessNonLive o).

Lemma EncodeForwardingAddressesInRange_loop_control objects :
  forall free_start alive offset c,
    control (snd (EncodeForwardingAddressesInRange_loop L Alloc Encode
                    ProcessNonLive objects free_start alive offset c))
    = control c.
Proof.
  induction objects as [|object rest IH]; intros free_start alive offset c;
    simpl; [reflexivity|].
  destruct (IsMarked object (heap c)).
  - destruct (Alloc object _ _) as [forwarded c1] eqn:HA.
    destruct (Encode object _ forwarded offset c1) as [offset' c2] eqn:HE.
    rewrite IH.
    pose proof (Alloc_control object (object_size L object)
                  (with_heap decrement_marked_count (with_heap (ClearMark object) c)))
      as H1.
    rewrite HA in H1.
    pose proof (Encode_control object (object_size L object) forwarded offset c1)
      as H2.
    rewrite HE in H2. simpl in H1, H2.
    destruct (negb alive); simpl; unfold control in *; simpl in *; congruence.
  - destruct alive; rewrite IH; apply ProcessNonLive_control.
Qed.

Lemma EncodeForwardingAddressesInRange_control objects end_ offset c :
  control (snd (EncodeForwardingAddressesInRange L Alloc Encode ProcessNonLive
                  objects end_ offset c))
  = control c.
Proof.
  unfold EncodeForwardingAddressesInRange.
  pose proof (EncodeForwardingAddressesInRange_loop_control objects 0 true offset c)
    as H.
  destruct (EncodeForwardingAddressesInRange_loop _ _ _ _ _ _ _ _ _)
    as [[[free_start alive] offset'] c1].
  simpl in *. destruct (negb alive); exact H.
Qed.

End RangeControl.

Lemma on_spaces_control f o z c :
  control (snd (@on_spaces Spaces f o z c)) = control c.
Proof. unfold on_spaces. destruct (f o z (spaces c)). reflexivity. Qed.

Lemma EncodeForwardingAddressInPagedSpace_control o z n k c :
  control (snd (@EncodeForwardingAddressInPagedSpace Spaces L o z n k c)) = control c.
Proof.
  unfold EncodeForwardingAddressInPagedSpace. destruct (k =? 0); reflexivity.
Qed.

Lemma LogNonLiveCodeObject_control o :
  keeps_control (@LogNonLiveCodeObject Spaces cfg o).
Proof. intros c. unfold LogNonLiveCodeObject. destruct (IsCode cfg o); reflexivity. Qed.

Lemma EncodeForwardingAddressesInPagedSpace_control Alloc ProcessNonLive pages :
  (forall o z c, control (snd (Alloc o z c)) = control c) ->
  (forall o, keeps_control (ProcessNonLive o)) ->
  keeps_control
    (@EncodeForwardingAddressesInPagedSpace Spaces L Alloc ProcessNonLive pages).
Proof.
  intros HA HP. unfold EncodeForwardingAddressesInPagedSpace.
  apply iterate_control. intros p c.
  apply EncodeForwardingAddressesInRange_control; auto.
  apply EncodeForwardingAddressInPagedSpace_control.
Qed.

Lemma EncodeForwardingAddresses_control c :
  control (EncodeForwardingAddresses MCAllocateRaw L cfg c)
  = (phases c ++ [PhaseEncodeForwardingAddresses], compacting_collection_ c).
Proof.
  unfold EncodeForwardingAddresses.
  rewrite !control_log.
  rewrite EncodeForwardingAddressesInPagedSpace_control;
    [|intros; apply on_spaces_control|intros o c'; reflexivity].
  unfold EncodeForwardingAddressesInNewSpace.
  rewrite EncodeForwardingAddressesInRange_control;
    [|intros; apply on_spaces_control|intros; reflexivity|intros o c'; reflexivity].
  rewrite EncodeForwardingAddressesInPagedSpace_control;
    [|intros; apply on_spaces_control|apply LogNonLiveCodeObject_control].
  rewrite EncodeForwardingAddressesInPagedSpace_control;
    [|intros; apply on_spaces_control|intros o c'; reflexivity].
  reflexivity.
Qed.

Lemma IterateLiveObjects_control objects size_f :
  (forall o, keeps_control (size_f o)) ->
  keeps_control (@IterateLiveObjects Spaces objects size_f).
Proof.
  intros Hf. unfold IterateLiveObjects. apply iterate_control.
  intros o c. destruct (decide _); [apply Hf|reflexivity].
Qed.

Lemma UpdatePointers_control c :
  control (@UpdatePointers Spaces L c)
  = (phases c ++ [PhaseUpdatePointers], compacting_collection_ c).
Proof.
  unfold UpdatePointers.
  rewrite iterate_control by (intros o c'; reflexivity).
  rewrite !IterateLiveObjects_control by (intros o c'; reflexivity).
  reflexivity.
Qed.

Lemma RelocateObjects_control c :
  control (@RelocateObjects Spaces L cfg c)
  = (phases c ++ [PhaseRelocateObjects], compacting_collection_ c).
Proof.
  unfold RelocateObjects.
  rewrite !control_log.
  rewrite iterate_control.
  2:{ intros o c'. unfold ConvertCodeICTargetToAddress.
      destruct (IsCode cfg o); reflexivity. }
  rewrite !IterateLiveObjects_control; [reflexivity|..];
    intros o c'; unfold RelocateCodeObject, RelocateOldObject;
    destruct (IsCode cfg o); reflexivity.
Qed.

Lemma SweepPage_loop_control dealloc objects :
  (forall a z, keeps_control (dealloc a z)) ->
  forall free_start alive c,
    control (snd (@SweepPage_loop Spaces cfg dealloc objects free_start alive c))
    = control c.
Proof.
  intros Hd. induction objects as [|object rest IH]; intros free_start alive c;
    simpl; [reflexivity|].
  destruct (IsMarked object (heap c)).
  - rewrite IH.
    destruct (negb alive); [rewrite Hd|];
      destruct (_ && IsCode cfg object); reflexivity.
  - destruct alive; rewrite IH; destruct (IsCode cfg object); reflexivity.
Qed.

Lemma SweepPagedSpace_control dealloc pages :
  (forall a z, keeps_control (dealloc a z)) ->
  keeps_control (@SweepPagedSpace Spaces cfg dealloc pages).
Proof.
  intros Hd. unfold SweepPagedSpace. apply iterate_control. intros p c.
  pose proof (SweepPage_loop_control dealloc (page_objects p) Hd 0 true c) as H.
  destruct (SweepPage_loop _ _ _ _ _ _) as [[free_start alive] c1].
  simpl in H. destruct (negb alive); [|exact H].
  destruct (_ >? 0); [rewrite Hd|]; exact H.
Qed.

Lemma SweepSpaces_control c :
  control (@SweepSpaces Spaces L cfg c)
  = (phases c ++ [PhaseSweepSpaces], compacting_collection_ c).
Proof.
  unfold SweepSpaces.
  rewrite SweepPagedSpace_control.
  2:{ intros a z c'. unfold DeallocateMapBlock.
      rewrite iterate_control by (intros i c''; reflexivity). reflexivity. }
  unfold SweepNewSpace. rewrite iterate_control.
  2:{ intros o c'. destruct (IsMarked o (heap c')); reflexivity. }
  rewrite !SweepPagedSpace_control by (intros a z c'; reflexivity).
  reflexivity.
Qed.

(** The phases of a collection, by the decision of [Prepare]. *)
Definition phases_of (compacting : bool) : list Phase :=
  [PhasePrepare; PhaseMarkLiveObjects; PhaseSweepLargeObjectSpace]
  ++ (if compacting
      then [PhaseEncodeForwardingAddresses; PhaseUpdatePointers;
            PhaseRelocateObjects; PhaseRebuildRSets]
      else [PhaseSweepSpaces])
  ++ [PhaseFinish].

Lemma CollectGarbage_phases fuel (c c' : @Collector Spaces) :
  CollectGarbage MCAllocateRaw L cfg Push FreeUnmarkedObjects fuel c = Some c' ->
  exists compacting,
    Prepare_compacting cfg = Some compacting /\
    compacting_collection_ c' = compacting /\
    phases c' = phases c ++ phases_of compacting.
Proof.
  unfold CollectGarbage, Prepare. intros Hrun.
  destruct (Prepare_compacting cfg) as [compacting|]; [|discriminate].
  exists compacting. split; [reflexivity|].
  match type of Hrun with
  | match MarkLiveObjects _ _ _ _ ?c0 with _ => _ end = _ =>
      destruct (MarkLiveObjects L cfg Push fuel c0) as [c1|] eqn:Hmark;
        [|discriminate];
      apply MarkLiveObjects_control in Hmark;
      assert (Hp0 : phases c0 = phases c ++ [PhasePrepare])
        by (unfold IsCompacting; simpl; destruct compacting; reflexivity);
      assert (Hc0 : compacting_collection_ c0 = compacting)
        by (unfold IsCompacting; simpl; destruct compacting; reflexivity);
      rewrite Hp0, Hc0 in Hmark
  end.
  injection Hrun as <-. simpl in Hmark.
  injection Hmark as Hph Hcomp.
  cbn [compacting_collection_ SweepLargeObjectSpace with_heap set_state enter].
  rewrite Hcomp.
  destruct compacting.
  - pose proof (EncodeForwardingAddresses_control
                  (SweepLargeObjectSpace FreeUnmarkedObjects c1)) as H1.
    pose proof (UpdatePointers_control
                  (EncodeForwardingAddresses MCAllocateRaw L cfg
                     (SweepLargeObjectSpace FreeUnmarkedObjects c1))) as H2.
    pose proof (RelocateObjects_control
                  (UpdatePointers L
                     (EncodeForwardingAddresses MCAllocateRaw L cfg
                        (SweepLargeObjectSpace FreeUnmarkedObjects c1)))) as H3.
    unfold control in *. simpl in *.
    injection H1 as H1p H1c. injection H2 as H2p H2c. injection H3 as H3p H3c.
    split.
    + unfold SweepLargeObjectSpace in *. simpl in *. congruence.
    + unfold SweepLargeObjectSpace in *. simpl in *.
      rewrite H3p, H2p, H1p, Hph. simpl. rewrite <- !app_assoc. reflexivity.
  - pose proof (SweepSpaces_control
                  (SweepLargeObjectSpace FreeUnmarkedObjects c1)) as H1.
    unfold control in *. simpl in *. injection H1 as H1p H1c.
    split.
    + unfold SweepLargeObjectSpace in *. simpl in *. congruence.
    + unfold SweepLargeObjectSpace in *. simpl in *.
      rewrite H1p, Hph. simpl. rewrite <- !app_assoc. reflexivity.
Qed.

End Control.

(** *** More fuel gives the same result *)

Section Fuel.

Context {Spaces : Type}.
Variable MCAllocateRaw : AllocationSpace -> Z -> Spaces -> Z * Spaces.
Variable L : Layout.
Variable cfg : Settings.
Variable Push : Z -> MarkingStack -> MarkingStack.
Variable FreeUnmarkedObjects : State -> State.

Lemma ProcessMarkingStack_fuel fuel :
  forall fuel' s s',
    ProcessMarkingStack L Push fuel s = Some s' -> (fuel <= fuel')%nat ->
    ProcessMarkingStack L Push fuel' s = Some s'.
Proof.
  induction fuel as [|fuel IH]; intros fuel' s s' Hrun Hle; [discriminate|].
  destruct fuel' as [|fuel']; [lia|].
  simpl in *. destruct (Pop (marking_stack s)) as [[object stack]|].
  - apply IH; [exact Hrun|lia].
  - destruct (negb (overflowed (marking_stack s))); [exact Hrun|].
    apply IH; [exact Hrun|lia].
Qed.

Lemma ProcessMarkingStack_in_fuel fuel fuel' (c c' : @Collector Spaces) :
  ProcessMarkingStack_in L Push fuel c = Some c' -> (fuel <= fuel')%nat ->
  ProcessMarkingStack_in L Push fuel' c = Some c'.
Proof.
  unfold ProcessMarkingStack_in. intros Hrun Hle.
  destruct (ProcessMarkingStack L Push fuel (heap c)) as [s|] eqn:E; [|discriminate].
  rewrite (ProcessMarkingStack_fuel _ _ _ _ E Hle). exact Hrun.
Qed.

Lemma ProcessObjectGroups_fuel turns :
  forall turns' fuel fuel' (c c' : @Collector Spaces),
    ProcessObjectGroups L Push turns fuel c = Some c' ->
    (turns <= turns')%nat -> (fuel <= fuel')%nat ->
    ProcessObjectGroups L Push turns' fuel' c = Some c'.
Proof.
  induction turns as [|turns IH]; intros turns' fuel fuel' c c' Hrun Ht Hf;
    [discriminate|].
  destruct turns' as [|turns']; [lia|].
  simpl in *.
  destruct (ProcessMarkingStack_in L Push fuel (MarkObjectGroups L Push c))
    as [c1|] eqn:E; [|discriminate].
  rewrite (ProcessMarkingStack_in_fuel _ _ _ _ E Hf).
  destruct (negb (is_empty _)); [|exact Hrun].
  apply (IH turns' fuel fuel'); [exact Hrun|lia|exact Hf].
Qed.

Lemma MarkLiveObjects_fuel fuel fuel' (c c' : @Collector Spaces) :
  MarkLiveObjects L cfg Push fuel c = Some c' -> (fuel <= fuel')%nat ->
  MarkLiveObjects L cfg Push fuel' c = Some c'.
Proof.
  unfold MarkLiveObjects. intros Hrun Hle.
  repeat match type of Hrun with
  | match ProcessMarkingStack_in L Push fuel ?x with _ => _ end = _ =>
      let E := fresh "E" in
      destruct (ProcessMarkingStack_in L Push fuel x) eqn:E; [|discriminate];
      rewrite (ProcessMarkingStack_in_fuel _ _ _ _ E Hle)
  | match ProcessObjectGroups L Push fuel fuel ?x with _ => _ end = _ =>
      let E := fresh "E" in
      destruct (ProcessObjectGroups L Push fuel fuel x) eqn:E; [|discriminate];
      rewrite (ProcessObjectGroups_fuel _ _ _ _ _ _ E Hle Hle)
  end.
  exact Hrun.
Qed.

Lemma CollectGarbage_fuel fuel fuel' (c c' : @Collector Spaces) :
  CollectGarbage MCAllocateRaw L cfg Push FreeUnmarkedObjects fuel c = Some c' ->
  (fuel <= fuel')%nat ->
  CollectGarbage MCAllocateRaw L cfg Push FreeUnmarkedObjects fuel' c = Some c'.
Proof.
  unfold CollectGarbage. intros Hrun Hle.
  destruct (Prepare cfg c) as [c0|]; [|discriminate].
  match type of Hrun with
  | match MarkLiveObjects L cfg Push fuel ?x with _ => _ end = _ =>
      destruct (MarkLiveObjects L cfg Push fuel x) eqn:E; [|discriminate];
      rewrite (MarkLiveObjects_fuel _ _ _ _ E Hle)
  end.
  exact Hrun.
Qed.

End Fuel.

(** *** Marking from the roots *)

Section Driver.

Context {Spaces : Type}.
Variable L : Layout.
Variable cfg : Settings.
Variable Push : Z -> MarkingStack -> MarkingStack.

Hypothesis HL : LayoutOk L.
Hypothesis Push_ok : PushStores Push.

(** The invariant of the marking phase between two visits: the tricolor
    invariant, no overflowed object unless the flag is set, and no more
    left to do than there are objects. *)
Record inv (s : State) : Prop := {
  inv_wf : wf L s;
  inv_tricolor : tricolor L ∅ s;
  inv_overflow : overflowed (marking_stack s) = false -> overflow s = ∅;
  inv_measure : (measure L s <= size (heap_objects L))%nat
}.

(** The state in which the collector finds the heap: no mark, no
    overflow bit, a count of zero, and slots that hold small integers or
    heap objects. *)
Record initial (s : State) : Prop := {
  initial_marked : marked s = ∅;
  initial_overflow : overflow s = ∅;
  initial_count : marked_count s = 0;
  initial_slots :
    forall p, IsHeapObject (slots s p) = true -> slots s p ∈ heap_objects L;
  initial_symbol_table : forall p, slots s p <> symbol_table L;
  initial_cons : forall obj,
    obj ∈ heap_objects L ->
    IsConsStringType L (instance_type L (map_of L obj)) = true ->
    slots s (FieldSlot obj (kFirstIndex L)) ∈ heap_objects L
}.

Lemma initial_inv s :
  initial s -> kPointerSize <= FromSpaceHigh cfg - FromSpaceLow cfg ->
  inv (set_marking_stack (Initialize (FromSpaceLow cfg) (FromSpaceHigh cfg)) s).
Proof.
  intros [Hm Ho Hc Hs Hsym Hcons] Hroom.
  assert (Hlimit : (0 < Z.to_nat ((FromSpaceHigh cfg - FromSpaceLow cfg)
                                  / kPointerSize))%nat).
  { unfold kPointerSize in *.
    assert (1 <= (FromSpaceHigh cfg - FromSpaceLow cfg) / 4)
      by (apply Z.div_le_lower_bound; lia).
    lia. }
  split.
  - split; simpl; auto.
    + rewrite Hm. set_solver.
    + intros obj Hobj. set_solver.
    + rewrite Ho. set_solver.
    + rewrite Hc, Hm, size_empty. reflexivity.
  - intros obj Hobj. simpl in Hobj. rewrite Hm in Hobj. set_solver.
  - intros _. exact Ho.
  - unfold measure. simpl. rewrite Hm, Ho, size_empty.
    replace (heap_objects L ∖ ∅) with (heap_objects L) by set_solver. lia.
Qed.

Lemma ext_inv W s s' :
  ext L W s s' -> inv s -> wf L s' -> tricolor L ∅ s' -> inv s'.
Proof.
  intros He [Hwf Htri Hov Hme] Hwf' Htri'. split; auto.
  - intros Hf. rewrite (ext_overflow _ _ _ _ He Hf). apply Hov.
    destruct (overflowed (marking_stack s)) eqn:E; [|reflexivity].
    rewrite (ext_flag _ _ _ _ He E) in Hf. discriminate.
  - pose proof (ext_measure _ _ _ _ He). lia.
Qed.

(** A visit of roots or of fields of the symbol table keeps the
    invariant. *)
Lemma visit_inv {A : Type} (f : A -> State -> State) slots_of x s :
  visit_ok L ∅ f slots_of ->
  (forall p, p ∈ slots_of x -> visitable L ∅ s p) ->
  inv s ->
  inv (f x s) /\ ext L (fun p => p ∈ slots_of x) s (f x s) /\
  (forall p, p ∈ slots_of x -> points_to_marked (f x s) p).
Proof.
  intros Hf Hvis Hinv.
  destruct (Hf x s (inv_wf _ Hinv) Hvis (inv_tricolor _ Hinv))
    as (Hwf' & Hext & Hpts & Htri').
  split; [|split; assumption]. eapply ext_inv; eassumption.
Qed.

Lemma visit_ranges_ok (slots_of : nat * nat -> list Slot) :
  visit_ok L ∅
    (for_each (fun r => VisitPointers L Push (stack_headroom L) (slots_of r)))
    (fun rs => r ← rs; slots_of r).
Proof.
  apply (for_each_visit_ok L Push HL Push_ok ∅
           (fun r => VisitPointers L Push (stack_headroom L) (slots_of r)) slots_of).
  intros r. apply (VisitPointers_ok L Push HL Push_ok (stack_headroom L) ∅).
Qed.

Lemma MarkStrongRoots_inv s :
  inv s -> symbol_table L ∉ marked s ->
  inv (MarkStrongRoots L Push s) /\
  marked s ⊆ marked (MarkStrongRoots L Push s) /\
  forall r p, r ∈ strong_roots L -> p ∈ root_slots r ->
    points_to_marked (MarkStrongRoots L Push s) p.
Proof.
  intros Hinv Hsym. unfold MarkStrongRoots.
  destruct (visit_inv _ _ (strong_roots L) s (visit_ranges_ok root_slots))
    as (Hinv1 & Hext1 & Hpts1); [|exact Hinv|].
  { intros p Hp. apply list_elem_of_bind in Hp as (r & Hp & _).
    unfold root_slots in Hp. apply list_elem_of_fmap in Hp as (i & -> & _).
    exact I. }
  set (s1 := for_each _ (strong_roots L) s) in *.
  destruct (visit_inv _ _ (symbol_table_prefix L) s1
              (visit_ranges_ok (field_slots (symbol_table L))))
    as (Hinv2 & Hext2 & Hpts2); [|exact Hinv1|].
  { intros p Hp. apply list_elem_of_bind in Hp as (r & Hp & _).
    unfold field_slots in Hp. apply list_elem_of_fmap in Hp as (i & -> & _).
    simpl. right. reflexivity. }
  set (s2 := for_each _ (symbol_table_prefix L) s1) in *.
  assert (Hsym2 : symbol_table L ∉ marked s2).
  { intros Hin. apply Hsym.
    apply (ext_symbol_table _ _ _ _ Hext1), (ext_symbol_table _ _ _ _ Hext2), Hin. }
  destruct Hinv2 as [Hwf2 Htri2 Hov2 Hme2].
  split; [|split].
  - split.
    + destruct Hwf2. split; simpl; auto.
      * pose proof (symbol_table_in_heap _ HL). set_solver.
      * intros o Ho. apply elem_of_union_r. auto.
      * set_solver.
      * rewrite size_insert_fresh by assumption. lia.
    + intros o Ho Hg HP Hs. simpl in Ho.
      assert (Ho' : o ∈ marked s2) by set_solver.
      destruct (Htri2 o Ho' Hg HP Hs) as [Hmap Hf]. split; simpl.
      * set_solver.
      * intros r q Hr Hq Hh. apply elem_of_union_r. apply (Hf r q Hr Hq Hh).
    + exact Hov2.
    + unfold measure in *. simpl.
      pose proof (size_unmarked_insert (heap_objects L) (marked s2)
                    (symbol_table L) (symbol_table_in_heap _ HL) Hsym2).
      lia.
  - simpl. pose proof (ext_marked _ _ _ _ Hext1).
    pose proof (ext_marked _ _ _ _ Hext2). set_solver.
  - intros r p Hr Hp. unfold points_to_marked. simpl.
    assert (Hp1 : points_to_marked s1 p).
    { apply Hpts1. apply list_elem_of_bind. eauto. }
    assert (Hs2 : slots s2 p = slots s1 p).
    { apply (ext_slots _ _ _ _ Hext2).
      - intros Hin. apply list_elem_of_bind in Hin as (r' & Hin & _).
        unfold field_slots in Hin. apply list_elem_of_fmap in Hin as (i & -> & _).
        unfold root_slots in Hp. apply list_elem_of_fmap in Hp as (j & Hj & _).
        discriminate.
      - unfold root_slots in Hp. apply list_elem_of_fmap in Hp as (j & -> & _).
        exact I. }
    rewrite Hs2. intros Hh. apply elem_of_union_r.
    apply (ext_marked _ _ _ _ Hext2). apply Hp1. exact Hh.
Qed.


(** The strong roots hold small integers or marked objects. *)
Definition roots_marked (s : State) : Prop :=
  forall r p, r ∈ strong_roots L -> p ∈ root_slots r -> points_to_marked s p.

Lemma roots_marked_ext (W : Slot -> Prop) s s' :
  ext L W s s' -> (forall p, W p -> points_to_marked s' p) ->
  (forall p, Decision (W p)) ->
  roots_marked s -> roots_marked s'.
Proof.
  intros He HW Hdec Hroots r p Hr Hp.
  destruct (Hdec p) as [Hw|Hw]; [apply HW; exact Hw|].
  unfold points_to_marked. rewrite (ext_slots _ _ _ _ He p Hw).
  - intros Hh. apply (ext_marked _ _ _ _ He). apply (Hroots r p Hr Hp Hh).
  - unfold root_slots in Hp. apply list_elem_of_fmap in Hp as (i & -> & _). exact I.
Qed.

(** The marking of the members of an object group. *)
Definition mark_group (objects : list Slot) (s : State) : State :=
  for_each
    (fun p s => if IsHeapObject (slots s p) then MarkObject L Push (slots s p) s else s)
    objects s.

Lemma mark_group_inv objects :
  forall s, inv s -> inv (mark_group objects s) /\ ext L no_slot s (mark_group objects s).
Proof.
  unfold mark_group.
  induction objects as [|p objects IH]; intros s Hinv; simpl.
  - split; [exact Hinv|apply ext_refl].
  - assert (H1 : inv (if IsHeapObject (slots s p)
                      then MarkObject L Push (slots s p) s else s) /\
                 ext L no_slot s (if IsHeapObject (slots s p)
                                  then MarkObject L Push (slots s p) s else s)).
    { destruct (IsHeapObject (slots s p)) eqn:Hh;
        [|split; [exact Hinv|apply ext_refl]].
      destruct (MarkObject_ok L Push HL Push_ok ∅ (slots s p) s (inv_wf _ Hinv))
        as (Hwf' & Hext & _ & Htri').
      - apply (wf_slots _ _ (inv_wf _ Hinv)). exact Hh.
      - apply (wf_symbol_table _ _ (inv_wf _ Hinv)).
      - split; [|exact Hext].
        eapply ext_inv; [exact Hext|exact Hinv|exact Hwf'|].
        apply Htri'. apply (inv_tricolor _ Hinv). }
    destruct H1 as [Hinv1 Hext1].
    destruct (IH _ Hinv1) as [Hinv2 Hext2].
    split; [exact Hinv2|].
    eapply ext_weaken; [|eapply ext_trans; [exact Push|exact Hext1|exact Hext2]].
    intros q [[]|[]].
Qed.

Lemma MarkObjectGroups_entries_inv entries :
  forall s, inv s ->
    inv (snd (MarkObjectGroups_entries L Push entries s)) /\
    ext L no_slot s (snd (MarkObjectGroups_entries L Push entries s)).
Proof.
  induction entries as [|[objects|] entries IH]; intros s Hinv; simpl.
  - split; [exact Hinv|apply ext_refl].
  - destruct (negb (existsb _ objects)).
    + specialize (IH s Hinv).
      destruct (MarkObjectGroups_entries L Push entries s). exact IH.
    + fold (mark_group objects s).
      destruct (mark_group_inv objects s Hinv) as [Hinv1 Hext1].
      specialize (IH _ Hinv1).
      destruct (MarkObjectGroups_entries L Push entries (mark_group objects s)).
      simpl in *. destruct IH as [Hinv2 Hext2]. split; [exact Hinv2|].
      eapply ext_weaken; [|eapply ext_trans; [exact Push|exact Hext1|exact Hext2]].
      intros q [[]|[]].
  - specialize (IH s Hinv).
    destruct (MarkObjectGroups_entries L Push entries s). exact IH.
Qed.

Lemma heap_MarkObjectGroups (c : @Collector Spaces) :
  heap (MarkObjectGroups L Push c)
  = snd (MarkObjectGroups_entries L Push (object_groups c) (heap c)).
Proof.
  unfold MarkObjectGroups.
  destruct (MarkObjectGroups_entries L Push (object_groups c) (heap c)).
  reflexivity.
Qed.

(** The stack is empty and nothing is overflowed. *)
Definition drained (s : State) : Prop :=
  items (marking_stack s) = [] /\ overflowed (marking_stack s) = false.

(** Fuel that is enough for every loop of the marking phase. *)
Definition enough_fuel : nat := (2 * size (heap_objects L) + 2)%nat.

Lemma unmarked_mono (s s' : State) :
  marked s ⊆ marked s' ->
  (size (heap_objects L ∖ marked s') <= size (heap_objects L ∖ marked s))%nat.
Proof. intros H. apply subseteq_size. set_solver. Qed.

Lemma ProcessMarkingStack_inv fuel s :
  inv s -> (enough_fuel <= fuel)%nat ->
  exists s',
    ProcessMarkingStack L Push fuel s = Some s' /\
    inv s' /\ drained s' /\ marked s ⊆ marked s' /\
    (forall i, slots s' (RootSlot i) = slots s (RootSlot i)) /\
    (symbol_table L ∈ marked s' -> symbol_table L ∈ marked s).
Proof.
  intros [Hwf Htri Hov Hme] Hfuel.
  destruct (ProcessMarkingStack_ok L Push HL Push_ok fuel s Hwf Htri Hov)
    as (s' & Hrun & Hwf' & Htri' & Hitems & Hflag & Hov' & Hm & Hroots & Hsym & Hme').
  { unfold fuel_needed, enough_fuel in *.
    destruct (is_empty _ && overflowed _); lia. }
  exists s'. split; [exact Hrun|]. split_and!; auto.
  - split; auto. lia.
  - split; assumption.
Qed.

Lemma ProcessObjectGroups_inv turns :
  forall fuel (c : @Collector Spaces),
    inv (heap c) -> drained (heap c) -> (enough_fuel <= fuel)%nat ->
    (size (heap_objects L ∖ marked (heap c)) < turns)%nat ->
    exists c',
      ProcessObjectGroups L Push turns fuel c = Some c' /\
      inv (heap c') /\ drained (heap c') /\
      marked (heap c) ⊆ marked (heap c') /\
      (forall i, slots (heap c') (RootSlot i) = slots (heap c) (RootSlot i)).
Proof.
  induction turns as [|turns IH]; intros fuel c Hinv [Hitems Hflag] Hfuel Hturns;
    [lia|].
  simpl.
  destruct (MarkObjectGroups_entries_inv (object_groups c) (heap c) Hinv)
    as [Hinv1 Hext1].
  rewrite <- heap_MarkObjectGroups in Hinv1, Hext1.
  set (c1 := MarkObjectGroups L Push c) in *.
  destruct (ProcessMarkingStack_inv fuel (heap c1) Hinv1 Hfuel)
    as (s2 & Hrun & Hinv2 & Hdr2 & Hm2 & Hroots2 & _).
  unfold ProcessMarkingStack_in. rewrite Hrun.
  pose proof (ext_marked _ _ _ _ Hext1) as Hm1.
  assert (Hroots1 : forall i, slots (heap c1) (RootSlot i) = slots (heap c) (RootSlot i)).
  { intros i. apply (ext_slots _ _ _ _ Hext1); [intros []|exact I]. }
  destruct (negb (is_empty (marking_stack (heap c1)))) eqn:Hwork.
  - destruct (IH fuel (with_heap (fun _ => s2) c1)) as (c' & Hrun' & Hpost);
      try assumption.
    + simpl.
      pose proof (ext_measure _ _ _ _ Hext1) as Hle.
      pose proof (unmarked_mono _ _ Hm2) as Hle2.
      unfold measure in Hle. rewrite Hitems in Hle.
      rewrite (inv_overflow _ Hinv Hflag), size_empty in Hle. simpl in Hle.
      unfold is_empty in Hwork.
      destruct (items (marking_stack (heap c1))); [discriminate|].
      simpl in Hle. lia.
    + exists c'. split; [exact Hrun'|].
      destruct Hpost as (? & ? & Hm' & Hr'). simpl in *. split_and!; auto.
      * set_solver.
      * intros i. rewrite Hr', Hroots2, Hroots1. reflexivity.
  - eexists. split; [reflexivity|]. simpl. split_and!; auto.
    + set_solver.
    + intros i. rewrite Hroots2, Hroots1. reflexivity.
Qed.

Lemma SymbolTableCleaner_inv ps :
  (forall p, p ∈ ps -> exists i, p = FieldSlot (symbol_table L) i) ->
  forall removed s, inv s ->
    let s' := snd (SymbolTableCleaner_VisitPointers L ps removed s) in
    inv s' /\ marked s' = marked s /\ marking_stack s' = marking_stack s /\
    marked_count s' = marked_count s /\
    (forall i, slots s' (RootSlot i) = slots s (RootSlot i)).
Proof.
  induction ps as [|p ps IH]; intros Hps removed s Hinv; simpl.
  - split_and!; auto.
  - assert (Hps' : forall q, q ∈ ps -> exists i, q = FieldSlot (symbol_table L) i)
      by (intros q Hq; apply Hps; set_solver).
    destruct (IsHeapObject (slots s p) && negb (IsMarked (slots s p) s));
      [|apply IH; assumption].
    destruct (Hps p) as [i ->]; [set_solver|].
    destruct Hinv as [Hwf Htri Hov Hme].
    destruct (IH Hps' (int_add removed 1)
                (write (FieldSlot (symbol_table L) i) (null_value L) s))
      as (Hinv' & Hm & Hk & Hc & Hr).
    { split; auto.
      - apply write_wf; [exact Hwf|apply HL|apply HL].
      - apply write_tricolor; [simpl; auto|exact Htri]. }
    split; [exact Hinv'|]. split_and!; auto.
Qed.

Lemma IterateElements_inv ranges :
  forall removed s, inv s ->
    let s' := snd (IterateElements L ranges removed s) in
    inv s' /\ marked s' = marked s /\ marking_stack s' = marking_stack s /\
    marked_count s' = marked_count s /\
    (forall i, slots s' (RootSlot i) = slots s (RootSlot i)).
Proof.
  induction ranges as [|r ranges IH]; intros removed s Hinv; simpl.
  - split_and!; auto.
  - pose proof (SymbolTableCleaner_inv (field_slots (symbol_table L) r)) as H.
    specialize (H ltac:(intros p Hp; unfold field_slots in Hp;
                        apply list_elem_of_fmap in Hp as (i & -> & _); eauto)
                  removed s Hinv).
    destruct (SymbolTableCleaner_VisitPointers L _ removed s) as [removed' s1].
    simpl in H. destruct H as (Hinv1 & Hm1 & Hk1 & Hc1 & Hr1).
    destruct (IH removed' s1 Hinv1) as (Hinv2 & Hm2 & Hk2 & Hc2 & Hr2).
    split; [exact Hinv2|]. split_and!; try congruence.
Qed.

(** The marking phase returns, with the marked count equal to the number
    of marked objects, the stack drained, and every object that is
    reachable from a strong root marked. *)
Lemma MarkLiveObjects_ok fuel (c : @Collector Spaces) :
  initial (heap c) ->
  kPointerSize <= FromSpaceHigh cfg - FromSpaceLow cfg ->
  (enough_fuel <= fuel)%nat ->
  exists c',
    MarkLiveObjects L cfg Push fuel c = Some c' /\
    inv (heap c') /\ drained (heap c') /\ roots_marked (heap c').
Proof.
  intros Hinit Hroom Hfuel. unfold MarkLiveObjects.
  pose proof (initial_inv (heap c) Hinit Hroom) as Hinv0.
  set (s0 := set_marking_stack _ (heap c)) in *.
  destruct (MarkStrongRoots_inv s0 Hinv0) as (Hinv1 & _ & Hroots1).
  { simpl. rewrite (initial_marked _ Hinit). set_solver. }
  set (s1 := MarkStrongRoots L Push s0) in *.
  destruct (ProcessMarkingStack_inv fuel s1 Hinv1 Hfuel)
    as (s2 & Hrun2 & Hinv2 & Hdr2 & Hm2 & Hr2 & _).
  unfold ProcessMarkingStack_in at 1. simpl heap. fold s0. fold s1. rewrite Hrun2.
  assert (Hroots2 : roots_marked s2).
  { intros r p Hr Hp. unfold points_to_marked.
    pose proof Hp as Hp'. unfold root_slots in Hp'.
    apply list_elem_of_fmap in Hp' as (i & -> & _). rewrite Hr2.
    intros Hh. apply Hm2. apply (Hroots1 r _ Hr Hp Hh). }
  assert (Hturns : forall s : State,
    (size (heap_objects L ∖ marked s) < fuel)%nat).
  { intros s. pose proof (subseteq_size (heap_objects L ∖ marked s) (heap_objects L)
                            ltac:(set_solver)).
    unfold enough_fuel in Hfuel. lia. }
  match goal with
  | |- context [ProcessObjectGroups L Push fuel fuel ?c2] =>
      destruct (ProcessObjectGroups_inv fuel fuel c2 Hinv2 Hdr2 Hfuel (Hturns _))
        as (c3 & Hrun3 & Hinv3 & Hdr3 & Hm3 & Hr3)
  end.
  rewrite Hrun3.
  assert (Hroots3 : roots_marked (heap c3)).
  { intros r p Hr Hp. unfold points_to_marked.
    pose proof Hp as Hp'. unfold root_slots in Hp'.
    apply list_elem_of_fmap in Hp' as (i & -> & _). rewrite Hr3. simpl.
    intros Hh. apply Hm3. apply (Hroots2 r _ Hr Hp Hh). }
  (* the weak roots *)
  pose proof (for_each_visit_ok L Push HL Push_ok ∅
                (fun i => VisitPointer L Push (RootSlot i))
                (fun i => [RootSlot i])
                ltac:(intros i; apply (MarkObjectByPointer_ok L Push HL Push_ok ∅)))
    as Hweak.
  destruct (visit_inv _ _ (weak_roots L) (heap c3) Hweak)
    as (Hinv4 & Hext4 & Hpts4); [|exact Hinv3|].
  { intros p Hp. apply list_elem_of_bind in Hp as (i & Hp & _).
    apply list_elem_of_singleton in Hp. subst p. exact I. }
  set (s4 := for_each _ (weak_roots L) (heap c3)) in *.
  assert (Hroots4 : roots_marked s4).
  { eapply roots_marked_ext; [exact Hext4|exact Hpts4| |exact Hroots3].
    intros p. apply _. }
  destruct (ProcessMarkingStack_inv fuel s4 Hinv4 Hfuel)
    as (s5 & Hrun5 & Hinv5 & Hdr5 & Hm5 & Hr5 & _).
  unfold ProcessMarkingStack_in at 1. simpl heap. fold s4. rewrite Hrun5.
  assert (Hroots5 : roots_marked s5).
  { intros r p Hr Hp. unfold points_to_marked.
    pose proof Hp as Hp'. unfold root_slots in Hp'.
    apply list_elem_of_fmap in Hp' as (i & -> & _). rewrite Hr5.
    intros Hh. apply Hm5. apply (Hroots4 r _ Hr Hp Hh). }
  match goal with
  | |- context [ProcessObjectGroups L Push fuel fuel ?c5] =>
      destruct (ProcessObjectGroups_inv fuel fuel c5 Hinv5 Hdr5 Hfuel (Hturns _))
        as (c6 & Hrun6 & Hinv6 & Hdr6 & Hm6 & Hr6)
  end.
  rewrite Hrun6.
  assert (Hroots6 : roots_marked (heap c6)).
  { intros r p Hr Hp. unfold points_to_marked.
    pose proof Hp as Hp'. unfold root_slots in Hp'.
    apply list_elem_of_fmap in Hp' as (i & -> & _). rewrite Hr6. simpl.
    intros Hh. apply Hm6. apply (Hroots5 r _ Hr Hp Hh). }
  destruct (IterateElements_inv (symbol_table_elements L) 0 (heap c6) Hinv6)
    as (Hinv7 & Hm7 & Hk7 & Hc7 & Hr7).
  eexists. split; [reflexivity|]. simpl. split_and!.
  - exact Hinv7.
  - unfold drained. rewrite Hk7. exact Hdr6.
  - intros r p Hr Hp. unfold points_to_marked.
    pose proof Hp as Hp'. unfold root_slots in Hp'.
    apply list_elem_of_fmap in Hp' as (i & -> & _). rewrite Hr7, Hm7.
    apply (Hroots6 r _ Hr Hp).
Qed.

End Driver.
(** *** The marks that the sweeps clear *)

(** [s'] is [s] with the marks of [objects] cleared, and the marked count
    decremented once for each mark that was cleared. *)
Record swept (objects : list Z) (s s' : State) : Prop := {
  swept_marked : marked s' = marked s ∖ list_to_set objects;
  swept_count :
    marked_count s'
    = marked_count s - Z.of_nat (size (marked s ∩ list_to_set objects))
}.

Lemma swept_nil s : swept [] s s.
Proof.
  split; simpl.
  - set_solver.
  - replace (marked s ∩ ∅) with (∅ : gset Z) by set_solver.
    rewrite size_empty. lia.
Qed.

Lemma swept_app l1 l2 s s1 s2 :
  swept l1 s s1 -> swept l2 s1 s2 -> swept (l1 ++ l2) s s2.
Proof.
  intros [Hm1 Hc1] [Hm2 Hc2]. split.
  - rewrite Hm2, Hm1, list_to_set_app_L. set_solver.
  - rewrite Hc2, Hc1, Hm1, list_to_set_app_L.
    set (A := list_to_set l1 : gset Z). set (B := list_to_set l2 : gset Z).
    assert (Heq : marked s ∩ (A ∪ B) = (marked s ∩ A) ∪ ((marked s ∖ A) ∩ B)).
    { apply set_eq. intros x. destruct (decide (x ∈ A)); set_solver. }
    rewrite Heq.
    rewrite (size_union (marked s ∩ A) ((marked s ∖ A) ∩ B)) by set_solver. lia.
Qed.

Lemma swept_marked_object obj s :
  IsMarked obj s = true ->
  swept [obj] s (decrement_marked_count (ClearMark obj s)).
Proof.
  unfold IsMarked. intros Hm. apply bool_decide_eq_true in Hm.
  split; simpl.
  - set_solver.
  - replace (marked s ∩ ({[obj]} ∪ ∅)) with ({[obj]} : gset Z) by set_solver.
    rewrite size_singleton. lia.
Qed.

Lemma swept_unmarked_object obj s :
  IsMarked obj s = false -> swept [obj] s s.
Proof.
  unfold IsMarked. intros Hm. apply bool_decide_eq_false in Hm.
  split; simpl.
  - set_solver.
  - replace (marked s ∩ ({[obj]} ∪ ∅)) with (∅ : gset Z) by set_solver.
    rewrite size_empty. lia.
Qed.

Lemma swept_cons obj rest s s1 s2 :
  swept [obj] s s1 -> swept rest s1 s2 -> swept (obj :: rest) s s2.
Proof. intros H1 H2. apply (swept_app [obj] rest s s1 s2 H1 H2). Qed.

(** A sweep of all the objects that can be marked leaves no mark, and a
    count of zero when the count was the number of marks. *)
Lemma swept_all objects s s' :
  swept objects s s' ->
  marked s ⊆ list_to_set objects ->
  marked_count s = Z.of_nat (size (marked s)) ->
  marked s' = ∅ /\ marked_count s' = 0.
Proof.
  intros [Hm Hc] Hsub Hcount. split.
  - rewrite Hm. set_solver.
  - rewrite Hc, Hcount.
    replace (marked s ∩ list_to_set objects) with (marked s) by set_solver.
    lia.
Qed.

Section Sweeping.

Context {Spaces : Type}.
Variable MCAllocateRaw : AllocationSpace -> Z -> Spaces -> Z * Spaces.
Variable L : Layout.
Variable cfg : Settings.

Definition keeps_heap (f : @Collector Spaces -> @Collector Spaces) : Prop :=
  forall c, heap (f c) = heap c.

Lemma iterate_heap {A : Type} (f : A -> @Collector Spaces -> @Collector Spaces) l :
  (forall x, keeps_heap (f x)) -> keeps_heap (iterate f l).
Proof.
  intros Hf. induction l as [|x l IH]; intros c; simpl; [reflexivity|].
  rewrite IH. apply Hf.
Qed.

(** A loop that sweeps the objects of each element in turn. *)
Lemma iterate_swept {A : Type} (f : A -> @Collector Spaces -> @Collector Spaces)
    (objects_at : A -> list Z) l :
  (forall x c, swept (objects_at x) (heap c) (heap (f x c))) ->
  forall c, swept (concat (map objects_at l)) (heap c) (heap (iterate f l c)).
Proof.
  intros Hf. induction l as [|x l IH]; intros c; simpl; [apply swept_nil|].
  eapply swept_app; [apply Hf|apply IH].
Qed.

Section RangeSwept.

Variable Alloc : @AllocationFunction Spaces.
Variable Encode : @EncodingFunction Spaces.
Variable ProcessNonLive : @ProcessNonLiveFunction Spaces.
Hypothesis Alloc_heap : forall o z c, heap (snd (Alloc o z c)) = heap c.
Hypothesis Encode_heap : forall o z n k c, heap (snd (Encode o z n k c)) = heap c.
Hypothesis ProcessNonLive_heap : forall o, keeps_heap (ProcessNonLive o).

Lemma EncodeForwardingAddressesInRange_loop_swept objects :
  forall free_start alive offset c,
    swept objects (heap c)
      (heap (snd (EncodeForwardingAddressesInRange_loop L Alloc Encode
                    ProcessNonLive objects free_start alive offset c))).
Proof.
  induction objects as [|object rest IH]; intros free_start alive offset c;
    simpl; [apply swept_nil|].
  destruct (IsMarked object (heap c)) eqn:Hm.
  - destruct (Alloc object _ _) as [forwarded c1] eqn:HA.
    destruct (Encode object _ forwarded offset c1) as [offset' c2] eqn:HE.
    pose proof (Alloc_heap object (object_size L object)
                  (with_heap decrement_marked_count (with_heap (ClearMark object) c)))
      as H1.
    rewrite HA in H1.
    pose proof (Encode_heap object (object_size L object) forwarded offset c1)
      as H2.
    rewrite HE in H2. simpl in H1, H2.
    eapply swept_cons; [|apply IH].
    destruct (negb alive); simpl; rewrite H2, H1;
      apply swept_marked_object; exact Hm.
  - destruct alive.
    + eapply swept_cons; [|apply IH].
      rewrite ProcessNonLive_heap. apply swept_unmarked_object. exact Hm.
    + eapply swept_cons; [|apply IH].
      rewrite ProcessNonLive_heap. apply swept_unmarked_object. exact Hm.
Qed.

Lemma EncodeForwardingAddressesInRange_swept objects end_ offset c :
  swept objects (heap c)
    (heap (snd (EncodeForwardingAddressesInRange L Alloc Encode ProcessNonLive
                  objects end_ offset c))).
Proof.
  unfold EncodeForwardingAddressesInRange.
  pose proof (EncodeForwardingAddressesInRange_loop_swept objects 0 true offset c)
    as H.
  destruct (EncodeForwardingAddressesInRange_loop _ _ _ _ _ _ _ _ _)
    as [[[free_start alive] offset'] c1].
  simpl in *. destruct (negb alive); exact H.
Qed.

End RangeSwept.

Lemma on_spaces_heap f o z c :
  heap (snd (@on_spaces Spaces f o z c)) = heap c.
Proof. unfold on_spaces. destruct (f o z (spaces c)). reflexivity. Qed.

Lemma EncodeForwardingAddressInPagedSpace_heap o z n k c :
  heap (snd (@EncodeForwardingAddressInPagedSpace Spaces L o z n k c)) = heap c.
Proof.
  unfold EncodeForwardingAddressInPagedSpace. destruct (k =? 0); reflexivity.
Qed.

Lemma LogNonLiveCodeObject_heap o :
  keeps_heap (@LogNonLiveCodeObject Spaces cfg o).
Proof. intros c. unfold LogNonLiveCodeObject. destruct (IsCode cfg o); reflexivity. Qed.

Lemma EncodeForwardingAddressesInPagedSpace_swept Alloc ProcessNonLive pages :
  (forall o z c, heap (snd (Alloc o z c)) = heap c) ->
  (forall o, keeps_heap (ProcessNonLive o)) ->
  forall c,
    swept (objects_of pages) (heap c)
      (heap (@EncodeForwardingAddressesInPagedSpace Spaces L Alloc ProcessNonLive
               pages c)).
Proof.
  intros HA HP. unfold EncodeForwardingAddressesInPagedSpace, objects_of.
  apply iterate_swept. intros p c.
  apply EncodeForwardingAddressesInRange_swept; auto.
  apply EncodeForwardingAddressInPagedSpace_heap.
Qed.

(** The objects of the spaces that phase 2 and [SweepSpaces] walk, in the
    order of the walk. *)
Definition swept_objects : list Z :=
  old_space_objects L ++ code_space_objects L ++ new_space_objects L
  ++ map_space_objects L.

Lemma EncodeForwardingAddresses_swept c :
  swept swept_objects (heap c)
    (heap (EncodeForwardingAddresses MCAllocateRaw L cfg c)).
Proof.
  unfold EncodeForwardingAddresses, swept_objects.
  unfold old_space_objects, code_space_objects, map_space_objects.
  rewrite !app_assoc. cbn [heap log].
  eapply swept_app;
    [|apply EncodeForwardingAddressesInPagedSpace_swept;
        [intros; apply on_spaces_heap|intros o c'; reflexivity]].
  eapply swept_app;
    [|unfold EncodeForwardingAddressesInNewSpace;
      apply EncodeForwardingAddressesInRange_swept;
        [intros; apply on_spaces_heap|intros; reflexivity
        |intros o c'; reflexivity]].
  eapply swept_app;
    [|apply EncodeForwardingAddressesInPagedSpace_swept;
        [intros; apply on_spaces_heap|apply LogNonLiveCodeObject_heap]].
  apply (EncodeForwardingAddressesInPagedSpace_swept _ _ _
           ltac:(intros; apply on_spaces_heap)
           ltac:(intros o c'; reflexivity)
           (log RelocationInfoReset (enter PhaseEncodeForwardingAddresses c))).
Qed.

Lemma IterateLiveObjects_heap objects size_f :
  (forall o, keeps_heap (size_f o)) ->
  keeps_heap (@IterateLiveObjects Spaces objects size_f).
Proof.
  intros Hf. unfold IterateLiveObjects. apply iterate_heap.
  intros o c. destruct (decide _); [apply Hf|reflexivity].
Qed.

Lemma UpdatePointers_heap : keeps_heap (@UpdatePointers Spaces L).
Proof.
  intros c. unfold UpdatePointers.
  rewrite iterate_heap by (intros o c'; reflexivity).
  rewrite !IterateLiveObjects_heap by (intros o c'; reflexivity).
  reflexivity.
Qed.

Lemma RelocateObjects_heap : keeps_heap (@RelocateObjects Spaces L cfg).
Proof.
  intros c. unfold RelocateObjects. simpl.
  rewrite iterate_heap.
  2:{ intros o c'. unfold ConvertCodeICTargetToAddress.
      destruct (IsCode cfg o); reflexivity. }
  rewrite !IterateLiveObjects_heap; [reflexivity|..];
    intros o c'; unfold RelocateCodeObject, RelocateOldObject;
    destruct (IsCode cfg o); reflexivity.
Qed.

Lemma SweepPage_loop_swept dealloc objects :
  (forall a z, keeps_heap (dealloc a z)) ->
  forall free_start alive c,
    swept objects (heap c)
      (heap (snd (@SweepPage_loop Spaces cfg dealloc objects free_start alive c))).
Proof.
  intros Hd. induction objects as [|object rest IH]; intros free_start alive c;
    simpl; [apply swept_nil|].
  destruct (IsMarked object (heap c)) eqn:Hm.
  - eapply swept_cons; [|apply IH].
    destruct alive; cbn [negb]; [|rewrite Hd];
      destruct (_ && IsCode cfg object); apply swept_marked_object; exact Hm.
  - assert (Hh : heap (if IsCode cfg object
                       then log (CodeDeleteEvent (address object)) c else c)
                 = heap c)
      by (destruct (IsCode cfg object); reflexivity).
    destruct alive.
    + eapply swept_cons; [|apply IH].
      rewrite Hh. apply swept_unmarked_object. exact Hm.
    + eapply swept_cons; [|apply IH].
      rewrite Hh. apply swept_unmarked_object. exact Hm.
Qed.

Lemma SweepPagedSpace_swept dealloc pages :
  (forall a z, keeps_heap (dealloc a z)) ->
  forall c,
    swept (objects_of pages) (heap c)
      (heap (@SweepPagedSpace Spaces cfg dealloc pages c)).
Proof.
  intros Hd. unfold SweepPagedSpace, objects_of. apply iterate_swept. intros p c.
  pose proof (SweepPage_loop_swept dealloc (page_objects p) Hd 0 true c) as H.
  destruct (SweepPage_loop _ _ _ _ _ _) as [[free_start alive] c1].
  simpl in H. destruct (negb alive); [|exact H].
  destruct (_ >? 0); [rewrite Hd|]; exact H.
Qed.

Lemma concat_singletons (l : list Z) :
  l = concat (map (fun object => [object]) l).
Proof.
  induction l as [|o l IH]; simpl; [reflexivity|].
  rewrite <- IH. reflexivity.
Qed.

Lemma SweepNewSpace_swept c :
  swept (new_space_objects L) (heap c) (heap (@SweepNewSpace Spaces L c)).
Proof.
  unfold SweepNewSpace.
  pose proof (iterate_swept
    (fun object (c : @Collector Spaces) =>
       if IsMarked object (heap c)
       then with_heap decrement_marked_count (with_heap (ClearMark object) c)
       else log (Filler object (object_size L object)) c)
    (fun object => [object]) (new_space_objects L)) as H.
  replace (concat (map (fun object => [object]) (new_space_objects L)))
    with (new_space_objects L) in H.
  - apply H. intros o c'. destruct (IsMarked o (heap c')) eqn:Hm.
    + apply swept_marked_object. exact Hm.
    + apply swept_unmarked_object. exact Hm.
  - apply concat_singletons.
Qed.

Lemma SweepSpaces_swept c :
  swept swept_objects (heap c) (heap (@SweepSpaces Spaces L cfg c)).
Proof.
  unfold SweepSpaces, swept_objects.
  unfold old_space_objects, code_space_objects, map_space_objects.
  rewrite !app_assoc.
  eapply swept_app.
  2:{ apply SweepPagedSpace_swept.
      intros a z c'. unfold DeallocateMapBlock.
      rewrite iterate_heap by (intros i c''; reflexivity). reflexivity. }
  eapply swept_app; [|apply SweepNewSpace_swept].
  eapply swept_app;
    [|apply SweepPagedSpace_swept; intros a z c'; reflexivity].
  apply (SweepPagedSpace_swept DeallocateOldBlock (old_space_pages L)
           ltac:(intros a z c'; reflexivity) (enter PhaseSweepSpaces c)).
Qed.

End Sweeping.

(** *** The order of the spaces *)

(** The objects given a forwarding address, in the order of the log. *)
Definition forwarded_objects (es : list Event) : list Z :=
  flat_map (fun e => match e with Forwarded o _ => [o] | _ => [] end) es.

(** The objects relocated, with the space each was relocated in, in the
    order of the log. *)
Definition relocated_objects (es : list Event) : list (AllocationSpace * Z) :=
  flat_map (fun e => match e with Relocated sp o => [(sp, o)] | _ => [] end) es.

(** The objects of a walk that are found marked, when the walk clears the
    mark of each object it finds marked. *)
Fixpoint live_in (objects : list Z) (M : gset Z) : list Z :=
  match objects with
  | [] => []
  | o :: rest =>
      if bool_decide (o ∈ M) then o :: live_in rest (M ∖ {[o]})
      else live_in rest M
  end.

Lemma live_in_app l1 l2 M :
  live_in (l1 ++ l2) M = live_in l1 M ++ live_in l2 (M ∖ list_to_set l1).
Proof.
  revert M. induction l1 as [|o l1 IH]; intros M; simpl.
  - f_equal. set_solver.
  - destruct (bool_decide_reflect (o ∈ M)) as [Ho|Ho]; rewrite IH; simpl.
    + do 3 f_equal. set_solver.
    + do 2 f_equal. set_solver.
Qed.

Lemma live_in_NoDup l :
  List.NoDup l ->
  forall M, live_in l M = List.filter (fun o => bool_decide (o ∈ M)) l.
Proof.
  induction 1 as [|o l Ho Hl IH]; intros M; simpl; [reflexivity|].
  destruct (bool_decide_reflect (o ∈ M)) as [HM|HM]; [|apply IH].
  rewrite IH. f_equal. apply List.filter_ext_in. intros x Hx.
  apply bool_decide_ext. split; [set_solver|].
  intros HxM. apply elem_of_difference. split; [exact HxM|].
  intros Heq. apply elem_of_singleton in Heq. subst x. exact (Ho Hx).
Qed.

Section Ordering.

Context {Spaces : Type}.
Variable MCAllocateRaw : AllocationSpace -> Z -> Spaces -> Z * Spaces.
Variable L : Layout.
Variable cfg : Settings.

Definition fwd (c : @Collector Spaces) : list Z := forwarded_objects (events c).
Definition rel (c : @Collector Spaces) : list (AllocationSpace * Z) :=
  relocated_objects (events c).

Lemma fwd_log e (c : @Collector Spaces) :
  fwd (log e c) = fwd c ++ match e with Forwarded o _ => [o] | _ => [] end.
Proof.
  unfold fwd, forwarded_objects. simpl. rewrite flat_map_app. simpl.
  rewrite app_nil_r. reflexivity.
Qed.

Lemma rel_log e (c : @Collector Spaces) :
  rel (log e c) = rel c ++ match e with Relocated sp o => [(sp, o)] | _ => [] end.
Proof.
  unfold rel, relocated_objects. simpl. rewrite flat_map_app. simpl.
  rewrite app_nil_r. reflexivity.
Qed.

Section RangeForwarded.

Variable Alloc : @AllocationFunction Spaces.
Variable Encode : @EncodingFunction Spaces.
Variable ProcessNonLive : @ProcessNonLiveFunction Spaces.
Hypothesis Alloc_heap : forall o z c, heap (snd (Alloc o z c)) = heap c.
Hypothesis Encode_heap : forall o z n k c, heap (snd (Encode o z n k c)) = heap c.
Hypothesis ProcessNonLive_heap : forall o, keeps_heap (ProcessNonLive o).
Hypothesis Alloc_fwd : forall o z c, fwd (snd (Alloc o z c)) = fwd c.
Hypothesis Encode_fwd : forall o z n k c, fwd (snd (Encode o z n k c)) = fwd c.
Hypothesis ProcessNonLive_fwd : forall o c, fwd (ProcessNonLive o c) = fwd c.

Lemma EncodeForwardingAddressesInRange_loop_fwd objects :
  forall free_start alive offset c,
    fwd (snd (EncodeForwardingAddressesInRange_loop L Alloc Encode
                ProcessNonLive objects free_start alive offset c))
    = fwd c ++ live_in objects (marked (heap c)).
Proof.
  induction objects as [|object rest IH]; intros free_start alive offset c;
    simpl; [rewrite app_nil_r; reflexivity|].
  unfold IsMarked.
  destruct (bool_decide (object ∈ marked (heap c))) eqn:Hm.
  - destruct (Alloc object _ _) as [forwarded c1] eqn:HA.
    destruct (Encode object _ forwarded offset c1) as [offset' c2] eqn:HE.
    pose proof (Alloc_heap object (object_size L object)
                  (with_heap decrement_marked_count (with_heap (ClearMark object) c)))
      as H1.
    pose proof (Alloc_fwd object (object_size L object)
                  (with_heap decrement_marked_count (with_heap (ClearMark object) c)))
      as F1.
    rewrite HA in H1, F1.
    pose proof (Encode_heap object (object_size L object) forwarded offset c1)
      as H2.
    pose proof (Encode_fwd object (object_size L object) forwarded offset c1)
      as F2.
    rewrite HE in H2, F2. simpl in H1, H2, F1, F2.
    rewrite IH.
    assert (Hh : forall c3 : @Collector Spaces,
      heap (if negb alive
            then with_memory
                   (FreeRegion.EncodeFreeRegion free_start
                      (int_sub (address object) free_start)) c3
            else c3) = heap c3)
      by (intros c3; destruct (negb alive); reflexivity).
    assert (Hf : forall c3 : @Collector Spaces,
      fwd (if negb alive
           then with_memory
                  (FreeRegion.EncodeFreeRegion free_start
                     (int_sub (address object) free_start)) c3
           else c3) = fwd c3)
      by (intros c3; destruct (negb alive); reflexivity).
    rewrite Hh, Hf, fwd_log. simpl heap. rewrite H2, H1, F2, F1. simpl.
    rewrite <- app_assoc. reflexivity.
  - destruct alive; rewrite IH, ProcessNonLive_heap, ProcessNonLive_fwd;
      reflexivity.
Qed.

Lemma EncodeForwardingAddressesInRange_fwd objects end_ offset c :
  fwd (snd (EncodeForwardingAddressesInRange L Alloc Encode ProcessNonLive
              objects end_ offset c))
  = fwd c ++ live_in objects (marked (heap c)).
Proof.
  unfold EncodeForwardingAddressesInRange.
  pose proof (EncodeForwardingAddressesInRange_loop_fwd objects 0 true offset c)
    as H.
  destruct (EncodeForwardingAddressesInRange_loop _ _ _ _ _ _ _ _ _)
    as [[[free_start alive] offset'] c1].
  simpl in *. destruct (negb alive); exact H.
Qed.

End RangeForwarded.

Lemma iterate_fwd {A : Type} (f : A -> @Collector Spaces -> @Collector Spaces)
    (objects_at : A -> list Z) l :
  (forall x c, swept (objects_at x) (heap c) (heap (f x c))) ->
  (forall x c, fwd (f x c) = fwd c ++ live_in (objects_at x) (marked (heap c))) ->
  forall c,
    fwd (iterate f l c)
    = fwd c ++ live_in (concat (map objects_at l)) (marked (heap c)).
Proof.
  intros Hs Hf. induction l as [|x l IH]; intros c; simpl.
  - rewrite app_nil_r. reflexivity.
  - rewrite IH, Hf, live_in_app, (swept_marked _ _ _ (Hs x c)), <- app_assoc.
    reflexivity.
Qed.

Lemma on_spaces_fwd f o z c :
  fwd (snd (@on_spaces Spaces f o z c)) = fwd c.
Proof. unfold on_spaces. destruct (f o z (spaces c)). reflexivity. Qed.

Lemma EncodeForwardingAddressInPagedSpace_fwd o z n k c :
  fwd (snd (@EncodeForwardingAddressInPagedSpace Spaces L o z n k c)) = fwd c.
Proof.
  unfold EncodeForwardingAddressInPagedSpace.
  destruct (k =? 0); simpl; unfold fwd; simpl;
    unfold forwarded_objects; rewrite !flat_map_app; simpl;
    rewrite ?app_nil_r; reflexivity.
Qed.

Lemma LogNonLiveCodeObject_fwd o c :
  fwd (@LogNonLiveCodeObject Spaces cfg o c) = fwd c.
Proof.
  unfold LogNonLiveCodeObject. destruct (IsCode cfg o); [|reflexivity].
  rewrite fwd_log. apply app_nil_r.
Qed.

Lemma EncodeForwardingAddressesInPagedSpace_fwd Alloc ProcessNonLive pages :
  (forall o z c, heap (snd (Alloc o z c)) = heap c) ->
  (forall o, keeps_heap (ProcessNonLive o)) ->
  (forall o z c, fwd (snd (Alloc o z c)) = fwd c) ->
  (forall o c, fwd (ProcessNonLive o c) = fwd c) ->
  forall c,
    fwd (@EncodeForwardingAddressesInPagedSpace Spaces L Alloc ProcessNonLive
           pages c)
    = fwd c ++ live_in (objects_of pages) (marked (heap c)).
Proof.
  intros HA HP FA FP. unfold EncodeForwardingAddressesInPagedSpace, objects_of.
  apply iterate_fwd; intros p c.
  - apply EncodeForwardingAddressesInRange_swept; auto.
    apply EncodeForwardingAddressInPagedSpace_heap.
  - apply EncodeForwardingAddressesInRange_fwd; auto.
    + apply EncodeForwardingAddressInPagedSpace_heap.
    + apply EncodeForwardingAddressInPagedSpace_fwd.
Qed.

Lemma IterateLiveObjects_rel objects size_f sp :
  (forall o c, rel (size_f o c) = rel c ++ [(sp, o)]) ->
  (forall o c, forwarded (size_f o c) = forwarded c) ->
  forall c : @Collector Spaces,
    rel (IterateLiveObjects objects size_f c)
    = rel c ++ map (pair sp)
                 (List.filter (fun o => bool_decide (o ∈ forwarded c)) objects)
    /\ forwarded (IterateLiveObjects objects size_f c) = forwarded c.
Proof.
  intros Hr Hf. unfold IterateLiveObjects.
  induction objects as [|o objects IH]; intros c; simpl.
  - rewrite app_nil_r. auto.
  - destruct (decide (o ∈ forwarded c)) as [Ho|Ho].
    + rewrite (bool_decide_eq_true_2 _ Ho).
      destruct (IH (size_f o c)) as [-> ->].
      rewrite Hr, Hf, <- app_assoc. auto.
    + rewrite (bool_decide_eq_false_2 _ Ho). apply IH.
Qed.

Lemma EncodeForwardingAddresses_fwd c :
  fwd (EncodeForwardingAddresses MCAllocateRaw L cfg c)
  = fwd c ++ live_in (swept_objects L) (marked (heap c)).
Proof.
  unfold EncodeForwardingAddresses.
  set (c0 := log RelocationInfoReset (enter PhaseEncodeForwardingAddresses c)).
  set (c1 := EncodeForwardingAddressesInPagedSpace _ _ _ (old_space_pages L) c0).
  set (c2 := EncodeForwardingAddressesInPagedSpace _ _ _ (code_space_pages L) c1).
  set (c3 := EncodeForwardingAddressesInNewSpace _ _ _ c2).
  set (c4 := EncodeForwardingAddressesInPagedSpace _ _ _ (map_space_pages L) c3).
  assert (F0 : fwd c0 = fwd c) by (unfold c0; rewrite fwd_log; apply app_nil_r).
  assert (F1 : fwd c1 = fwd c0 ++ live_in (old_space_objects L) (marked (heap c0))).
  { apply EncodeForwardingAddressesInPagedSpace_fwd;
      try (intros; apply on_spaces_heap); try (intros; apply on_spaces_fwd);
      intros o c'; reflexivity. }
  assert (S1 : swept (old_space_objects L) (heap c0) (heap c1)).
  { apply EncodeForwardingAddressesInPagedSpace_swept;
      [intros; apply on_spaces_heap|intros o c'; reflexivity]. }
  assert (F2 : fwd c2 = fwd c1 ++ live_in (code_space_objects L) (marked (heap c1))).
  { apply EncodeForwardingAddressesInPagedSpace_fwd;
      try (intros; apply on_spaces_heap); try (intros; apply on_spaces_fwd).
    - apply LogNonLiveCodeObject_heap.
    - apply LogNonLiveCodeObject_fwd. }
  assert (S2 : swept (code_space_objects L) (heap c1) (heap c2)).
  { apply EncodeForwardingAddressesInPagedSpace_swept;
      [intros; apply on_spaces_heap|apply LogNonLiveCodeObject_heap]. }
  assert (F3 : fwd c3 = fwd c2 ++ live_in (new_space_objects L) (marked (heap c2))).
  { apply EncodeForwardingAddressesInRange_fwd;
      try (intros; apply on_spaces_heap); try (intros; apply on_spaces_fwd);
      try (intros o c'; reflexivity); intros; reflexivity. }
  assert (S3 : swept (new_space_objects L) (heap c2) (heap c3)).
  { apply EncodeForwardingAddressesInRange_swept;
      [intros; apply on_spaces_heap|intros; reflexivity|intros o c'; reflexivity]. }
  assert (F4 : fwd c4 = fwd c3 ++ live_in (map_space_objects L) (marked (heap c3))).
  { apply EncodeForwardingAddressesInPagedSpace_fwd;
      try (intros; apply on_spaces_heap); try (intros; apply on_spaces_fwd);
      intros o c'; reflexivity. }
  rewrite !fwd_log, !app_nil_r, F4, F3, F2, F1, F0.
  rewrite (swept_marked _ _ _ S3), (swept_marked _ _ _ S2), (swept_marked _ _ _ S1).
  change (heap c0) with (heap c).
  unfold swept_objects. rewrite !live_in_app, <- !app_assoc. reflexivity.
Qed.

Lemma RelocateObjects_rel (c : @Collector Spaces) :
  let moved sp objects :=
    map (pair sp) (List.filter (fun o => bool_decide (o ∈ forwarded c)) objects) in
  rel (RelocateObjects L cfg c)
  = rel c ++ moved MAP_SPACE (map_space_objects L)
      ++ moved OLD_SPACE (old_space_objects L)
      ++ moved CODE_SPACE (code_space_objects L)
      ++ moved NEW_SPACE (new_space_objects L).
Proof.
  intros moved. unfold RelocateObjects.
  set (c0 := set_state RELOCATE_OBJECTS (enter PhaseRelocateObjects c)).
  set (c1 := IterateLiveObjects (map_space_objects L) _ c0).
  set (c2 := IterateLiveObjects (old_space_objects L) _ c1).
  set (c3 := IterateLiveObjects (code_space_objects L) _ c2).
  set (c4 := IterateLiveObjects (new_space_objects L) _ c3).
  set (c5 := iterate _ (lo_space_objects L) c4).
  destruct (IterateLiveObjects_rel (map_space_objects L)
              (@RelocateMapObject Spaces) MAP_SPACE) with (c := c0) as [R1 W1].
  { intros o c'. apply rel_log. }
  { intros o c'. reflexivity. }
  destruct (IterateLiveObjects_rel (old_space_objects L)
              (@RelocateOldObject Spaces cfg) OLD_SPACE) with (c := c1) as [R2 W2].
  { intros o c'. unfold RelocateOldObject.
    destruct (IsCode cfg o); rewrite ?rel_log, ?app_nil_r; reflexivity. }
  { intros o c'. unfold RelocateOldObject. destruct (IsCode cfg o); reflexivity. }
  destruct (IterateLiveObjects_rel (code_space_objects L)
              (@RelocateCodeObject Spaces cfg) CODE_SPACE) with (c := c2) as [R3 W3].
  { intros o c'. unfold RelocateCodeObject.
    destruct (IsCode cfg o); rewrite ?rel_log, ?app_nil_r; reflexivity. }
  { intros o c'. unfold RelocateCodeObject. destruct (IsCode cfg o); reflexivity. }
  destruct (IterateLiveObjects_rel (new_space_objects L)
              (@RelocateNewObject Spaces) NEW_SPACE) with (c := c3) as [R4 W4].
  { intros o c'. apply rel_log. }
  { intros o c'. reflexivity. }
  fold c1 in R1, W1. fold c2 in R2, W2. fold c3 in R3, W3. fold c4 in R4, W4.
  assert (R5 : rel c5 = rel c4).
  { unfold c5. generalize c4. induction (lo_space_objects L) as [|o l IH];
      intros c'; simpl; [reflexivity|].
    rewrite IH. unfold ConvertCodeICTargetToAddress.
    destruct (IsCode cfg o); rewrite ?rel_log, ?app_nil_r; reflexivity. }
  rewrite !rel_log, !app_nil_r, R5, R4, R3, R2, R1, W3, W2, W1.
  change (forwarded c0) with (forwarded c). change (rel c0) with (rel c).
  rewrite <- !app_assoc. reflexivity.
Qed.


End Ordering.

(** *** A whole collection *)

Section Collection.

Context {Spaces : Type}.
Variable MCAllocateRaw : AllocationSpace -> Z -> Spaces -> Z * Spaces.
Variable L : Layout.
Variable cfg : Settings.
Variable Push : Z -> MarkingStack -> MarkingStack.
Variable FreeUnmarkedObjects : State -> State.

(** What [CollectGarbage] relies on of
    [LargeObjectSpace::FreeUnmarkedObjects] (spaces.cc): it clears the
    marks of the large objects, and decrements the marked count once for
    each mark it clears. *)
Definition FreesUnmarked : Prop :=
  forall s, swept (lo_space_objects L) s (FreeUnmarkedObjects s).

Lemma Prepare_heap (c cp : @Collector Spaces) :
  Prepare cfg c = Some cp -> heap cp = heap c.
Proof.
  unfold Prepare. destruct (Prepare_compacting cfg); [|discriminate].
  intros H. injection H as <-. reflexivity.
Qed.

Lemma heap_objects_swept :
  heap_objects L = list_to_set (lo_space_objects L ++ swept_objects L).
Proof.
  unfold heap_objects, all_objects, swept_objects.
  rewrite !list_to_set_app_L. set_solver.
Qed.

(** The marks and the count after the phases that follow the marking. *)
Lemma after_marking_swept (cm : @Collector Spaces) :
  FreesUnmarked ->
  let c1 := SweepLargeObjectSpace FreeUnmarkedObjects cm in
  let c2 :=
    if compacting_collection_ c1 then
      RebuildRSets
        (RelocateObjects L cfg
           (UpdatePointers L (EncodeForwardingAddresses MCAllocateRaw L cfg c1)))
    else SweepSpaces L cfg c1 in
  swept (lo_space_objects L ++ swept_objects L) (heap cm) (heap (Finish c2)).
Proof.
  intros HF c1 c2.
  apply (swept_app _ _ _ (heap c1)); [apply HF|].
  change (heap (Finish c2)) with (heap c2). unfold c2.
  destruct (compacting_collection_ c1).
  - cbn [RebuildRSets heap log set_state enter].
    rewrite RelocateObjects_heap, UpdatePointers_heap.
    apply EncodeForwardingAddresses_swept.
  - apply SweepSpaces_swept.
Qed.

(** The marking phase of a collection returns whatever the fuel that
    makes it return, and leaves a well formed heap. *)
Lemma MarkLiveObjects_inv fuel (c cm : @Collector Spaces) :
  LayoutOk L -> PushStores Push ->
  initial L (heap c) ->
  kPointerSize <= FromSpaceHigh cfg - FromSpaceLow cfg ->
  MarkLiveObjects L cfg Push fuel c = Some cm ->
  inv L (heap cm) /\ drained (heap cm) /\ roots_marked L (heap cm).
Proof.
  intros HL Push_ok Hinit Hroom Hrun.
  destruct (MarkLiveObjects_ok L cfg Push HL Push_ok (Nat.max fuel (enough_fuel L)) c
              Hinit Hroom (Nat.le_max_r _ _)) as (cm' & Hrun' & Hpost).
  rewrite (MarkLiveObjects_fuel L cfg Push fuel _ c cm Hrun (Nat.le_max_l _ _))
    in Hrun'.
  injection Hrun' as <-. exact Hpost.
Qed.




End Collection.

(** *** A collection of the example heap *)

(** An allocator that bumps a pointer. *)
Definition example_MCAllocateRaw (space : AllocationSpace) (size top : Z) : Z * Z :=
  (FromAddress top, top + size).

(** A sweep of the large object space that meets [FreesUnmarked]. *)
Definition example_FreeUnmarkedObjects (L : Layout) (s : State) : State :=
  for_each
    (fun obj s =>
       if IsMarked obj s then decrement_marked_count (ClearMark obj s) else s)
    (lo_space_objects L) s.

Definition example_settings (always_compact : bool) : Settings := {|
  FLAG_always_compact := always_compact;
  FLAG_never_compact := false;
  old_space := {| Waste := 0; AvailableFree := 64; Size := 128 |};
  code_space := {| Waste := 0; AvailableFree := 0; Size := 0 |};
  FromSpaceLow := 0x9000;
  FromSpaceHigh := 0x9008;
  ToSpaceOffsetForAddress := fun a => a - 0x8000;
  IsCode := fun _ => false;
  kArrayHeaderSize := 8;
  kMapSize := 16;
  HEAP_NUMBER_TYPE := 0x90;
  kSeqStringTag := 0
|}.

Definition example_collector : @Collector Z := {|
  heap := {| slots := example_slots; marked := ∅; overflow := ∅;
             marking_stack := {| items := []; limit := 0; overflowed := false |};
             marked_count := 0 |};
  object_groups := [];
  compacting_collection_ := false;
  state_ := IDLE;
  previous_marked_count_ := 0;
  tracer_is_compacting := false;
  forwarded := ∅;
  memory := fun _ => 0;
  spaces := (0x100, []);
  phases := [];
  events := []
|}.

Lemma example_FreeUnmarkedObjects_ok L :
  FreesUnmarked L (example_FreeUnmarkedObjects L).
Proof.
  intros s. unfold example_FreeUnmarkedObjects.
  revert s. induction (lo_space_objects L) as [|obj l IH]; intros s; simpl.
  - apply swept_nil.
  - eapply swept_cons; [|apply IH].
    destruct (IsMarked obj s) eqn:Hm.
    + apply swept_marked_object. exact Hm.
    + apply swept_unmarked_object. exact Hm.
Qed.

Lemma example_initial : initial example_layout (heap example_collector).
Proof.
  split; simpl; try reflexivity.
  - apply (slots_from_holds
             (fun v => IsHeapObject v = true -> v ∈ heap_objects example_layout)).
    + discriminate.
    + repeat constructor; intros _; in_example_heap.
  - apply (slots_from_holds (fun v => v <> 0x2101)).
    + discriminate.
    + repeat constructor; discriminate.
  - intros obj _ H. vm_compute in H. discriminate.
Qed.



(** The example heap with three objects marked and forwarded. *)
Definition example_live_collector : @Collector Z := {|
  heap := {| slots := example_slots; marked := {[0x101; 0x121; 0x4101]};
             overflow := ∅;
             marking_stack := {| items := []; limit := 2; overflowed := false |};
             marked_count := 3 |};
  object_groups := [];
  compacting_collection_ := true;
  state_ := ENCODE_FORWARDING_ADDRESSES;
  previous_marked_count_ := 0;
  tracer_is_compacting := true;
  forwarded := {[0x101; 0x121; 0x4101]};
  memory := fun _ => 0;
  spaces := (0x100, []);
  phases := [];
  events := []
|}.

Lemma example_swept_objects_NoDup : List.NoDup (swept_objects example_layout).
Proof.
  unfold swept_objects, old_space_objects, code_space_objects, map_space_objects,
    objects_of. simpl.
  repeat (constructor; [simpl; intuition discriminate|]).
  constructor.
Qed.


(** With 64 bytes recoverable out of 192 the fragmentation is 33 percent,
    and [Prepare] does not compact. *)
Lemma Prepare_compacting_without_overflow_witness :
  Prepare_compacting (example_settings false) = Some false.
Proof.
  rewrite (Prepare_compacting_without_overflow (example_settings false));
    [reflexivity|vm_compute; try split; congruence..].
Defined.


End Collector.
(** ** The decision of [Prepare] when the old generation is empty
    (mark-compact.cc, lines 118-147) *)

Module Decision.

Import Marking.
Import Promotion.
Import Collector.

(** An old generation of no bytes, and [never_compact] set. *)
Definition empty_settings : Settings := {|
  FLAG_always_compact := false;
  FLAG_never_compact := true;
  old_space := {| Waste := 0; AvailableFree := 0; Size := 0 |};
  code_space := {| Waste := 0; AvailableFree := 0; Size := 0 |};
  FromSpaceLow := 0x9000;
  FromSpaceHigh := 0x9008;
  ToSpaceOffsetForAddress := fun a => a - 0x8000;
  IsCode := fun _ => false;
  kArrayHeaderSize := 8;
  kMapSize := 16;
  HEAP_NUMBER_TYPE := 0x90;
  kSeqStringTag := 0
|}.

(** With sizes that are not negative and an [old_gen_used] that is an
    [int], [Prepare] comes to no decision, and [CollectGarbage] does not
    return, exactly when [always_compact] is unset and the old and the code
    space hold no byte: the division by [old_gen_used] comes before the test
    of [never_compact], which does not prevent it. *)
Theorem Prepare_divides_by_zero {Spaces : Type}
    (MCAllocateRaw : AllocationSpace -> Z -> Spaces -> Z * Spaces)
    (L : Layout) (cfg : Settings) (Push : Z -> MarkingStack -> MarkingStack)
    (FreeUnmarkedObjects : State -> State) :
  0 <= Waste (old_space cfg) -> 0 <= AvailableFree (old_space cfg) ->
  0 <= Waste (code_space cfg) -> 0 <= AvailableFree (code_space cfg) ->
  0 <= Size (old_space cfg) -> 0 <= Size (code_space cfg) ->
  used cfg <= INT_MAX ->
  (Prepare_compacting cfg = None <->
   FLAG_always_compact cfg = false /\ used cfg = 0) /\
  (Prepare_compacting cfg = None ->
   forall fuel c,
     CollectGarbage MCAllocateRaw L cfg Push FreeUnmarkedObjects fuel c = None).
Proof.
  intros Hw1 Ha1 Hw2 Ha2 Hs1 Hs2 Hused.
  split.
  - unfold Prepare_compacting.
    destruct (FLAG_always_compact cfg); cbn [negb].
    { split; [destruct (FLAG_never_compact cfg); discriminate|].
      intros [H _]. discriminate. }
    unfold used, recoverable, INT_MAX in *.
    assert (Hi : forall x, 0 <= x <= 2 ^ 31 - 1 -> wrap_int x = x).
    { intros x Hx. apply wrap_int_small. unfold INT_MIN, INT_MAX. lia. }
    unfold int_add, int_div.
    rewrite (Hi (Waste (old_space cfg) + AvailableFree (old_space cfg))) by lia.
    rewrite (Hi (Waste (old_space cfg) + AvailableFree (old_space cfg)
                 + Waste (code_space cfg))) by lia.
    rewrite (Hi (Waste (old_space cfg) + AvailableFree (old_space cfg)
                 + Waste (code_space cfg) + AvailableFree (code_space cfg))) by lia.
    rewrite (Hi (_ + Size (old_space cfg))) by lia.
    rewrite (Hi (_ + Size (old_space cfg) + Size (code_space cfg))) by lia.
    destruct (Z.eqb_spec
                (Waste (old_space cfg) + AvailableFree (old_space cfg)
                 + Waste (code_space cfg) + AvailableFree (code_space cfg)
                 + Size (old_space cfg) + Size (code_space cfg)) 0) as [H0|H0].
    + split; auto.
    + split; [|intros [_ H]; contradiction].
      destruct (_ >? kFragmentationLimit); destruct (FLAG_never_compact cfg);
        discriminate.
  - intros Hnone fuel c. unfold CollectGarbage, Prepare. rewrite Hnone.
    reflexivity.
Qed.

Lemma Prepare_divides_by_zero_witness :
  CollectGarbage example_MCAllocateRaw example_layout empty_settings
    Push_latching (example_FreeUnmarkedObjects example_layout) 40
    example_collector = None.
Proof.
  destruct (Prepare_divides_by_zero example_MCAllocateRaw example_layout
              empty_settings Push_latching
              (example_FreeUnmarkedObjects example_layout))
    as [Hiff Hnone]; [vm_compute; congruence..|].
  apply Hnone. apply Hiff. split; reflexivity.
Defined.

End Decision.
(** ** More on forwarding addresses and the update of pointers
    (mark-compact.cc, lines 1293-1395) *)

Module PointerUpdate.

Import Forwarding.

Section Pages.

Variable kPageSizeBits : Z.
Variable kObjectStartOffset : Z.
Variable DecodeOffset : Z -> Z.
Variable NewSpace_Contains : Z -> bool.
Variable LargeObjectSpace_Contains : Z -> bool.
Variable FromSpaceLow : Z.
Variable ToSpaceOffsetForAddress : Z -> Z.

Local Abbreviation kPageSize := (kPageSize kPageSizeBits).
Local Abbreviation Page_FromAddress := (Page_FromAddress kPageSizeBits).
Local Abbreviation GetForwardingAddressInOldSpace :=
  (GetForwardingAddressInOldSpace kPageSizeBits kObjectStartOffset DecodeOffset).
Local Abbreviation UpdatePointer :=
  (UpdatePointer kPageSizeBits kObjectStartOffset DecodeOffset
     NewSpace_Contains LargeObjectSpace_Contains FromSpaceLow
     ToSpaceOffsetForAddress).
Local Abbreviation UpdatingVisitor_VisitPointers :=
  (UpdatingVisitor_VisitPointers kPageSizeBits kObjectStartOffset DecodeOffset
     NewSpace_Contains LargeObjectSpace_Contains FromSpaceLow
     ToSpaceOffsetForAddress).

(** The value of [GetForwardingAddressInOldSpace] without the wrap-around
    of its [int]s. *)
Lemma GetForwardingAddressInOldSpace_value (obj : Z) (h : HeapImage) :
  let offset := DecodeOffset (map_word h obj) in
  let first_forwarded :=
    mc_first_forwarded (page h (Page_FromAddress (address obj))) in
  let forwarded_page := Page_FromAddress first_forwarded in
  let mc_top := mc_relocation_top (page h forwarded_page) in
  let next := next_page (page h forwarded_page) in
  0 <= kPageSizeBits <= 28 ->
  0 <= kObjectStartOffset <= kPageSize ->
  0 <= offset <= kPageSize ->
  forwarded_page <= mc_top <= forwarded_page + kPageSize ->
  GetForwardingAddressInOldSpace obj h =
  if first_forwarded + offset <? mc_top then first_forwarded + offset
  else next + kObjectStartOffset + (offset - (mc_top - first_forwarded)).
Proof.
  intros offset first_forwarded forwarded_page mc_top next Hbits Hstart Hoff Htop.
  pose proof (kPageSize_bounds kPageSizeBits Hbits) as Hsize.
  pose proof (Page_FromAddress_bounds kPageSizeBits first_forwarded (proj1 Hbits))
    as Hff.
  fold forwarded_page in Hff.
  unfold Forwarding.GetForwardingAddressInOldSpace.
  fold offset first_forwarded forwarded_page mc_top next.
  unfold Page_Offset, Page_OffsetToAddress, int_add, int_sub.
  assert (Hi : forall x, - 2 ^ 30 <= x <= 2 ^ 30 -> wrap_int x = x).
  { intros x Hx. apply wrap_int_small. unfold INT_MIN, INT_MAX. lia. }
  rewrite (Hi (first_forwarded - forwarded_page)) by lia.
  rewrite (Hi (mc_top - forwarded_page)) by lia.
  rewrite (Hi (first_forwarded - forwarded_page + offset)) by lia.
  rewrite (Hi (mc_top - forwarded_page - (first_forwarded - forwarded_page)))
    by lia.
  rewrite (Hi (offset - (mc_top - forwarded_page
                         - (first_forwarded - forwarded_page)))) by lia.
  destruct (Z.ltb_spec (first_forwarded - forwarded_page + offset)
              (mc_top - forwarded_page));
    destruct (Z.ltb_spec (first_forwarded + offset) mc_top); try lia.
  rewrite Hi by lia. lia.
Qed.

(** Two objects of one page whose map words hold different offsets are
    forwarded to different addresses, and in the order of their offsets
    when both stay in the page of the first forwarding address or both go
    to the next one.  The next page is another page, aligned as pages are,
    and the object forwarded last ends up inside it, as the assertion of
    [GetForwardingAddressInOldSpace] requires. *)
Theorem GetForwardingAddressInOldSpace_injective (obj1 obj2 : Z) (h : HeapImage) :
  let offset1 := DecodeOffset (map_word h obj1) in
  let offset2 := DecodeOffset (map_word h obj2) in
  let first_forwarded :=
    mc_first_forwarded (page h (Page_FromAddress (address obj1))) in
  let forwarded_page := Page_FromAddress first_forwarded in
  let mc_top := mc_relocation_top (page h forwarded_page) in
  let next := next_page (page h forwarded_page) in
  Page_FromAddress (address obj1) = Page_FromAddress (address obj2) ->
  0 <= kPageSizeBits <= 28 ->
  0 <= kObjectStartOffset <= kPageSize ->
  0 <= offset1 < offset2 -> offset2 <= kPageSize ->
  forwarded_page <= mc_top <= forwarded_page + kPageSize ->
  next mod kPageSize = 0 -> next <> forwarded_page ->
  kObjectStartOffset + (offset2 - (mc_top - first_forwarded)) < kPageSize ->
  GetForwardingAddressInOldSpace obj1 h <> GetForwardingAddressInOldSpace obj2 h /\
  ((first_forwarded + offset2 < mc_top \/ mc_top <= first_forwarded + offset1) ->
   GetForwardingAddressInOldSpace obj1 h < GetForwardingAddressInOldSpace obj2 h).
Proof.
  intros offset1 offset2 first_forwarded forwarded_page mc_top next
    Hpage Hbits Hstart Hoff Hoff2 Htop Halign Hne Hfit.
  pose proof (kPageSize_bounds kPageSizeBits Hbits) as Hsize.
  pose proof (Page_FromAddress_bounds kPageSizeBits first_forwarded (proj1 Hbits))
    as Hff.
  fold forwarded_page in Hff.
  rewrite (GetForwardingAddressInOldSpace_value obj1 h);
    [|assumption|assumption|fold offset1; lia|assumption].
  rewrite (GetForwardingAddressInOldSpace_value obj2 h); try assumption.
  2:{ fold offset2. lia. }
  2:{ rewrite <- Hpage. exact Htop. }
  rewrite <- Hpage.
  fold offset1 offset2 first_forwarded forwarded_page mc_top next.
  assert (Hdisj : next + kPageSize <= forwarded_page \/
                  forwarded_page + kPageSize <= next).
  { assert (Hf : forwarded_page mod kPageSize = 0).
    { unfold forwarded_page.
      rewrite (Page_FromAddress_spec kPageSizeBits _ (proj1 Hbits)).
      rewrite Zminus_mod, Z.mod_mod, Z.sub_diag by lia. apply Z.mod_0_l. lia. }
    apply Z.mod_divide in Halign; [|lia]. apply Z.mod_divide in Hf; [|lia].
    destruct Halign as [n Hn]. destruct Hf as [m Hm].
    assert (n <> m) by (intros ->; lia). nia. }
  destruct (Z.ltb_spec (first_forwarded + offset1) mc_top);
    destruct (Z.ltb_spec (first_forwarded + offset2) mc_top); split; lia.
Qed.

(** [UpdatePointer] does not move a pointer into the large object space:
    the slot holds the same pointer afterwards, no other word of memory and
    no page header changes, and this is so after every run of the updating
    visitor over any range of slots. *)
Theorem UpdatePointer_keeps_large_object_pointer (p : Z) (h : HeapImage) :
  let obj := Memory.Address_at (memory h) p in
  IsHeapObject obj = true ->
  NewSpace_Contains obj = false ->
  LargeObjectSpace_Contains obj = true ->
  (forall q,
     Memory.Address_at (memory (UpdatePointer p h)) q
     = Memory.Address_at (memory h) q) /\
  page (UpdatePointer p h) = page h /\
  forall (n : nat) (start : Z),
    Memory.Address_at (memory (UpdatingVisitor_VisitPointers n start h)) p = obj.
Proof.
  intros obj Hheap Hnew Hlo.
  assert (Hone : forall h',
    Memory.Address_at (memory h') p = obj ->
    Memory.Address_at (memory (UpdatePointer p h')) p = obj).
  { intros h' Hp. unfold Forwarding.UpdatePointer. rewrite Hp, Hheap, Hnew, Hlo.
    simpl. unfold Memory.Address_at, Memory.store.
    rewrite decide_True by reflexivity.
    unfold FromAddress, address, kHeapObjectTag.
    replace (obj - 1 + 1) with obj by lia.
    unfold wrap_uint32. rewrite Z.mod_mod by lia.
    unfold obj, Memory.Address_at, wrap_uint32. apply Z.mod_mod. lia. }
  split; [|split].
  - intros q. destruct (decide (q = p)) as [->|Hq].
    + apply Hone. reflexivity.
    + unfold Memory.Address_at.
      destruct (UpdatePointer_frame kPageSizeBits kObjectStartOffset DecodeOffset
                  NewSpace_Contains LargeObjectSpace_Contains FromSpaceLow
                  ToSpaceOffsetForAddress p q h Hq) as [-> _].
      reflexivity.
  - unfold Forwarding.UpdatePointer.
    destruct (negb (IsHeapObject _)); reflexivity.
  - intros n.
    assert (Hgen : forall h' start,
      Memory.Address_at (memory h') p = obj ->
      Memory.Address_at (memory (UpdatingVisitor_VisitPointers n start h')) p = obj).
    { induction n as [|n IH]; intros h' start Hp; [exact Hp|].
      simpl. apply IH. destruct (decide (p = start)) as [<-|Hne].
      - apply Hone. exact Hp.
      - unfold Memory.Address_at in *.
        destruct (UpdatePointer_frame kPageSizeBits kObjectStartOffset
                    DecodeOffset NewSpace_Contains LargeObjectSpace_Contains
                    FromSpaceLow ToSpaceOffsetForAddress start p h' Hne)
          as [-> _].
        exact Hp. }
    intros start. apply Hgen. reflexivity.
Qed.

End Pages.

(** Two objects of page 0x10000, at offsets 0x100 and 0x280 of the live
    bytes: the first stays in the page of the first forwarding address,
    the second goes to the next page. *)
Definition example_offsets (word : Z) : Z :=
  if word =? 7 then 0x100 else 0x280.

Definition example_words : HeapImage :=
  {| memory := fun a => if a =? 0x10400 then 7 else 9;
     page := fun _ => {| mc_first_forwarded := 0x10100;
                         mc_relocation_top := 0x10300;
                         next_page := 0x12000 |} |}.

Lemma GetForwardingAddressInOldSpace_injective_witness :
  GetForwardingAddressInOldSpace 13 256 example_offsets 0x10401 example_words
  <> GetForwardingAddressInOldSpace 13 256 example_offsets 0x10801 example_words.
Proof.
  pose proof (GetForwardingAddressInOldSpace_injective 13 256 example_offsets
                0x10401 0x10801 example_words) as H.
  cbv zeta in H.
  destruct H as [H _]; [vm_compute; try split; congruence..|exact H].
Defined.

(** A slot at 0x20000 that holds the large object 0x30001. *)
Definition example_large_object_slot : HeapImage :=
  {| memory := fun a => if a =? 0x20000 then 0x30001 else 0;
     page := fun _ => {| mc_first_forwarded := 0x10100;
                         mc_relocation_top := 0x10300;
                         next_page := 0x12000 |} |}.

Lemma UpdatePointer_keeps_large_object_pointer_witness :
  Memory.Address_at
    (memory (UpdatePointer 13 256 example_offsets (fun _ => false)
               (fun v => 0x30000 <=? v) 0 (fun a => a) 0x20000
               example_large_object_slot)) 0x20000 = 0x30001.
Proof.
  destruct (UpdatePointer_keeps_large_object_pointer 13 256 example_offsets
              (fun _ => false) (fun v => 0x30000 <=? v) 0 (fun a => a) 0x20000
              example_large_object_slot) as [H _]; [reflexivity..|].
  rewrite H. reflexivity.
Defined.

End PointerUpdate.
(** ** Forwarding addresses of new space objects
    (mark-compact.cc, lines 783-792, 836-897 and 1333-1355) *)

Module NewSpaceForwarding.

Import Marking.
Import Promotion.
Import Collector.

Section Encoded.

Context {Spaces : Type}.
Variable MCAllocateRaw : AllocationSpace -> Z -> Spaces -> Z * Spaces.
Variable L : Layout.
Variable cfg : Settings.

(** The word of from space that holds the forwarding address of a new
    space object. *)
Definition forwarding_word (object : Z) : Z :=
  FromSpaceLow cfg + ToSpaceOffsetForAddress cfg (address object).

Section Range.

Variable Alloc : @AllocationFunction Spaces.
Variable ProcessNonLive : @ProcessNonLiveFunction Spaces.
Hypothesis Alloc_memory : forall o z c, memory (snd (Alloc o z c)) = memory c.
Hypothesis Alloc_events : forall o z c, events (snd (Alloc o z c)) = events c.
Hypothesis ProcessNonLive_memory : forall o c, memory (ProcessNonLive o c) = memory c.
Hypothesis ProcessNonLive_events : forall o c, events (ProcessNonLive o c) = events c.

Lemma EncodeForwardingAddressesInRange_loop_words objects :
  forall free_start alive offset (c : @Collector Spaces),
    List.NoDup objects ->
    (forall o o', In o objects -> In o' objects ->
       forwarding_word o = forwarding_word o' -> o = o') ->
    (forall o o', In o objects -> In o' objects ->
       forwarding_word o <> address o' /\
       forwarding_word o <> address o' + kIntSize) ->
    (alive = false -> forall o, In o objects ->
       forwarding_word o <> free_start /\
       forwarding_word o <> free_start + kIntSize) ->
    let result :=
      EncodeForwardingAddressesInRange_loop L Alloc
        (EncodeForwardingAddressInNewSpace cfg) ProcessNonLive
        objects free_start alive offset c in
    let free_start' := fst (fst (fst result)) in
    let alive' := snd (fst (fst result)) in
    let c' := snd result in
    (forall b,
       (forall o, In o objects ->
          b <> forwarding_word o /\ b <> address o /\ b <> address o + kIntSize) ->
       (alive = false -> b <> free_start /\ b <> free_start + kIntSize) ->
       memory c' b = memory c b) /\
    (forall o a,
       In (Forwarded o a) (events c') ->
       In (Forwarded o a) (events c) \/
       (In o objects /\
        Memory.Address_at (memory c') (forwarding_word o) = wrap_uint32 a)) /\
    (alive' = false ->
     (alive = false /\ free_start' = free_start) \/
     exists o, In o objects /\ free_start' = address o).
Proof.
  induction objects as [|object rest IH];
    intros free_start alive offset c Hnodup Hinj Hsep Hfs; simpl.
  - split; [reflexivity|]. split; [auto|]. intros ->. left. auto.
  - inversion Hnodup as [|? ? Hnotin Hnodup']; subst.
    assert (Hinj' : forall o o', In o rest -> In o' rest ->
              forwarding_word o = forwarding_word o' -> o = o')
      by (intros o o' Ho Ho'; apply Hinj; right; assumption).
    assert (Hsep' : forall o o', In o rest -> In o' rest ->
              forwarding_word o <> address o' /\
              forwarding_word o <> address o' + kIntSize)
      by (intros o o' Ho Ho'; apply Hsep; right; assumption).
    destruct (IsMarked object (heap c)).
    + destruct (Alloc object _ _) as [forwarded c1] eqn:HA.
      pose proof (Alloc_memory object (object_size L object)
                    (with_heap decrement_marked_count
                       (with_heap (ClearMark object) c))) as M1.
      pose proof (Alloc_events object (object_size L object)
                    (with_heap decrement_marked_count
                       (with_heap (ClearMark object) c))) as E1.
      rewrite HA in M1, E1. simpl in M1, E1.
      unfold EncodeForwardingAddressInNewSpace at 1. cbv zeta.
      fold (forwarding_word object).
      match goal with
      | |- context [EncodeForwardingAddressesInRange_loop _ _ _ _ rest
                      free_start true offset ?c0] =>
          set (c5 := c0);
          destruct (IH free_start true offset c5 Hnodup' Hinj' Hsep'
                      ltac:(discriminate)) as (Hframe & Hev & Hfin)
      end.
      assert (Hm5 : forall b,
        b <> forwarding_word object ->
        (alive = false -> b <> free_start /\ b <> free_start + kIntSize) ->
        memory c5 b = memory c b).
      { intros b Hb Hbf. unfold c5.
        destruct alive; cbn [negb]; simpl.
        - rewrite Memory.store_ne by congruence. rewrite M1. reflexivity.
        - destruct (Hbf eq_refl) as [Hb1 Hb2].
          rewrite FreeRegion.EncodeFreeRegion_frame by assumption.
          rewrite Memory.store_ne by congruence. rewrite M1. reflexivity. }
      assert (Hw5 :
        Memory.Address_at (memory c5) (forwarding_word object)
        = wrap_uint32 (address forwarded)).
      { unfold c5. unfold Memory.Address_at.
        destruct alive; cbn [negb]; simpl.
        - unfold Memory.store. rewrite decide_True by reflexivity.
          unfold wrap_uint32. apply Z.mod_mod. lia.
        - destruct (Hfs eq_refl object (or_introl eq_refl)) as [Hb1 Hb2].
          rewrite FreeRegion.EncodeFreeRegion_frame by assumption.
          unfold Memory.store. rewrite decide_True by reflexivity.
          unfold wrap_uint32. apply Z.mod_mod. lia. }
      assert (He5 : events c5
                    = events c ++ [Forwarded object (address forwarded)]).
      { unfold c5. destruct alive; cbn [negb]; simpl; rewrite E1; reflexivity. }
      split; [|split].
      * intros b Hb Hbf. rewrite Hframe.
        -- apply Hm5; [apply (Hb object); left; reflexivity|exact Hbf].
        -- intros o Ho. apply Hb. right. exact Ho.
        -- discriminate.
      * intros o a Hin. destruct (Hev o a Hin) as [Hold|[Ho Hw]].
        -- rewrite He5 in Hold. apply in_app_or in Hold as [Hold|Hnew];
             [left; exact Hold|].
           destruct Hnew as [Heq|[]]. injection Heq as <- <-.
           right. split; [left; reflexivity|].
           unfold Memory.Address_at in *. rewrite Hframe; [exact Hw5| |discriminate].
           intros o Ho. split; [|apply Hsep; [left; reflexivity|right; exact Ho]].
           intros Heq. apply Hnotin.
           rewrite (Hinj object o (or_introl eq_refl) (or_intror Ho) Heq).
           exact Ho.
        -- right. split; [right; exact Ho|exact Hw].
      * intros Hal. destruct (Hfin Hal) as [[Hd _]|(o & Ho & ->)];
          [discriminate|].
        right. exists o. split; [right; exact Ho|reflexivity].
    + assert (Hgoal : forall fs al,
        (al = false -> forall o, In o rest ->
           forwarding_word o <> fs /\ forwarding_word o <> fs + kIntSize) ->
        (al = false -> (alive = false /\ fs = free_start) \/ fs = address object) ->
        (alive = false -> al = false) ->
        let result :=
          EncodeForwardingAddressesInRange_loop L Alloc
            (EncodeForwardingAddressInNewSpace cfg) ProcessNonLive
            rest fs al offset (ProcessNonLive object c) in
        (forall b,
           (forall o, In o (object :: rest) ->
              b <> forwarding_word o /\ b <> address o /\ b <> address o + kIntSize) ->
           (alive = false -> b <> free_start /\ b <> free_start + kIntSize) ->
           memory (snd result) b = memory c b) /\
        (forall o a,
           In (Forwarded o a) (events (snd result)) ->
           In (Forwarded o a) (events c) \/
           (In o (object :: rest) /\
            Memory.Address_at (memory (snd result)) (forwarding_word o)
            = wrap_uint32 a)) /\
        (snd (fst (fst result)) = false ->
         (alive = false /\ fst (fst (fst result)) = free_start) \/
         exists o, In o (object :: rest) /\ fst (fst (fst result)) = address o)).
      { intros fs al Hfs' Hfrom Hal.
        destruct (IH fs al offset (ProcessNonLive object c) Hnodup' Hinj' Hsep' Hfs')
          as (Hframe & Hev & Hfin).
        cbv zeta. split; [|split].
        - intros b Hb Hbf. rewrite Hframe, ProcessNonLive_memory; [reflexivity| |].
          + intros o Ho. apply Hb. right. exact Ho.
          + intros Hal'. destruct (Hfrom Hal') as [[Hd ->]| ->].
            * apply Hbf. exact Hd.
            * destruct (Hb object (or_introl eq_refl)) as (_ & H1 & H2). auto.
        - intros o a Hin. destruct (Hev o a Hin) as [Hold|[Ho Hw]].
          + left. rewrite ProcessNonLive_events in Hold. exact Hold.
          + right. split; [right; exact Ho|exact Hw].
        - intros Hal'. destruct (Hfin Hal') as [[Hd ->]|(o & Ho & ->)].
          + destruct (Hfrom Hd) as [[Hd' ->]| ->]; [left; auto|].
            right. exists object. split; [left; reflexivity|reflexivity].
          + right. exists o. split; [right; exact Ho|reflexivity]. }
      destruct alive.
      * apply Hgoal; [|auto|discriminate].
        intros _ o Ho. apply Hsep; [right; exact Ho|left; reflexivity].
      * apply Hgoal; [|auto|auto].
        intros _ o Ho. apply Hfs; [reflexivity|right; exact Ho].
Qed.

End Range.

(** The forwarding address that phase 2 allocates for a live object of
    new space is the one phase 3 reads back: after
    [EncodeForwardingAddressesInNewSpace], the word of from space at the
    offset of the object holds the address logged for it, and
    [UpdatePointer] makes a slot that points to the object point to that
    address.  The objects of new space are listed once, have distinct
    offsets, and their words of from space are apart from the first two
    words of each of them, where free regions are encoded. *)
Theorem new_space_pointers_follow_forwarding (c : @Collector Spaces) :
  List.NoDup (new_space_objects L) ->
  (forall o o', In o (new_space_objects L) -> In o' (new_space_objects L) ->
     forwarding_word o = forwarding_word o' -> o = o') ->
  (forall o o', In o (new_space_objects L) -> In o' (new_space_objects L) ->
     forwarding_word o <> address o' /\
     forwarding_word o <> address o' + kIntSize) ->
  let c' := EncodeForwardingAddressesInNewSpace MCAllocateRaw L cfg c in
  forall o a,
    In (Forwarded o a) (events c') -> ~ In (Forwarded o a) (events c) ->
    0 <= a -> a + kHeapObjectTag < 2 ^ 32 ->
    Memory.Address_at (memory c') (forwarding_word o) = a /\
    forall kPageSizeBits kObjectStartOffset DecodeOffset NewSpace_Contains
           LargeObjectSpace_Contains page p,
      NewSpace_Contains o = true -> IsHeapObject o = true ->
      Memory.Address_at (memory c') p = o ->
      Memory.Address_at
        (Forwarding.memory
           (Forwarding.UpdatePointer kPageSizeBits kObjectStartOffset
              DecodeOffset NewSpace_Contains LargeObjectSpace_Contains
              (FromSpaceLow cfg) (ToSpaceOffsetForAddress cfg) p
              {| Forwarding.memory := memory c'; Forwarding.page := page |})) p
      = FromAddress a.
Proof.
  intros Hnodup Hinj Hsep c' o a Hin Hnew Ha0 Ha1.
  assert (Hword : Memory.Address_at (memory c') (forwarding_word o) = a).
  { unfold c', EncodeForwardingAddressesInNewSpace,
      EncodeForwardingAddressesInRange in *.
    pose proof (EncodeForwardingAddressesInRange_loop_words
                  (MCAllocateFromNewSpace MCAllocateRaw L cfg) IgnoreNonLiveObject
                  ltac:(intros; unfold MCAllocateFromNewSpace, on_spaces;
                        destruct (Promotion.MCAllocateFromNewSpace _ _ _ _ _ _ _ _ _);
                        reflexivity)
                  ltac:(intros; unfold MCAllocateFromNewSpace, on_spaces;
                        destruct (Promotion.MCAllocateFromNewSpace _ _ _ _ _ _ _ _ _);
                        reflexivity)
                  ltac:(reflexivity) ltac:(reflexivity)
                  (new_space_objects L) 0 true 0 c Hnodup Hinj Hsep
                  ltac:(discriminate)) as H.
    cbv zeta in H.
    destruct (EncodeForwardingAddressesInRange_loop _ _ _ _ _ _ _ _ _)
      as [[[free_start alive] offset'] c1].
    simpl in H, Hin |- *. destruct H as (_ & Hev & Hfin).
    assert (Hin1 : In (Forwarded o a) (events c1))
      by (destruct alive; exact Hin).
    destruct (Hev o a Hin1) as [Hold|[Ho Hw]]; [contradiction|].
    assert (Hw' : Memory.Address_at (memory c1) (forwarding_word o) = a).
    { rewrite Hw. apply wrap_uint32_small. unfold kHeapObjectTag in *. lia. }
    destruct alive; cbn [negb]; [exact Hw'|].
    destruct (Hfin eq_refl) as [[Hd _]|(o' & Ho' & ->)]; [discriminate|].
    destruct (Hsep o o' Ho Ho') as [H1 H2].
    unfold Memory.Address_at in *. simpl.
    rewrite FreeRegion.EncodeFreeRegion_frame by assumption. exact Hw'. }
  split; [exact Hword|].
  intros kPageSizeBits kObjectStartOffset DecodeOffset NewSpace_Contains
    LargeObjectSpace_Contains page p Hnsc Hheap Hp.
  unfold Forwarding.UpdatePointer. cbn [Forwarding.memory].
  rewrite Hp, Hheap, Hnsc. cbn [negb Forwarding.set_memory Forwarding.memory].
  fold (forwarding_word o). rewrite Hword.
  unfold Memory.Address_at, Memory.store. rewrite decide_True by reflexivity.
  unfold wrap_uint32. rewrite Z.mod_mod by lia.
  apply Z.mod_small. unfold FromAddress, kHeapObjectTag in *. lia.
Qed.

End Encoded.

(** A new space of two objects of 16 bytes, the first one live. *)
Definition example_new_space : Layout := {|
  map_of := fun _ => 0x4101;
  instance_type := fun _ => 0xA0;
  object_size := fun _ => 16;
  body_ranges := fun _ => [];
  InNewSpace := fun v => (0x8000 <=? v) && (v <? 0x8020);
  new_space_bottom := 0x8000;
  new_space_top := 0x8020;
  new_space_objects := [0x8001; 0x8011];
  old_space_pages := [];
  code_space_pages := [];
  map_space_pages := [];
  lo_space_objects := [];
  strong_roots := [];
  weak_roots := [];
  symbol_table := 0x2101;
  symbol_table_prefix := [];
  symbol_table_elements := [];
  empty_string := 0x2111;
  empty_fixed_array := 0x2121;
  null_value := 0x2131;
  FIRST_NONSTRING_TYPE := 0x80;
  kStringRepresentationMask := 0x3;
  kConsStringTag := 0x1;
  MAP_TYPE := 0xA1;
  kFirstIndex := 0;
  kSecondIndex := 1;
  kCodeCacheIndex := 2;
  FLAG_cleanup_caches_in_maps_at_gc := false;
  stack_headroom := 4
|}.

(** The slot at 0x7000 points to the live object 0x8001. *)
Definition example_new_space_collector : @Collector Z := {|
  heap := {| slots := fun _ => 0; marked := {[0x8001]}; overflow := ∅;
             marking_stack := {| items := []; limit := 2; overflowed := false |};
             marked_count := 1 |};
  object_groups := [];
  compacting_collection_ := true;
  state_ := ENCODE_FORWARDING_ADDRESSES;
  previous_marked_count_ := 0;
  tracer_is_compacting := true;
  forwarded := ∅;
  memory := fun a => if a =? 0x7000 then 0x8001 else 0;
  spaces := (0x100, []);
  phases := [];
  events := []
|}.

(** The object 0x8001 is promoted to 0x100, and the slot is updated to
    point there. *)
Lemma new_space_pointers_follow_forwarding_witness :
  Memory.Address_at
    (Forwarding.memory
       (Forwarding.UpdatePointer 13 256 (fun _ => 0)
          (fun v => (0x8000 <=? v) && (v <? 0x8020)) (fun _ => false)
          0x9000 (fun a => a - 0x8000) 0x7000
          {| Forwarding.memory :=
               memory (EncodeForwardingAddressesInNewSpace example_MCAllocateRaw
                         example_new_space (example_settings true)
                         example_new_space_collector);
             Forwarding.page := fun _ =>
               {| Forwarding.mc_first_forwarded := 0;
                  Forwarding.mc_relocation_top := 0;
                  Forwarding.next_page := 0 |} |})) 0x7000
  = 0x101.
Proof.
  pose proof (new_space_pointers_follow_forwarding example_MCAllocateRaw
                example_new_space (example_settings true)
                example_new_space_collector) as H.
  cbv zeta in H.
  destruct (H ltac:(repeat (constructor; [simpl; intuition discriminate|]);
                    constructor)
              ltac:(simpl; intros o o' [<-|[<-|[]]] [<-|[<-|[]]];
                    vm_compute; congruence)
              ltac:(simpl; intros o o' [<-|[<-|[]]] [<-|[<-|[]]];
                    vm_compute; split; congruence)
              0x8001 0x100
              ltac:(vm_compute; auto) ltac:(simpl; tauto)
              ltac:(lia) ltac:(unfold kHeapObjectTag; lia)) as [_ Hp].
  apply Hp; reflexivity.
Defined.

End NewSpaceForwarding.
(** ** The walk over the live objects of an encoded range
    (mark-compact.cc, lines 836-886 and 1083-1101) *)

Module LiveWalk.

Import Marking.
Import Promotion.
Import Collector.
Import FreeRegion.

Section Walk.

Context {Spaces St : Type}.
Variable L : Layout.

(** The parameters of the template [EncodeForwardingAddressesInRange]. *)
Variable Alloc : @AllocationFunction Spaces.
Variable Encode : @EncodingFunction Spaces.
Variable ProcessNonLive : @ProcessNonLiveFunction Spaces.

(** The range, the objects in it and the marked ones among them. *)
Variable start end_ : Z.
Variable all : list Z.
Variable M : gset Z.

(** The state of the walk and its size callback. *)
Variable st_memory : St -> Memory.t.
Variable size_func : Z -> St -> Z * St.

Definition in_range (b : Z) : Prop := start <= b < end_.

(** A size in words, of one word at least. *)
Definition word_sized (s : Z) : Prop :=
  kPointerSize <= s /\ s mod kPointerSize = 0.

(** The objects lie one after the other from [cur] to the end of the
    range. *)
Fixpoint contiguous (cur : Z) (objects : list Z) : Prop :=
  match objects with
  | [] => cur = end_
  | o :: rest =>
      address o = cur /\ word_sized (object_size L o) /\
      contiguous (cur + object_size L o) rest
  end.

(** A byte of an object that is not marked. *)
Definition dead_word (b : Z) : Prop :=
  exists o, In o all /\ (o ∉ M) /\ address o <= b < address o + object_size L o.

(** The collector after the loop and the encoding of the last free
    region. *)
Definition finish (r : Z * bool * Z * @Collector Spaces) : @Collector Spaces :=
  let '(free_start, is_prev_alive, offset, c) := r in
  if negb is_prev_alive then
    with_memory (EncodeFreeRegion free_start (int_sub end_ free_start)) c
  else c.

Lemma EncodeForwardingAddressesInRange_finish objects offset c :
  snd (EncodeForwardingAddressesInRange L Alloc Encode ProcessNonLive
         objects end_ offset c)
  = finish (EncodeForwardingAddressesInRange_loop L Alloc Encode ProcessNonLive
              objects 0 true offset c).
Proof.
  unfold EncodeForwardingAddressesInRange, finish.
  destruct (EncodeForwardingAddressesInRange_loop _ _ _ _ _ _ _ _ _)
    as [[[free_start alive] offset'] c1].
  reflexivity.
Qed.

Lemma contiguous_le objects : forall cur, contiguous cur objects -> cur <= end_.
Proof.
  induction objects as [|o rest IH]; intros cur H; simpl in H; [lia|].
  destruct H as (_ & [Hs _] & Hrest). apply IH in Hrest.
  unfold kPointerSize in Hs. lia.
Qed.

Lemma contiguous_length objects :
  forall cur, contiguous cur objects ->
    cur + kPointerSize * Z.of_nat (length objects) <= end_.
Proof.
  induction objects as [|o rest IH]; intros cur H; simpl in H.
  - simpl. lia.
  - destruct H as (_ & [Hs _] & Hrest). apply IH in Hrest.
    cbn [length]. unfold kPointerSize in *. lia.
Qed.

Lemma contiguous_ge objects :
  forall cur o, contiguous cur objects -> In o objects -> cur <= address o.
Proof.
  induction objects as [|o' rest IH]; intros cur o H Ho; [destruct Ho|].
  simpl in H. destruct H as (Ha & [Hs _] & Hrest).
  destruct Ho as [->|Ho]; [lia|].
  apply (IH _ _ Hrest) in Ho. unfold kPointerSize in Hs. lia.
Qed.

Hypothesis Alloc_heap : forall o z c, heap (snd (Alloc o z c)) = heap c.
Hypothesis Encode_heap : forall o z n k c, heap (snd (Encode o z n k c)) = heap c.
Hypothesis ProcessNonLive_heap : forall o c, heap (ProcessNonLive o c) = heap c.
Hypothesis Alloc_memory :
  forall o z c b, in_range b -> memory (snd (Alloc o z c)) b = memory c b.
Hypothesis Encode_memory :
  forall o z n k c b, in_range b -> memory (snd (Encode o z n k c)) b = memory c b.
Hypothesis ProcessNonLive_memory :
  forall o c b, in_range b -> memory (ProcessNonLive o c) b = memory c b.

(** The loop writes at the start of the free region at hand and above. *)
Lemma EncodeForwardingAddressesInRange_loop_below rest :
  forall cur free_start alive offset c,
    contiguous cur rest ->
    (alive = false -> free_start <= cur) ->
    forall b, in_range b -> b < (if alive then cur else free_start) ->
      memory (finish (EncodeForwardingAddressesInRange_loop L Alloc Encode
                        ProcessNonLive rest free_start alive offset c)) b
      = memory c b.
Proof.
  induction rest as [|o rest IH]; intros cur free_start alive offset c Hc Hfs b Hb Hlt.
  - simpl. destruct alive; cbn [negb]; [reflexivity|]. simpl.
    apply EncodeFreeRegion_frame; unfold kIntSize; lia.
  - simpl in Hc. destruct Hc as (Ha & [Hs _] & Hrest).
    unfold kPointerSize in Hs. simpl.
    destruct (IsMarked o (heap c)).
    + destruct (Alloc o _ _) as [forwarded c1] eqn:HA.
      destruct (Encode o _ forwarded offset c1) as [offset' c2] eqn:HE.
      pose proof (Alloc_memory o (object_size L o)
                    (with_heap decrement_marked_count (with_heap (ClearMark o) c))
                    b Hb) as M1.
      rewrite HA in M1.
      pose proof (Encode_memory o (object_size L o) forwarded offset c1 b Hb) as M2.
      rewrite HE in M2. simpl in M1, M2.
      rewrite (IH (cur + object_size L o) free_start true offset' _ Hrest
                 ltac:(discriminate) b Hb).
      * destruct alive; cbn [negb]; simpl.
        -- rewrite M2, M1. reflexivity.
        -- rewrite EncodeFreeRegion_frame by (unfold kIntSize; lia).
           rewrite M2, M1. reflexivity.
      * destruct alive; [lia|]. specialize (Hfs eq_refl). lia.
    + destruct alive.
      * rewrite (IH (cur + object_size L o) (address o) false offset _ Hrest
                   ltac:(lia) b Hb ltac:(simpl in *; lia)).
        apply ProcessNonLive_memory. exact Hb.
      * rewrite (IH (cur + object_size L o) free_start false offset _ Hrest
                   ltac:(specialize (Hfs eq_refl); lia) b Hb Hlt).
        apply ProcessNonLive_memory. exact Hb.
Qed.

(** The steps of the walk. *)
Lemma walk_skip fuel current live st s :
  current < end_ -> kPointerSize <= s <= INT_MAX ->
  (if s =? kIntSize
   then Memory.uint32_at (st_memory st) current = kSingleFreeEncoding
   else Memory.uint32_at (st_memory st) current = kMultiFreeEncoding /\
        Memory.int_at (st_memory st) (current + kIntSize) = s) ->
  IterateLiveObjectsInRange_loop st_memory size_func (S fuel) current end_ live st
  = IterateLiveObjectsInRange_loop st_memory size_func fuel (current + s) end_ live st.
Proof.
  intros Hlt Hs Henc. simpl.
  destruct (Z.ltb_spec current end_) as [_|?]; [|lia].
  unfold IterateLiveObjectsInRange_step.
  destruct (Z.eqb_spec s kIntSize) as [->|Hne].
  - rewrite Henc. reflexivity.
  - destruct Henc as [-> ->]. reflexivity.
Qed.

Lemma walk_live fuel current live st :
  current < end_ ->
  Memory.uint32_at (st_memory st) current <> kSingleFreeEncoding ->
  Memory.uint32_at (st_memory st) current <> kMultiFreeEncoding ->
  IterateLiveObjectsInRange_loop st_memory size_func (S fuel) current end_ live st
  = IterateLiveObjectsInRange_loop st_memory size_func fuel
      (current + fst (size_func (FromAddress current) st)) end_
      (int_add live 1) (snd (size_func (FromAddress current) st)).
Proof.
  intros Hlt H0 H1. simpl.
  destruct (Z.ltb_spec current end_) as [_|?]; [|lia].
  unfold IterateLiveObjectsInRange_step.
  destruct (Z.eqb_spec (Memory.uint32_at (st_memory st) current)
              kSingleFreeEncoding); [contradiction|].
  destruct (Z.eqb_spec (Memory.uint32_at (st_memory st) current)
              kMultiFreeEncoding); [contradiction|].
  destruct (size_func (FromAddress current) st). reflexivity.
Qed.

(** What memory holds where a free region was encoded. *)
Lemma EncodeFreeRegion_encoding m a s :
  kPointerSize <= s <= INT_MAX ->
  if s =? kIntSize
  then Memory.uint32_at (EncodeFreeRegion a s m) a = kSingleFreeEncoding
  else Memory.uint32_at (EncodeFreeRegion a s m) a = kMultiFreeEncoding /\
       Memory.int_at (EncodeFreeRegion a s m) (a + kIntSize) = s.
Proof.
  intros Hs. destruct (Z.eqb_spec s kIntSize) as [->|Hne].
  - apply EncodeFreeRegion_single.
  - destruct (EncodeFreeRegion_multi m a s Hne) as [H1 H2].
    split; [exact H1|]. rewrite H2. apply wrap_int_small.
    unfold INT_MIN, kPointerSize in *. lia.
Qed.

Hypothesis range_int : end_ - start <= INT_MAX.
Hypothesis size_func_size :
  forall o st, In o all -> fst (size_func o st) = object_size L o.
Hypothesis size_func_frame :
  forall o st b, In o all -> address o + object_size L o <= b ->
    st_memory (snd (size_func o st)) b = st_memory st b.

Definition is_live (o : Z) : bool := bool_decide (o ∈ M).
Definition visit (st : St) (o : Z) : St := snd (size_func o st).

(** A state whose memory holds the words of a free region as the
    encoding left them. *)
Lemma free_region_seen st m a s :
  kPointerSize <= s <= INT_MAX ->
  st_memory st a = EncodeFreeRegion a s m a ->
  (s <> kIntSize ->
   st_memory st (a + kIntSize) = EncodeFreeRegion a s m (a + kIntSize)) ->
  if s =? kIntSize
  then Memory.uint32_at (st_memory st) a = kSingleFreeEncoding
  else Memory.uint32_at (st_memory st) a = kMultiFreeEncoding /\
       Memory.int_at (st_memory st) (a + kIntSize) = s.
Proof.
  intros Hs H1 H2. pose proof (EncodeFreeRegion_encoding m a s Hs) as H.
  unfold Memory.uint32_at, Memory.int_at in *.
  destruct (Z.eqb_spec s kIntSize) as [->|Hne].
  - rewrite H1. exact H.
  - rewrite H1, (H2 Hne). exact H.
Qed.

Lemma walk_end fuel live st :
  IterateLiveObjectsInRange_loop st_memory size_func fuel end_ end_ live st
  = Some (live, st).
Proof. destruct fuel; simpl; rewrite Z.ltb_irrefl; reflexivity. Qed.

Lemma walk_suffix rest :
  forall cur free_start (alive : bool) offset c st live fuel,
    contiguous cur rest ->
    (forall o, In o rest -> In o all) ->
    start <= (if alive then cur else free_start) ->
    (alive = false ->
     free_start < cur /\ (cur - free_start) mod kPointerSize = 0 /\
     forall b, free_start <= b < cur -> dead_word b) ->
    (forall o, In o rest -> (o ∈ marked (heap c) <-> o ∈ M)) ->
    (forall b, dead_word b -> (if alive then cur else free_start) <= b ->
       st_memory st b
       = memory (finish (EncodeForwardingAddressesInRange_loop L Alloc Encode
                           ProcessNonLive rest free_start alive offset c)) b) ->
    (forall o, In o rest -> o ∈ M ->
       Memory.uint32_at (st_memory st) (address o) <> kSingleFreeEncoding /\
       Memory.uint32_at (st_memory st) (address o) <> kMultiFreeEncoding) ->
    0 <= live -> live + Z.of_nat (length rest) <= INT_MAX ->
    (length rest + (if alive then 0 else 1) <= fuel)%nat ->
    IterateLiveObjectsInRange_loop st_memory size_func fuel
      (if alive then cur else free_start) end_ live st
    = Some (live + Z.of_nat (length (List.filter is_live rest)),
            fold_left visit (List.filter is_live rest) st).
Proof.
  induction rest as [|o rest IH];
    intros cur free_start alive offset c st live fuel
      Hc Hall Hstart Hpend Hmarks Hagree Hlive Hlive0 Hcount Hfuel.
  - simpl in Hc. subst cur. simpl. rewrite Z.add_0_r.
    destruct alive; [apply walk_end|].
    destruct (Hpend eq_refl) as (Hlt & Hmod & Hdead).
    assert (Hs : kPointerSize <= end_ - free_start <= INT_MAX).
    { split; [|lia]. unfold kPointerSize in *.
      pose proof (Z.mod_divide (end_ - free_start) 4 ltac:(lia)) as [Hd _].
      destruct (Hd Hmod) as [k Hk]. lia. }
    destruct fuel as [|fuel]; [simpl in Hfuel; lia|].
    simpl in Hagree.
    assert (Hsub : int_sub end_ free_start = end_ - free_start).
    { apply wrap_int_small. unfold INT_MIN, kPointerSize in *. lia. }
    rewrite Hsub in Hagree.
    rewrite (walk_skip fuel free_start live st (end_ - free_start) Hlt Hs).
    + replace (free_start + (end_ - free_start)) with end_ by lia.
      apply walk_end.
    + apply (free_region_seen st (memory c)); [exact Hs| |].
      * apply Hagree; [apply Hdead; lia|lia].
      * intros Hne. apply Hagree; [apply Hdead|]; unfold kIntSize, kPointerSize in *.
        -- pose proof (Z.mod_divide (end_ - free_start) 4 ltac:(lia)) as [Hd _].
           destruct (Hd Hmod) as [k Hk]. lia.
        -- lia.
  - simpl in Hc. destruct Hc as (Ha & [Hs Hsm] & Hrest).
    pose proof (contiguous_le _ _ Hrest) as Hle.
    assert (Hoall : In o all) by (apply Hall; left; reflexivity).
    assert (Hall' : forall o', In o' rest -> In o' all)
      by (intros o' Ho'; apply Hall; right; exact Ho').
    assert (Hfar : forall o', In o' rest -> cur + object_size L o <= address o')
      by (intros o' Ho'; apply (contiguous_ge _ _ _ Hrest Ho')).
    cbn [length] in Hcount, Hfuel.
    simpl in Hagree. unfold IsMarked in Hagree.
    cbn [List.filter]. change (is_live o) with (bool_decide (o ∈ M)).
    destruct (bool_decide_reflect (o ∈ M)) as [HoM|HoM].
    + (* a live object *)
      assert (Hm : bool_decide (o ∈ marked (heap c)) = true)
        by (apply bool_decide_eq_true; apply Hmarks; [left; reflexivity|exact HoM]).
      rewrite Hm in Hagree.
      destruct (Alloc o _ _) as [forwarded c1] eqn:HA.
      destruct (Encode o _ forwarded offset c1) as [offset' c2] eqn:HE.
      pose proof (Alloc_heap o (object_size L o)
                    (with_heap decrement_marked_count (with_heap (ClearMark o) c)))
        as H1.
      rewrite HA in H1.
      pose proof (Encode_heap o (object_size L o) forwarded offset c1) as H2.
      rewrite HE in H2. simpl in H1, H2.
      match type of Hagree with
      | context [EncodeForwardingAddressesInRange_loop _ _ _ _ rest
                   free_start true offset' ?c0] => set (c5 := c0) in *
      end.
      assert (Hh5 : marked (heap c5) = marked (heap c) ∖ {[o]}).
      { unfold c5. destruct alive; cbn [negb]; simpl; rewrite H2, H1; reflexivity. }
      destruct (Hlive o (or_introl eq_refl) HoM) as [Hn0 Hn1].
      assert (Hstep : forall fuel' st0 live0,
        (forall b, dead_word b -> cur <= b ->
           st_memory st0 b
           = memory (finish (EncodeForwardingAddressesInRange_loop L Alloc Encode
                               ProcessNonLive rest free_start true offset' c5)) b) ->
        (forall o', In o' (o :: rest) -> o' ∈ M ->
           Memory.uint32_at (st_memory st0) (address o') <> kSingleFreeEncoding /\
           Memory.uint32_at (st_memory st0) (address o') <> kMultiFreeEncoding) ->
        0 <= live0 -> live0 + Z.of_nat (S (length rest)) <= INT_MAX ->
        (S (length rest) <= fuel')%nat ->
        IterateLiveObjectsInRange_loop st_memory size_func fuel' cur end_ live0 st0
        = Some (live0 + Z.of_nat (S (length (List.filter is_live rest))),
                fold_left visit (List.filter is_live rest) (visit st0 o))).
      { intros fuel' st0 live0 Hagree0 Hlive' Hl0 Hcount0 Hfuel0.
        destruct fuel' as [|fuel']; [lia|].
        destruct (Hlive' o (or_introl eq_refl) HoM) as [Hm0 Hm1].
        rewrite Ha in Hm0, Hm1.
        rewrite walk_live; [| unfold kPointerSize in *; lia | exact Hm0 | exact Hm1].
        replace (FromAddress cur) with o
          by (unfold FromAddress, address, kHeapObjectTag in *; lia).
        rewrite (size_func_size o st0 Hoall).
        replace (int_add live0 1) with (live0 + 1)
          by (symmetry; apply wrap_int_small; unfold INT_MIN; lia).
        rewrite (IH (cur + object_size L o) free_start true offset' c5
                   (snd (size_func o st0)) (live0 + 1) fuel' Hrest Hall').
        - f_equal. f_equal. lia.
        - unfold kPointerSize in *. destruct alive; lia.
        - discriminate.
        - intros o' Ho'. rewrite Hh5.
          assert (o' <> o).
          { intros ->. specialize (Hfar o Ho'). unfold kPointerSize in *. lia. }
          rewrite <- (Hmarks o' (or_intror Ho')). set_solver.
        - intros b Hb Hge. rewrite size_func_frame by (assumption || lia).
          apply Hagree0; [exact Hb|]. unfold kPointerSize in *. lia.
        - intros o' Ho' Ho'M. unfold Memory.uint32_at.
          rewrite size_func_frame; [|exact Hoall|].
          + apply (Hlive' o' (or_intror Ho') Ho'M).
          + specialize (Hfar o' Ho'). lia.
        - lia.
        - lia.
        - lia. }
      cbn [length fold_left]. destruct alive.
      * apply Hstep; try assumption; try lia.
      * (* the free region that ends here *)
        destruct (Hpend eq_refl) as (Hlt & Hmod & Hdead).
        cbn [negb] in *. cbv iota in Hstart.
        assert (Hsz : kPointerSize <= cur - free_start <= INT_MAX).
        { unfold kPointerSize in Hs, Hmod |- *. split; [|lia].
          pose proof (Z.mod_divide (cur - free_start) 4 ltac:(lia)) as [Hd _].
          destruct (Hd Hmod) as [k Hk]. lia. }
        destruct fuel as [|fuel]; [lia|].
        assert (Hbelow : forall b, in_range b -> b < cur + object_size L o ->
          memory (finish (EncodeForwardingAddressesInRange_loop L Alloc Encode
                            ProcessNonLive rest free_start true offset' c5)) b
          = memory c5 b).
        { intros b Hb Hlt'.
          apply (EncodeForwardingAddressesInRange_loop_below rest
                   (cur + object_size L o) free_start true offset' c5 Hrest
                   ltac:(discriminate) b Hb Hlt'). }
        assert (Hsub : int_sub (address o) free_start = cur - free_start).
        { rewrite Ha. apply wrap_int_small. unfold INT_MIN, kPointerSize in *. lia. }
        assert (Hmem5 : memory c5
                        = EncodeFreeRegion free_start (cur - free_start)
                            (memory c2)).
        { unfold c5. cbn [negb]. simpl. rewrite Hsub. reflexivity. }
        rewrite (walk_skip fuel free_start live st (cur - free_start));
          [| unfold kPointerSize in *; lia | exact Hsz |].
        -- replace (free_start + (cur - free_start)) with cur by lia.
           apply Hstep; try assumption; try lia.
           intros b Hb Hge. apply Hagree; [exact Hb|lia].
        -- assert (Hr0 : in_range free_start)
             by (unfold in_range, kPointerSize in *; lia).
           apply (free_region_seen st (memory c2)).
           ++ exact Hsz.
           ++ rewrite Hagree; [|apply Hdead; lia|lia].
              rewrite Hbelow; [|exact Hr0|unfold kPointerSize in *; lia].
              rewrite Hmem5. reflexivity.
           ++ intros Hne.
              assert (Hk : kIntSize + kIntSize <= cur - free_start).
              { unfold kPointerSize, kIntSize in *.
                pose proof (Z.mod_divide (cur - free_start) 4 ltac:(lia)) as [Hd _].
                destruct (Hd Hmod) as [k Hk]. lia. }
              rewrite Hagree; [|apply Hdead; unfold kIntSize in *; lia
                               |unfold kIntSize; lia].
              rewrite Hbelow; [rewrite Hmem5; reflexivity| |].
              ** unfold in_range, kIntSize, kPointerSize in *. lia.
              ** unfold kIntSize, kPointerSize in *. lia.
    + (* an object that is not live *)
      assert (Hm : bool_decide (o ∈ marked (heap c)) = false).
      { apply bool_decide_eq_false. intros Hx. apply HoM.
        apply Hmarks; [left; reflexivity|exact Hx]. }
      rewrite Hm in Hagree.
      assert (Hdo : forall b, cur <= b < cur + object_size L o -> dead_word b).
      { intros b Hb. exists o. split; [exact Hoall|]. split; [exact HoM|lia]. }
      destruct alive.
      * rewrite <- Ha.
        apply (IH (cur + object_size L o) (address o) false offset
                 (ProcessNonLive o c) st live fuel Hrest Hall').
        -- simpl in Hstart. lia.
        -- intros _. rewrite Ha. split; [unfold kPointerSize in *; lia|].
           split; [|exact Hdo].
           replace (cur + object_size L o - cur) with (object_size L o) by lia.
           exact Hsm.
        -- intros o' Ho'. rewrite ProcessNonLive_heap.
           apply Hmarks. right. exact Ho'.
        -- intros b Hb Hge. apply Hagree; [exact Hb|lia].
        -- intros o' Ho'. apply Hlive. right. exact Ho'.
        -- lia.
        -- lia.
        -- lia.
      * destruct (Hpend eq_refl) as (Hlt & Hmod & Hdead).
        apply (IH (cur + object_size L o) free_start false offset
                 (ProcessNonLive o c) st live fuel Hrest Hall').
        -- exact Hstart.
        -- intros _. split; [unfold kPointerSize in *; lia|]. split.
           ++ replace (cur + object_size L o - free_start)
                with ((cur - free_start) + object_size L o) by lia.
              rewrite Z.add_mod, Hmod, Hsm by (unfold kPointerSize; lia).
              reflexivity.
           ++ intros b Hb. destruct (Z.lt_ge_cases b cur);
                [apply Hdead; lia|apply Hdo; lia].
        -- intros o' Ho'. rewrite ProcessNonLive_heap.
           apply Hmarks. right. exact Ho'.
        -- intros b Hb Hge. apply Hagree; [exact Hb|exact Hge].
        -- intros o' Ho'. apply Hlive. right. exact Ho'.
        -- lia.
        -- lia.
        -- lia.
Qed.


End Walk.


End LiveWalk.
(** ** The offsets encoded in the map words of a page
    (mark-compact.cc, lines 795-815 and 836-886) *)

Module PagedEncoding.

Import Marking.
Import Promotion.
Import Collector.

(** The live bytes of a list of objects. *)
Definition live_bytes (L : Layout) (objects : list Z) : Z :=
  fold_right Z.add 0 (map (object_size L) objects).

(** What the log tells of the encoding of forwarding addresses: the
    objects whose map word was encoded, with the offset; the pages whose
    [mc_first_forwarded] was set, by the object that set it, with the
    address; the objects that got a forwarding address, with the address. *)
Definition encoded_offsets (es : list Event) : list (Z * Z) :=
  flat_map (fun e => match e with MapWordEncoded o _ k => [(o, k)] | _ => [] end) es.
Definition first_forwarded (es : list Event) : list (Z * Z) :=
  flat_map (fun e => match e with FirstForwarded o a => [(o, a)] | _ => [] end) es.
Definition forwarding_addresses (es : list Event) : list (Z * Z) :=
  flat_map (fun e => match e with Forwarded o a => [(o, a)] | _ => [] end) es.

(** The objects with the live bytes before each, from [offset] on. *)
Fixpoint running_offsets (L : Layout) (objects : list Z) (offset : Z)
    : list (Z * Z) :=
  match objects with
  | [] => []
  | o :: rest => (o, offset) :: running_offsets L rest (offset + object_size L o)
  end.

Lemma running_offsets_split L objects :
  forall offset l1 o l2,
    objects = l1 ++ o :: l2 ->
    In (o, offset + live_bytes L l1) (running_offsets L objects offset).
Proof.
  induction objects as [|x rest IH]; intros offset l1 o l2 Heq.
  - destruct l1; discriminate.
  - destruct l1 as [|y l1]; simpl in Heq; injection Heq as Hx Hrest; subst x rest.
    + left. unfold live_bytes. simpl. f_equal. lia.
    + right. unfold live_bytes. simpl.
      replace (offset + (object_size L y + fold_right Z.add 0 (map (object_size L) l1)))
        with ((offset + object_size L y) + live_bytes L l1)
        by (unfold live_bytes; lia).
      apply (IH _ l1 o l2). reflexivity.
Qed.

Lemma live_bytes_cons L o objects :
  live_bytes L (o :: objects) = object_size L o + live_bytes L objects.
Proof. reflexivity. Qed.

Lemma live_bytes_nonneg L objects :
  (forall o, In o objects -> 0 < object_size L o) -> 0 <= live_bytes L objects.
Proof.
  induction objects as [|x rest IH]; intros Hpos; [unfold live_bytes; simpl; lia|].
  rewrite live_bytes_cons.
  specialize (IH ltac:(intros o Ho; apply Hpos; right; exact Ho)).
  specialize (Hpos x (or_introl eq_refl)). lia.
Qed.

Lemma live_in_In objects :
  forall M o, In o (live_in objects M) -> In o objects.
Proof.
  induction objects as [|x rest IH]; intros M o Ho; simpl in *; [exact Ho|].
  destruct (bool_decide (x ∈ M)).
  - destruct Ho as [->|Ho]; [left; reflexivity|right; apply (IH _ _ Ho)].
  - right. apply (IH _ _ Ho).
Qed.

Lemma running_offsets_objects L objects :
  forall offset, map fst (running_offsets L objects offset) = objects.
Proof.
  induction objects as [|x rest IH]; intros offset; simpl; [reflexivity|].
  rewrite IH. reflexivity.
Qed.

Section Page.

Context {Spaces : Type}.
Variable L : Layout.
Variable Alloc : @AllocationFunction Spaces.
Variable ProcessNonLive : @ProcessNonLiveFunction Spaces.

Hypothesis Alloc_heap : forall o z c, heap (snd (Alloc o z c)) = heap c.
Hypothesis Alloc_events : forall o z c, events (snd (Alloc o z c)) = events c.
Hypothesis ProcessNonLive_heap : forall o c, heap (ProcessNonLive o c) = heap c.
Hypothesis ProcessNonLive_encoded :
  forall o c, encoded_offsets (events (ProcessNonLive o c)) = encoded_offsets (events c).
Hypothesis ProcessNonLive_first :
  forall o c, first_forwarded (events (ProcessNonLive o c)) = first_forwarded (events c).
Hypothesis ProcessNonLive_forwarding :
  forall o c,
    forwarding_addresses (events (ProcessNonLive o c))
    = forwarding_addresses (events c).

Lemma EncodeForwardingAddressesInRange_loop_offsets objects :
  forall free_start alive offset (c : @Collector Spaces),
    (forall o, In o objects -> 0 < object_size L o) ->
    0 <= offset ->
    offset + live_bytes L (live_in objects (marked (heap c))) <= INT_MAX ->
    let result :=
      EncodeForwardingAddressesInRange_loop L Alloc
        (EncodeForwardingAddressInPagedSpace L) ProcessNonLive
        objects free_start alive offset c in
    let live := live_in objects (marked (heap c)) in
    exists new : list (Z * Z),
      map fst new = live /\
      forwarding_addresses (events (snd result))
      = forwarding_addresses (events c) ++ new /\
      first_forwarded (events (snd result))
      = first_forwarded (events c) ++ (if offset =? 0 then firstn 1 new else []) /\
      encoded_offsets (events (snd result))
      = encoded_offsets (events c) ++ running_offsets L live offset /\
      snd (fst result) = offset + live_bytes L live.
Proof.
  induction objects as [|object rest IH];
    intros free_start alive offset c Hpos Hoff Hmax; simpl.
  - exists []. unfold live_bytes. simpl.
    destruct (offset =? 0); simpl; rewrite !app_nil_r; repeat split; auto; lia.
  - assert (Hpos' : forall o, In o rest -> 0 < object_size L o)
      by (intros o Ho; apply Hpos; right; exact Ho).
    simpl in Hmax. unfold IsMarked.
    destruct (bool_decide (object ∈ marked (heap c))) eqn:Hm.
    + destruct (Alloc object _ _) as [forwarded c1] eqn:HA.
      pose proof (Alloc_heap object (object_size L object)
                    (with_heap decrement_marked_count
                       (with_heap (ClearMark object) c))) as H1.
      pose proof (Alloc_events object (object_size L object)
                    (with_heap decrement_marked_count
                       (with_heap (ClearMark object) c))) as E1.
      rewrite HA in H1, E1. simpl in H1, E1.
      pose proof (Hpos object (or_introl eq_refl)) as Hsz.
      rewrite live_bytes_cons in Hmax.
      pose proof (live_bytes_nonneg L
                    (live_in rest (marked (heap c) ∖ {[object]}))
                    ltac:(intros o Ho; apply Hpos'; apply (live_in_In _ _ _ Ho)))
        as Hnn.
      assert (Hadd : int_add offset (object_size L object)
                     = offset + object_size L object)
        by (apply wrap_int_small; unfold INT_MIN; lia).
      rewrite Hadd.
      match goal with
      | |- context [EncodeForwardingAddressesInRange_loop _ _ _ _ rest
                      free_start true _ ?c0] => set (c5 := c0)
      end.
      assert (Hh5 : marked (heap c5) = marked (heap c) ∖ {[object]}).
      { unfold c5. destruct alive; destruct (offset =? 0); simpl; rewrite H1;
          reflexivity. }
      destruct (IH free_start true (offset + object_size L object) c5 Hpos'
                  ltac:(lia) ltac:(rewrite Hh5; lia))
        as (new & Hnew & Hfw & Hff & Henc & Hfin).
      rewrite Hh5 in Hnew, Henc, Hfin.
      assert (Hnz : (offset + object_size L object =? 0) = false)
        by (apply Z.eqb_neq; lia).
      rewrite Hnz in Hff. rewrite app_nil_r in Hff.
      exists ((object, address forwarded) :: new).
      split; [simpl; rewrite Hnew; reflexivity|].
      assert (Hev5 : events c5
        = events c
            ++ (if offset =? 0 then [FirstForwarded object (address forwarded)]
                else [])
            ++ [MapWordEncoded object (address (map_of L object)) offset;
                Forwarded object (address forwarded)]).
      { unfold c5. destruct alive; destruct (offset =? 0); simpl; rewrite E1;
          rewrite <- ?app_assoc; reflexivity. }
      rewrite Hfw, Hff, Henc, Hfin, Hev5.
      unfold forwarding_addresses, first_forwarded, encoded_offsets.
      rewrite !flat_map_app.
      destruct (offset =? 0); simpl; rewrite ?app_nil_r, <- ?app_assoc;
        simpl; (split; [reflexivity|]); (split; [reflexivity|]);
        (split; [reflexivity|]); rewrite live_bytes_cons; lia.
    + assert (Hgoal : forall fs al,
        let result :=
          EncodeForwardingAddressesInRange_loop L Alloc
            (EncodeForwardingAddressInPagedSpace L) ProcessNonLive
            rest fs al offset (ProcessNonLive object c) in
        let live := live_in rest (marked (heap c)) in
        exists new : list (Z * Z),
          map fst new = live /\
          forwarding_addresses (events (snd result))
          = forwarding_addresses (events c) ++ new /\
          first_forwarded (events (snd result))
          = first_forwarded (events c) ++ (if offset =? 0 then firstn 1 new else []) /\
          encoded_offsets (events (snd result))
          = encoded_offsets (events c) ++ running_offsets L live offset /\
          snd (fst result) = offset + live_bytes L live).
      { intros fs al.
        destruct (IH fs al offset (ProcessNonLive object c) Hpos' Hoff
                    ltac:(rewrite ProcessNonLive_heap; exact Hmax))
          as (new & Hnew & Hfw & Hff & Henc & Hfin).
        rewrite ProcessNonLive_heap in Hnew, Henc, Hfin.
        rewrite ProcessNonLive_forwarding in Hfw.
        rewrite ProcessNonLive_first in Hff.
        rewrite ProcessNonLive_encoded in Henc.
        exists new. auto. }
      destruct alive; apply Hgoal.
Qed.


End Page.


End PagedEncoding.
(** ** The blocks that the sweep of a page frees
    (mark-compact.cc, lines 921-1023) *)

Module FreedBlocks.

Import Marking.
Import Promotion.
Import Collector.
Import LiveWalk.

(** The bytes of a list of objects. *)
Definition bytes_of (L : Layout) (objects : list Z) : Z :=
  fold_right Z.add 0 (map (object_size L) objects).

(** The bytes of a list of blocks, given by start and size. *)
Definition block_bytes (blocks : list (Z * Z)) : Z :=
  fold_right Z.add 0 (map snd blocks).

Lemma block_bytes_app l1 l2 :
  block_bytes (l1 ++ l2) = block_bytes l1 + block_bytes l2.
Proof.
  unfold block_bytes. induction l1 as [|x l1 IH]; simpl; [reflexivity|].
  rewrite IH. lia.
Qed.

Section Page.

Context {Spaces : Type}.
Variable L : Layout.
Variable cfg : Settings.
Variable dealloc : @DeallocateFunction Spaces.

(** The page, its objects and the marked ones among them. *)
Variable start top : Z.
Variable all : list Z.
Variable M : gset Z.

(** The blocks handed to [dealloc] so far, oldest first. *)
Variable blocks : @Collector Spaces -> list (Z * Z).

Hypothesis dealloc_blocks :
  forall a s c, blocks (dealloc a s c) = blocks c ++ [(a, s)].
Hypothesis dealloc_heap : forall a s c, heap (dealloc a s c) = heap c.
Hypothesis blocks_heap : forall f c, blocks (with_heap f c) = blocks c.
Hypothesis blocks_CodeDeleteEvent :
  forall a c, blocks (log (CodeDeleteEvent a) c) = blocks c.
Hypothesis blocks_ICTargetsConverted :
  forall o c, blocks (log (ICTargetsConverted o) c) = blocks c.
Hypothesis range_int : top - start <= INT_MAX.

Definition is_dead (o : Z) : bool := negb (bool_decide (o ∈ M)).

(** The collector after the loop over the page and the release of the
    last block. *)
Definition finish_page (r : Z * bool * @Collector Spaces) : @Collector Spaces :=
  let '(free_start, is_previous_alive, c) := r in
  if negb is_previous_alive then
    let free_size := int_sub top free_start in
    if free_size >? 0 then dealloc free_start free_size c else c
  else c.

Lemma SweepPage_loop_blocks rest :
  forall cur free_start (alive : bool) (c : @Collector Spaces),
    contiguous L top cur rest ->
    (forall o, In o rest -> In o all) ->
    (forall o, In o rest -> (o ∈ marked (heap c) <-> o ∈ M)) ->
    start <= (if alive then cur else free_start) ->
    (alive = false ->
     free_start < cur /\ forall b, free_start <= b < cur -> dead_word L all M b) ->
    let F := if alive then cur else free_start in
    let c' := finish_page (SweepPage_loop cfg dealloc rest free_start alive c) in
    exists new,
      blocks c' = blocks c ++ new /\
      (forall a s, In (a, s) new ->
         0 < s /\ F <= a /\ forall b, a <= b < a + s -> dead_word L all M b) /\
      (forall o, In o rest -> o ∉ M ->
         exists a s, In (a, s) new /\
                     a <= address o /\ address o + object_size L o <= a + s) /\
      (alive = false -> exists s, In (free_start, s) new /\ cur <= free_start + s) /\
      block_bytes new = (cur - F) + bytes_of L (List.filter is_dead rest).
Proof.
  induction rest as [|o rest IH];
    intros cur free_start alive c Hc Hall Hmarks Hstart Hpend F c'.
  - simpl in Hc. subst cur. unfold c', F. simpl.
    destruct alive; cbn [negb].
    + exists []. rewrite app_nil_r. unfold block_bytes, bytes_of. simpl.
      repeat split; try (intros; contradiction); try discriminate; try lia.
    + destruct (Hpend eq_refl) as (Hlt & Hdead). simpl in Hstart.
      assert (Hsub : int_sub top free_start = top - free_start).
      { apply wrap_int_small. unfold INT_MIN. lia. }
      rewrite Hsub.
      destruct (Z.gtb_spec (top - free_start) 0) as [_|?]; [|lia].
      exists [(free_start, top - free_start)].
      split; [apply dealloc_blocks|]. split; [|split; [|split]].
      * intros a s [Heq|[]]. injection Heq as <- <-.
        split; [lia|]. split; [lia|].
        intros b Hb. apply Hdead. lia.
      * intros o [].
      * intros _. exists (top - free_start). split; [left; reflexivity|lia].
      * unfold block_bytes, bytes_of. simpl. lia.
  - simpl in Hc. destruct Hc as (Ha & [Hs Hsm] & Hrest).
    unfold kPointerSize in Hs.
    pose proof (contiguous_le L top _ _ Hrest) as Hle.
    assert (Hoall : In o all) by (apply Hall; left; reflexivity).
    assert (Hall' : forall o', In o' rest -> In o' all)
      by (intros o' Ho'; apply Hall; right; exact Ho').
    assert (Hfar : forall o', In o' rest -> cur + object_size L o <= address o')
      by (intros o' Ho'; apply (contiguous_ge L top _ _ _ Hrest Ho')).
    unfold c', F. simpl. unfold IsMarked. cbn [List.filter].
    unfold is_dead at 1.
    destruct (bool_decide_reflect (o ∈ M)) as [HoM|HoM]; cbn [negb].
    + (* a live object *)
      assert (Hm : bool_decide (o ∈ marked (heap c)) = true)
        by (apply bool_decide_eq_true; apply Hmarks; [left; reflexivity|exact HoM]).
      rewrite Hm.
      match goal with
      | |- context [SweepPage_loop cfg dealloc rest free_start true ?c0] =>
          set (c5 := c0)
      end.
      assert (Hh5 : marked (heap c5) = marked (heap c) ∖ {[o]}).
      { unfold c5. destruct alive; cbn [negb]; rewrite ?dealloc_heap;
          destruct (_ && IsCode cfg o); reflexivity. }
      assert (Hb5 : blocks c5
                    = blocks c ++ (if alive then []
                                   else [(free_start, int_sub (address o) free_start)])).
      { unfold c5. destruct alive; cbn [negb]; rewrite ?dealloc_blocks;
          destruct (_ && IsCode cfg o);
          rewrite ?blocks_ICTargetsConverted, !blocks_heap, ?app_nil_r;
          reflexivity. }
      destruct (IH (cur + object_size L o) free_start true c5 Hrest Hall')
        as (new & Hnew & Honly & Hcover & _ & Hsum).
      { intros o' Ho'. rewrite Hh5.
        assert (o' <> o) by (intros ->; specialize (Hfar o Ho'); lia).
        rewrite <- (Hmarks o' (or_intror Ho')). set_solver. }
      { destruct alive; simpl in Hstart; [lia|].
        destruct (Hpend eq_refl) as [Hlt _]. lia. }
      { discriminate. }
      cbv zeta in Hnew, Honly, Hcover, Hsum.
      destruct alive.
      * exists new. rewrite Hnew, Hb5, app_nil_r.
        split; [reflexivity|]. split; [|split; [|split]].
        -- intros a s Hin. destruct (Honly a s Hin) as (H1 & H2 & H3).
           split; [exact H1|]. split; [lia|exact H3].
        -- intros o' [<-|Ho'] Hd; [contradiction|]. apply Hcover; assumption.
        -- discriminate.
        -- rewrite Hsum. lia.
      * destruct (Hpend eq_refl) as (Hlt & Hdead). simpl in Hstart.
        assert (Hsub : int_sub (address o) free_start = cur - free_start).
        { rewrite Ha. apply wrap_int_small. unfold INT_MIN. lia. }
        rewrite Hsub in Hb5.
        exists ((free_start, cur - free_start) :: new).
        rewrite Hnew, Hb5, <- app_assoc.
        split; [reflexivity|]. split; [|split; [|split]].
        -- intros a s [Heq|Hin].
           ++ injection Heq as <- <-. split; [lia|]. split; [lia|].
              intros b Hb. apply Hdead. lia.
           ++ destruct (Honly a s Hin) as (H1 & H2 & H3).
              split; [exact H1|]. split; [lia|exact H3].
        -- intros o' [<-|Ho'] Hd; [contradiction|].
           destruct (Hcover o' Ho' Hd) as (a & s & Hin & Hb).
           exists a, s. split; [right; exact Hin|exact Hb].
        -- intros _. exists (cur - free_start). split; [left; reflexivity|lia].
        -- change (block_bytes ((free_start, cur - free_start) :: new))
             with ((cur - free_start) + block_bytes new).
           rewrite Hsum. lia.
    + (* an object that is not live *)
      assert (Hm : bool_decide (o ∈ marked (heap c)) = false).
      { apply bool_decide_eq_false. intros Hx. apply HoM.
        apply Hmarks; [left; reflexivity|exact Hx]. }
      rewrite Hm.
      set (c1 := if IsCode cfg o then log (CodeDeleteEvent (address o)) c else c).
      assert (Hh1 : heap c1 = heap c) by (unfold c1; destruct (IsCode cfg o); reflexivity).
      assert (Hb1 : blocks c1 = blocks c).
      { unfold c1. destruct (IsCode cfg o); [apply blocks_CodeDeleteEvent|reflexivity]. }
      assert (Hdo : forall b, cur <= b < cur + object_size L o -> dead_word L all M b).
      { intros b Hb. exists o. split; [exact Hoall|]. split; [exact HoM|lia]. }
      assert (Hbytes : bytes_of L (o :: List.filter is_dead rest)
                       = object_size L o + bytes_of L (List.filter is_dead rest))
        by reflexivity.
      rewrite Hbytes.
      destruct alive.
      * destruct (IH (cur + object_size L o) (address o) false c1 Hrest Hall')
          as (new & Hnew & Honly & Hcover & Hp & Hsum).
        { intros o' Ho'. rewrite Hh1. apply Hmarks. right. exact Ho'. }
        { simpl in Hstart |- *. lia. }
        { intros _. split; [lia|]. intros b Hb. apply Hdo. lia. }
        cbv zeta in Hnew, Honly, Hcover, Hsum.
        exists new. rewrite Hnew, Hb1.
        split; [reflexivity|]. split; [|split; [|split]].
        -- intros a s Hin. destruct (Honly a s Hin) as (H1 & H2 & H3).
           split; [exact H1|]. split; [lia|exact H3].
        -- intros o' [<-|Ho'] Hd; [|apply Hcover; assumption].
           destruct (Hp eq_refl) as (s & Hin & Hs').
           exists (address o), s. split; [exact Hin|lia].
        -- discriminate.
        -- rewrite Hsum. lia.
      * destruct (Hpend eq_refl) as (Hlt & Hdead). simpl in Hstart.
        destruct (IH (cur + object_size L o) free_start false c1 Hrest Hall')
          as (new & Hnew & Honly & Hcover & Hp & Hsum).
        { intros o' Ho'. rewrite Hh1. apply Hmarks. right. exact Ho'. }
        { exact Hstart. }
        { intros _. split; [lia|]. intros b Hb.
          destruct (Z.lt_ge_cases b cur); [apply Hdead; lia|apply Hdo; lia]. }
        cbv zeta in Hnew, Honly, Hcover, Hsum.
        exists new. rewrite Hnew, Hb1.
        split; [reflexivity|]. split; [|split; [|split]].
        -- exact Honly.
        -- intros o' [<-|Ho'] Hd; [|apply Hcover; assumption].
           destruct (Hp eq_refl) as (s & Hin & Hs').
           exists free_start, s. split; [exact Hin|lia].
        -- intros _. destruct (Hp eq_refl) as (s & Hin & Hs').
           exists s. split; [exact Hin|lia].
        -- rewrite Hsum. lia.
Qed.

(** The sweep of a page hands to [dealloc] blocks that hold bytes of
    unmarked objects only, every unmarked object lies inside one of the
    blocks, and the blocks hold as many bytes as the unmarked objects: the
    dead objects are freed, once, and nothing else.  The objects fill the
    page, with sizes in words. *)
Theorem SweepSpace_frees_dead_objects (c : @Collector Spaces) :
  contiguous L top start all ->
  M = marked (heap c) ->
  let p :=
    {| ObjectAreaStart := start; AllocationTop := top; page_objects := all |} in
  let c' := SweepPagedSpace cfg dealloc [p] c in
  exists new,
    blocks c' = blocks c ++ new /\
    (forall a s, In (a, s) new ->
       0 < s /\ forall b, a <= b < a + s -> dead_word L all M b) /\
    (forall o, In o all -> o ∉ M ->
       exists a s, In (a, s) new /\
                   a <= address o /\ address o + object_size L o <= a + s) /\
    block_bytes new
    = bytes_of L (List.filter (fun o => negb (bool_decide (o ∈ M))) all).
Proof.
  intros Hc HM p c'.
  destruct (SweepPage_loop_blocks all start 0 true c Hc ltac:(auto)
              ltac:(intros o _; rewrite HM; reflexivity)
              ltac:(simpl; lia) ltac:(discriminate))
    as (new & Hnew & Honly & Hcover & _ & Hsum).
  cbv zeta in Hnew, Honly, Hcover, Hsum.
  assert (Hc' : c' = finish_page (SweepPage_loop cfg dealloc all 0 true c)).
  { unfold c', SweepPagedSpace, finish_page. simpl.
    destruct (SweepPage_loop cfg dealloc all 0 true c) as [[fs al] c1].
    reflexivity. }
  exists new. rewrite Hc'. split; [exact Hnew|]. split; [|split].
  - intros a s Hin. destruct (Honly a s Hin) as (H1 & _ & H3). auto.
  - exact Hcover.
  - rewrite Hsum. unfold is_dead. lia.
Qed.

End Page.

(** The blocks of the old space that the log says were freed. *)
Definition freed_old_blocks {Spaces : Type} (c : @Collector Spaces) : list (Z * Z) :=
  flat_map
    (fun e => match e with Freed OLD_SPACE a s => [(a, s)] | _ => [] end)
    (events c).

(** On the first page of the old space of the example, with its first and
    third objects marked, the second object is in a block that is freed. *)
Lemma SweepSpace_frees_dead_objects_witness :
  exists a s,
    In (a, s)
      (freed_old_blocks
         (SweepPagedSpace (example_settings false) DeallocateOldBlock
            [{| ObjectAreaStart := 0x100; AllocationTop := 0x140;
                page_objects := [0x101; 0x111; 0x121; 0x131] |}]
            example_live_collector)) /\
    a <= 0x110 /\ 0x120 <= a + s.
Proof.
  destruct (SweepSpace_frees_dead_objects (Spaces := Z) example_layout
              (example_settings false)
              DeallocateOldBlock 0x100 0x140 [0x101; 0x111; 0x121; 0x131]
              {[0x101; 0x121; 0x4101]} freed_old_blocks)
    with (c := example_live_collector)
    as (new & Hnew & _ & Hcover & _).
  - intros a s c. unfold freed_old_blocks, DeallocateOldBlock. simpl.
    rewrite !flat_map_app. simpl. rewrite app_nil_r. reflexivity.
  - reflexivity.
  - reflexivity.
  - intros a c. unfold freed_old_blocks. simpl.
    rewrite flat_map_app. simpl. apply app_nil_r.
  - intros o c. unfold freed_old_blocks. simpl.
    rewrite flat_map_app. simpl. apply app_nil_r.
  - unfold INT_MAX. lia.
  - vm_compute. intuition congruence.
  - reflexivity.
  - destruct (Hcover 0x111 ltac:(simpl; tauto) ltac:(set_solver))
      as (a & s & Hin & Hb).
    exists a, s. cbv zeta in Hnew. rewrite Hnew. split; [exact Hin|exact Hb].
Defined.

End FreedBlocks.

(** ** The chunks of a block of the map space
    (mark-compact.cc, lines 1013-1024) *)

Module MapBlocks.

Import Marking.
Import Promotion.
Import Collector.
Import LiveWalk.
Import FreedBlocks.

(** The blocks of the map space that the log says were freed. *)
Definition freed_map_blocks {Spaces : Type} (c : @Collector Spaces) : list (Z * Z) :=
  flat_map
    (fun e => match e with Freed MAP_SPACE a s => [(a, s)] | _ => [] end)
    (events c).

(** The first [n] chunks from [start]. *)
Definition chunks_from (cfg : Settings) (start : Z) (l : list nat) : list (Z * Z) :=
  map (fun i => (start + Z.of_nat i * kMapSize cfg, kMapSize cfg)) l.

Lemma iterate_Freed {Spaces : Type} (cfg : Settings) (start : Z) (l : list nat) :
  forall c : @Collector Spaces,
    freed_map_blocks
      (iterate
         (fun i c =>
            log (Freed MAP_SPACE (start + Z.of_nat i * kMapSize cfg) (kMapSize cfg)) c)
         l c)
    = freed_map_blocks c ++ chunks_from cfg start l.
Proof.
  induction l as [|i l IH]; intros c; simpl.
  - rewrite app_nil_r. reflexivity.
  - rewrite IH. unfold freed_map_blocks at 1. simpl.
    rewrite flat_map_app. simpl. rewrite <- app_assoc. reflexivity.
Qed.

Lemma block_bytes_chunks_from cfg start l :
  block_bytes (chunks_from cfg start l) = Z.of_nat (length l) * kMapSize cfg.
Proof.
  unfold block_bytes, chunks_from. induction l as [|i l IH]; [reflexivity|].
  cbn [map fold_right length snd]. rewrite IH. lia.
Qed.

(** [DeallocateMapBlock] frees chunks of [Map::kSize] bytes that start
    inside the block, at multiples of [Map::kSize] from its start, no two
    at the same address, and that cover the block.  They hold as many
    bytes as the block exactly when its size is a multiple of [Map::kSize],
    which the function only asserts: if not, the last chunk reaches
    beyond the end of the block.  A block of no byte frees nothing. *)
Theorem DeallocateMapBlock_chunks {Spaces : Type} (cfg : Settings)
    (start size_in_bytes : Z) (c : @Collector Spaces) :
  0 < kMapSize cfg ->
  exists new,
    freed_map_blocks (DeallocateMapBlock cfg start size_in_bytes c)
    = freed_map_blocks c ++ new /\
    (forall a s, In (a, s) new ->
       s = kMapSize cfg /\ start <= a < start + size_in_bytes /\
       (a - start) mod kMapSize cfg = 0) /\
    (forall b, start <= b < start + size_in_bytes ->
       exists a, In (a, kMapSize cfg) new /\ a <= b < a + kMapSize cfg) /\
    List.NoDup (map fst new) /\
    (size_in_bytes <= 0 -> new = []) /\
    (0 <= size_in_bytes ->
     size_in_bytes <= block_bytes new < size_in_bytes + kMapSize cfg /\
     (block_bytes new = size_in_bytes <-> size_in_bytes mod kMapSize cfg = 0)).
Proof.
  intros Hk. set (k := kMapSize cfg) in *.
  set (q := (size_in_bytes + k - 1) / k).
  exists (chunks_from cfg start (seq 0 (Z.to_nat q))).
  assert (Hq1 : q * k <= size_in_bytes + k - 1).
  { unfold q. pose proof (Z.mul_div_le (size_in_bytes + k - 1) k Hk). lia. }
  assert (Hq2 : size_in_bytes + k - 1 < q * k + k).
  { unfold q. pose proof (Z.mod_pos_bound (size_in_bytes + k - 1) k Hk).
    pose proof (Z.div_mod (size_in_bytes + k - 1) k ltac:(lia)). lia. }
  split_and!.
  - unfold DeallocateMapBlock. subst q k. rewrite iterate_Freed.
    f_equal. unfold freed_map_blocks. simpl. rewrite flat_map_app. simpl.
    apply app_nil_r.
  - intros a s Hin. unfold chunks_from in Hin. apply in_map_iff in Hin.
    destruct Hin as (i & Heq & Hi). injection Heq as <- <-. fold k.
    apply in_seq in Hi.
    assert (Hiq : Z.of_nat i < q) by lia.
    split; [reflexivity|]. split; [nia|].
    replace (start + Z.of_nat i * k - start) with (Z.of_nat i * k) by lia.
    apply Z.mod_mul. lia.
  - intros b Hb. set (i := (b - start) / k).
    assert (Hi0 : 0 <= i) by (apply Z.div_pos; lia).
    assert (Hi1 : i * k <= b - start)
      by (unfold i; pose proof (Z.mul_div_le (b - start) k Hk); lia).
    assert (Hi2 : b - start < i * k + k).
    { unfold i. pose proof (Z.mod_pos_bound (b - start) k Hk).
      pose proof (Z.div_mod (b - start) k ltac:(lia)). lia. }
    assert (Hiq : i < q) by nia.
    exists (start + i * k). split; [|lia].
    unfold chunks_from. apply in_map_iff. exists (Z.to_nat i).
    rewrite Z2Nat.id by lia. fold k. split; [reflexivity|].
    apply in_seq. lia.
  - unfold chunks_from. rewrite map_map. simpl.
    assert (Hinj : forall l : list nat,
      List.NoDup l -> List.NoDup (map (fun i => start + Z.of_nat i * k) l)).
    { induction 1 as [|i l Hi Hl IH]; simpl; constructor; [|exact IH].
      intros Hin. apply in_map_iff in Hin. destruct Hin as (j & Hj & Hjl).
      assert (j = i) by nia. subst j. exact (Hi Hjl). }
    apply Hinj. apply seq_NoDup.
  - intros Hs. assert (Hq0 : q <= 0) by nia.
    replace (Z.to_nat q) with 0%nat by lia. reflexivity.
  - intros Hs. rewrite block_bytes_chunks_from, length_seq. fold k.
    assert (Hq0 : 0 <= q) by (apply Z.div_pos; lia).
    rewrite Z2Nat.id by exact Hq0.
    split; [lia|]. split.
    + intros Heq. rewrite <- Heq. apply Z.mod_mul. lia.
    + intros Hmod. apply Z.mod_divide in Hmod; [|lia].
      destruct Hmod as [m Hm]. assert (q = m) by nia. subst m. lia.
Qed.

(** A block of two maps of the example is freed in two chunks of 16
    bytes. *)
Lemma DeallocateMapBlock_chunks_witness :
  freed_map_blocks
    (DeallocateMapBlock (example_settings false) 0x4100 32 example_collector)
  = [(0x4100, 16); (0x4110, 16)].
Proof.
  destruct (DeallocateMapBlock_chunks (example_settings false) 0x4100 32
              example_collector ltac:(reflexivity))
    as (new & Hnew & _).
  rewrite Hnew. vm_compute in Hnew. subst new. reflexivity.
Defined.

End MapBlocks.
(** ** The symbol table cleaner (mark-compact.cc, lines 354-374 and
    600-607) *)

Module SymbolTablePruning.

Import Marking.
Import Promotion.
Import Collector.

Section Cleaner.

Variable L : Layout.

(** The test of [SymbolTableCleaner::VisitPointers] on the value of a
    slot: a heap object that is not marked. *)
Definition dead_symbol (s : State) (v : Z) : bool :=
  IsHeapObject v && negb (IsMarked v s).

(** The slots of the elements of the symbol table. *)
Definition element_slots (ranges : list (nat * nat)) : list Slot :=
  flat_map (field_slots (symbol_table L)) ranges.

Lemma SymbolTableCleaner_VisitPointers_app ps1 ps2 :
  forall removed s,
    SymbolTableCleaner_VisitPointers L (ps1 ++ ps2) removed s
    = SymbolTableCleaner_VisitPointers L ps2
        (fst (SymbolTableCleaner_VisitPointers L ps1 removed s))
        (snd (SymbolTableCleaner_VisitPointers L ps1 removed s)).
Proof.
  induction ps1 as [|p ps1 IH]; intros removed s; simpl; [reflexivity|].
  destruct (IsHeapObject (slots s p) && negb (IsMarked (slots s p) s)); apply IH.
Qed.

Lemma IterateElements_flat ranges :
  forall removed s,
    IterateElements L ranges removed s
    = SymbolTableCleaner_VisitPointers L (element_slots ranges) removed s.
Proof.
  induction ranges as [|r ranges IH]; intros removed s; simpl; [reflexivity|].
  rewrite SymbolTableCleaner_VisitPointers_app.
  destruct (SymbolTableCleaner_VisitPointers L
              (field_slots (symbol_table L) r) removed s) as [removed' s'].
  apply IH.
Qed.

Lemma SymbolTableCleaner_VisitPointers_spec ps :
  forall removed s,
    let r := SymbolTableCleaner_VisitPointers L ps removed s in
    marked (snd r) = marked s /\
    overflow (snd r) = overflow s /\
    marking_stack (snd r) = marking_stack s /\
    marked_count (snd r) = marked_count s /\
    (forall q, ~ In q ps -> slots (snd r) q = slots s q) /\
    (forall q, In q ps ->
       slots (snd r) q
       = if dead_symbol s (slots s q) then null_value L else slots s q) /\
    (List.NoDup ps -> 0 <= removed ->
     removed + Z.of_nat (length ps) <= INT_MAX ->
     fst r
     = removed
       + Z.of_nat (length (List.filter (fun q => dead_symbol s (slots s q)) ps))).
Proof.
  induction ps as [|p ps IH]; intros removed s; simpl.
  - split_and!; auto; [intros q []|intros _ _ _; lia].
  - fold (dead_symbol s (slots s p)).
    destruct (dead_symbol s (slots s p)) eqn:Hp.
    + destruct (IH (int_add removed 1) (write p (null_value L) s))
        as (Hm & Ho & Hk & Hc & Hout & Hin & Hcount).
      cbv zeta in *. simpl in Hm, Ho, Hk, Hc.
      assert (Hds : forall v, dead_symbol (write p (null_value L) s) v
                              = dead_symbol s v) by reflexivity.
      split_and!; [exact Hm|exact Ho|exact Hk|exact Hc| | |].
      * intros q Hq. rewrite Hout by tauto. simpl.
        rewrite decide_False; [reflexivity|]. intros ->. tauto.
      * intros q [<-|Hq].
        -- rewrite Hp. destruct (in_dec Slot_eq_dec p ps) as [Hpin|Hpin].
           ++ rewrite (Hin p Hpin). simpl. rewrite decide_True by reflexivity.
              rewrite Hds. destruct (dead_symbol s (null_value L)); reflexivity.
           ++ rewrite (Hout p Hpin). simpl. rewrite decide_True by reflexivity.
              reflexivity.
        -- rewrite (Hin q Hq). rewrite Hds. simpl.
           destruct (decide (q = p)) as [->|Hne]; [|reflexivity].
           rewrite Hp. destruct (dead_symbol s (null_value L)); reflexivity.
      * intros Hnodup Hr Hlen. inversion Hnodup as [|? ? Hnotin Hnodup']; subst.
        cbn [length] in Hlen.
        assert (Hadd : int_add removed 1 = removed + 1)
          by (apply wrap_int_small; unfold INT_MIN; lia).
        rewrite Hcount, Hadd by (rewrite ?Hadd; assumption || lia).
        cbn [length].
        rewrite (List.filter_ext_in
                   (fun q => dead_symbol (write p (null_value L) s)
                               (slots (write p (null_value L) s) q))
                   (fun q => dead_symbol s (slots s q))).
        -- lia.
        -- intros q Hq. rewrite Hds. simpl.
           rewrite decide_False; [reflexivity|]. intros ->. contradiction.
    + destruct (IH removed s) as (Hm & Ho & Hk & Hc & Hout & Hin & Hcount).
      cbv zeta in *.
      split_and!; [exact Hm|exact Ho|exact Hk|exact Hc| | |].
      * intros q Hq. apply Hout. tauto.
      * intros q [<-|Hq]; [|apply Hin; exact Hq].
        rewrite Hp. destruct (in_dec Slot_eq_dec p ps) as [Hpin|Hpin].
        -- rewrite (Hin p Hpin), Hp. reflexivity.
        -- apply Hout. exact Hpin.
      * intros Hnodup Hr Hlen. inversion Hnodup as [|? ? Hnotin Hnodup']; subst.
        cbn [length] in Hlen. apply Hcount; [assumption|assumption|lia].
Qed.

(** The pruning of the symbol table replaces by [null_value] the entries
    that point to heap objects that are not marked, and them only: the
    marks, the count, the stack and every other slot are as they were, and
    the number of pointers removed is the number of entries replaced
    (the entries are visited once, and their number is an [int]). *)
Theorem IterateElements_prunes_dead_symbols (ranges : list (nat * nat)) (s : State) :
  let r := IterateElements L ranges 0 s in
  marked (snd r) = marked s /\
  overflow (snd r) = overflow s /\
  marking_stack (snd r) = marking_stack s /\
  marked_count (snd r) = marked_count s /\
  (forall q, ~ In q (element_slots ranges) -> slots (snd r) q = slots s q) /\
  (forall q, In q (element_slots ranges) ->
     slots (snd r) q
     = if IsHeapObject (slots s q) && negb (IsMarked (slots s q) s)
       then null_value L else slots s q) /\
  (List.NoDup (element_slots ranges) ->
   Z.of_nat (length (element_slots ranges)) <= INT_MAX ->
   fst r
   = Z.of_nat
       (length
          (List.filter
             (fun q => IsHeapObject (slots s q) && negb (IsMarked (slots s q) s))
             (element_slots ranges)))).
Proof.
  intros r. unfold r. rewrite IterateElements_flat.
  destruct (SymbolTableCleaner_VisitPointers_spec (element_slots ranges) 0 s)
    as (Hm & Ho & Hk & Hc & Hout & Hin & Hcount).
  cbv zeta in *. split_and!; auto.
  intros Hnodup Hlen. rewrite Hcount by (assumption || lia).
  rewrite Z.add_0_l. reflexivity.
Qed.

End Cleaner.

End SymbolTablePruning.
(** ** Object groups, visited ranges and the refill of the marking stack
    (mark-compact.cc, lines 221-229, 460-548) *)

Module MarkingResults.

Import Marking.
Import Promotion.
Import Collector.

Section Results.

Context {Spaces : Type}.
Variable L : Layout.
Variable Push : Z -> MarkingStack -> MarkingStack.
Hypothesis HL : LayoutOk L.
Hypothesis Push_ok : PushStores Push.

(** The test of [MarkObjectGroups] on a member of a group. *)
Definition marked_member (s : State) (p : Slot) : bool :=
  IsHeapObject (slots s p) && IsMarked (slots s p) s.

Lemma MarkObject_items obj s :
  wf L s ->
  let s' := MarkObject L Push obj s in
  (overflowed (marking_stack s) = false ->
   s' = s \/ items (marking_stack s') <> []) /\
  (items (marking_stack s) <> [] -> items (marking_stack s') <> []).
Proof.
  intros Hwf. unfold MarkObject.
  destruct (IsMarked obj s); [split; auto|].
  unfold MarkUnmarkedObject. cbv zeta.
  set (s1 := if _ && IsMap L obj then ClearCodeCache L obj s else s).
  assert (Hk : marking_stack (increment_marked_count (SetMark obj s1))
               = marking_stack s).
  { unfold s1. destruct (_ && IsMap L obj); reflexivity. }
  rewrite Hk.
  destruct (overflowed (marking_stack s)) eqn:Hflag; cbn [negb].
  - split; [discriminate|]. intros Hne. simpl in Hk |- *. rewrite Hk. exact Hne.
  - destruct (Push_ok obj (marking_stack s) Hflag (wf_room _ _ Hwf Hflag))
      as (Hitems & _).
    simpl. rewrite Hitems. split; [right|]; discriminate.
Qed.

Lemma mark_group_items objects :
  forall s, inv L s ->
    let s' := mark_group L Push objects s in
    (overflowed (marking_stack s) = false ->
     s' = s \/ items (marking_stack s') <> []) /\
    (items (marking_stack s) <> [] -> items (marking_stack s') <> []).
Proof.
  induction objects as [|p objects IH]; intros s Hinv; [split; auto|].
  destruct (mark_group_inv L Push HL Push_ok [p] s Hinv) as [Hinv1 _].
  change (mark_group L Push (p :: objects) s)
    with (mark_group L Push objects (mark_group L Push [p] s)).
  assert (Hstep :
    (overflowed (marking_stack s) = false ->
     mark_group L Push [p] s = s \/
     items (marking_stack (mark_group L Push [p] s)) <> []) /\
    (items (marking_stack s) <> [] ->
     items (marking_stack (mark_group L Push [p] s)) <> [])).
  { unfold mark_group. simpl. destruct (IsHeapObject (slots s p)); [|split; auto].
    apply MarkObject_items. apply (inv_wf _ _ Hinv). }
  destruct Hstep as [Hs1 Hs2]. destruct (IH _ Hinv1) as [H1 H2].
  cbv zeta in *. split.
  - intros Hflag. destruct (Hs1 Hflag) as [Heq|Hne].
    + rewrite Heq in *. apply H1. exact Hflag.
    + right. apply H2. exact Hne.
  - intros Hne. apply H2, Hs2, Hne.
Qed.

Lemma MarkObjectGroups_entries_items entries :
  forall s, inv L s ->
    let r := MarkObjectGroups_entries L Push entries s in
    (items (marking_stack s) <> [] -> items (marking_stack (snd r)) <> []) /\
    (drained s -> items (marking_stack (snd r)) = [] ->
     snd r = s /\
     forall g, In (Some g) (fst r) -> existsb (marked_member s) g = false).
Proof.
  induction entries as [|[objects|] entries IH]; intros s Hinv; simpl.
  - split; [auto|]. intros _ _. split; [reflexivity|]. intros g [].
  - fold (marked_member s).
    destruct (existsb (marked_member s) objects) eqn:Hgroup; cbn [negb].
    + fold (mark_group L Push objects s).
      destruct (mark_group_inv L Push HL Push_ok objects s Hinv) as [Hinv1 _].
      destruct (mark_group_items objects s Hinv) as [Hg1 Hg2].
      destruct (IH _ Hinv1) as [H1 H2]. cbv zeta in *.
      destruct (MarkObjectGroups_entries L Push entries
                  (mark_group L Push objects s)) as [rest' s'].
      simpl in *. split; [intros Hne; apply H1, Hg2, Hne|].
      intros Hd Hempty. destruct (Hg1 (proj2 Hd)) as [Heq|Hne].
      * rewrite Heq in *. destruct (H2 Hd Hempty) as [-> Hkept].
        split; [reflexivity|]. intros g [Hg|Hg]; [discriminate|auto].
      * exfalso. apply (H1 Hne). exact Hempty.
    + destruct (IH _ Hinv) as [H1 H2]. cbv zeta in *.
      destruct (MarkObjectGroups_entries L Push entries s) as [rest' s'].
      simpl in *. split; [exact H1|].
      intros Hd Hempty. destruct (H2 Hd Hempty) as [-> Hkept].
      split; [reflexivity|]. intros g [Hg|Hg]; [|auto].
      injection Hg as <-. exact Hgroup.
  - destruct (IH _ Hinv) as [H1 H2]. cbv zeta in *.
    destruct (MarkObjectGroups_entries L Push entries s) as [rest' s'].
    simpl in *. split; [exact H1|].
    intros Hd Hempty. destruct (H2 Hd Hempty) as [-> Hkept].
    split; [reflexivity|]. intros g [Hg|Hg]; [discriminate|auto].
Qed.

Lemma ProcessMarkingStack_drained fuel s s' :
  drained s -> ProcessMarkingStack L Push fuel s = Some s' -> s' = s.
Proof.
  intros [Hitems Hflag] Hrun. destruct fuel as [|fuel]; [discriminate|].
  simpl in Hrun. unfold Pop in Hrun. rewrite Hitems, Hflag in Hrun.
  simpl in Hrun. congruence.
Qed.

(** The invariants hold after a run of [ProcessMarkingStack] that
    returns, whatever its fuel. *)
Lemma ProcessMarkingStack_returns_inv fuel s s' :
  inv L s -> ProcessMarkingStack L Push fuel s = Some s' ->
  inv L s' /\ drained s'.
Proof.
  intros Hinv Hrun.
  destruct (ProcessMarkingStack_inv L Push HL Push_ok
              (Nat.max fuel (enough_fuel L)) s Hinv (Nat.le_max_r _ _))
    as (s2 & Hrun2 & Hinv2 & Hd2 & _).
  rewrite (ProcessMarkingStack_fuel L Push fuel _ s s' Hrun (Nat.le_max_l _ _))
    in Hrun2.
  injection Hrun2 as <-. auto.
Qed.


(** What [MarkObjectGroups] made of an entry [e] of the list of groups,
    now [e'], between the states [s] and [s']: a deleted entry stays
    deleted; a group that is kept is unchanged and had no member pointing
    to a marked object; a group that is deleted has such a member, and
    all its members that point to heap objects point to marked ones. *)
Definition group_outcome (s s' : State) (e e' : option (list Slot)) : Prop :=
  match e, e' with
  | None, None => True
  | Some g, Some g' => g' = g /\ existsb (marked_member s) g = false
  | Some g, None =>
      (exists p, In p g /\ marked_member s' p = true) /\
      forall p, In p g -> IsHeapObject (slots s' p) = true ->
                slots s' p ∈ marked s'
  | None, Some _ => False
  end.

Lemma mark_group_marks objects :
  forall s, inv L s ->
    forall i, In (RootSlot i) objects ->
      IsHeapObject (slots s (RootSlot i)) = true ->
      slots s (RootSlot i) ∈ marked (mark_group L Push objects s).
Proof.
  induction objects as [|q objects IH]; intros s Hinv i Hin Hheap; [destruct Hin|].
  change (mark_group L Push (q :: objects) s)
    with (mark_group L Push objects (mark_group L Push [q] s)).
  destruct (mark_group_inv L Push HL Push_ok [q] s Hinv) as [Hinv1 Hext1].
  destruct (mark_group_inv L Push HL Push_ok objects _ Hinv1) as [_ Hext2].
  destruct Hin as [->|Hin].
  - apply (ext_marked _ _ _ _ Hext2). unfold mark_group. simpl. rewrite Hheap.
    destruct (MarkObject_ok L Push HL Push_ok ∅ (slots s (RootSlot i)) s
                (inv_wf _ _ Hinv)) as (_ & _ & Hm & _).
    + apply (wf_slots _ _ (inv_wf _ _ Hinv)). exact Hheap.
    + apply (wf_symbol_table _ _ (inv_wf _ _ Hinv)).
    + exact Hm.
  - assert (Hsl : slots (mark_group L Push [q] s) (RootSlot i)
                  = slots s (RootSlot i))
      by (apply (ext_slots _ _ _ _ Hext1); [intros []|exact I]).
    rewrite <- Hsl. apply IH; [exact Hinv1|exact Hin|rewrite Hsl; exact Hheap].
Qed.

Lemma marked_member_mono s s' i :
  marked s ⊆ marked s' -> slots s' (RootSlot i) = slots s (RootSlot i) ->
  marked_member s (RootSlot i) = true -> marked_member s' (RootSlot i) = true.
Proof.
  unfold marked_member, IsMarked. intros Hsub Hsl H. rewrite Hsl.
  apply andb_true_iff in H as [Hh Hm]. rewrite Hh. simpl.
  apply bool_decide_eq_true. apply bool_decide_eq_true in Hm. set_solver.
Qed.

Lemma MarkObjectGroups_entries_outcome entries :
  forall s0 s,
    inv L s ->
    (forall g p, In (Some g) entries -> In p g -> exists i, p = RootSlot i) ->
    marked s0 ⊆ marked s ->
    (forall i, slots s (RootSlot i) = slots s0 (RootSlot i)) ->
    let r := MarkObjectGroups_entries L Push entries s in
    Forall2 (group_outcome s0 (snd r)) entries (fst r).
Proof.
  induction entries as [|[objects|] entries IH]; intros s0 s Hinv Hroots Hsub Hsl;
    simpl.
  - constructor.
  - assert (Hroots' : forall g p, In (Some g) entries -> In p g ->
                                  exists i, p = RootSlot i)
      by (intros g p Hg; apply Hroots; right; exact Hg).
    fold (marked_member s).
    destruct (existsb (marked_member s) objects) eqn:Hgroup; cbn [negb].
    + fold (mark_group L Push objects s).
      destruct (mark_group_inv L Push HL Push_ok objects s Hinv) as [Hinv1 Hext1].
      pose proof (MarkObjectGroups_entries_inv L Push HL Push_ok entries _ Hinv1)
        as [_ Hext2].
      pose proof (IH s0 (mark_group L Push objects s) Hinv1 Hroots') as Hrest.
      cbv zeta in Hrest.
      destruct (MarkObjectGroups_entries L Push entries
                  (mark_group L Push objects s)) as [rest' s'].
      simpl in *.
      assert (Hsl1 : forall i, slots (mark_group L Push objects s) (RootSlot i)
                               = slots s (RootSlot i))
        by (intros i; apply (ext_slots _ _ _ _ Hext1); [intros []|exact I]).
      assert (Hsl2 : forall i, slots s' (RootSlot i)
                               = slots (mark_group L Push objects s) (RootSlot i))
        by (intros i; apply (ext_slots _ _ _ _ Hext2); [intros []|exact I]).
      pose proof (ext_marked _ _ _ _ Hext1) as Hm1.
      pose proof (ext_marked _ _ _ _ Hext2) as Hm2.
      constructor.
      * split.
        -- apply existsb_exists in Hgroup. destruct Hgroup as (p & Hp & Hpm).
           exists p. split; [exact Hp|].
           destruct (Hroots objects p (or_introl eq_refl) Hp) as [i ->].
           apply (marked_member_mono s); [set_solver| |exact Hpm].
           rewrite Hsl2, Hsl1. reflexivity.
        -- intros p Hp Hheap.
           destruct (Hroots objects p (or_introl eq_refl) Hp) as [i ->].
           rewrite Hsl2, Hsl1 in Hheap |- *. apply Hm2.
           apply mark_group_marks; assumption.
      * apply Hrest; [set_solver|].
        intros i. rewrite Hsl1. apply Hsl.
    + pose proof (IH s0 s Hinv Hroots' Hsub Hsl) as Hrest. cbv zeta in Hrest.
      destruct (MarkObjectGroups_entries L Push entries s) as [rest' s'].
      simpl in *. constructor; [|exact Hrest].
      split; [reflexivity|].
      destruct (existsb (marked_member s0) objects) eqn:H0; [|reflexivity].
      apply existsb_exists in H0. destruct H0 as (p & Hp & Hpm).
      destruct (Hroots objects p (or_introl eq_refl) Hp) as [i ->].
      assert (Hex : existsb (marked_member s) objects = true).
      { apply existsb_exists. exists (RootSlot i). split; [exact Hp|].
        apply (marked_member_mono s0); [exact Hsub|apply Hsl|exact Hpm]. }
      congruence.
  - assert (Hroots' : forall g p, In (Some g) entries -> In p g ->
                                  exists i, p = RootSlot i)
      by (intros g p Hg; apply Hroots; right; exact Hg).
    pose proof (IH s0 s Hinv Hroots' Hsub Hsl) as Hrest. cbv zeta in Hrest.
    destruct (MarkObjectGroups_entries L Push entries s) as [rest' s'].
    simpl in *. constructor; [exact I|exact Hrest].
Qed.




End Results.

(** The example heap before marking, with a group of two handles of which
    none points to a marked object. *)
Definition example_groups_collector : @Collector Z := {|
  heap := set_marking_stack (Initialize 0x9000 0x9008) (heap example_collector);
  object_groups := [Some [RootSlot 0; RootSlot 7]];
  compacting_collection_ := false;
  state_ := MARK_LIVE_OBJECTS;
  previous_marked_count_ := 0;
  tracer_is_compacting := false;
  forwarded := ∅;
  memory := fun _ => 0;
  spaces := (0x100, []);
  phases := [];
  events := []
|}.




(** The objects 0x101 and 0x111 are marked and 0x111 is overflowed, the
    stack is empty and its flag is set. *)
Definition example_overflowed : State := {|
  slots := example_slots;
  marked := {[0x101; 0x111]};
  overflow := {[0x111]};
  marking_stack := {| items := []; limit := 2; overflowed := true |};
  marked_count := 2
|}.

Lemma example_overflowed_wf : wf example_layout example_overflowed.
Proof.
  split; simpl.
  - in_example_heap.
  - apply (slots_from_holds
             (fun v => IsHeapObject v = true -> v ∈ heap_objects example_layout)).
    + discriminate.
    + repeat constructor; intros _; in_example_heap.
  - apply (slots_from_holds (fun v => v <> 0x2101)).
    + discriminate.
    + repeat constructor; discriminate.
  - intros obj _ H. vm_compute in H. discriminate.
  - intros obj Hobj. inversion Hobj.
  - set_solver.
  - discriminate.
  - lia.
  - vm_compute. reflexivity.
Qed.


End MarkingResults.

(** ** The objects that phases 3 and 4 visit *)

Module Compaction.

Import Marking Promotion Collector.

(** The objects whose pointers were updated, with the space of each, in
    the order of the log. *)
Definition updated_objects (es : list Event) : list (AllocationSpace * Z) :=
  flat_map (fun e => match e with PointersUpdated sp o => [(sp, o)] | _ => [] end)
    es.

Lemma live_in_elem objects :
  forall M o, In o (live_in objects M) <-> In o objects /\ o ∈ M.
Proof.
  induction objects as [|x rest IH]; intros M o; simpl; [tauto|].
  destruct (bool_decide_reflect (x ∈ M)) as [Hx|Hx]; simpl; rewrite IH.
  - split.
    + intros [<-|[Ho HM]]; [auto|]. split; [auto|set_solver].
    + intros [[<-|Ho] HM]; [auto|].
      destruct (decide (x = o)) as [->|Hne]; [auto|].
      right. split; [exact Ho|set_solver].
  - split.
    + intros [Ho HM]. auto.
    + intros [[<-|Ho] HM]; [contradiction|auto].
Qed.

Section Phases.

Context {Spaces : Type}.
Variable MCAllocateRaw : AllocationSpace -> Z -> Spaces -> Z * Spaces.
Variable L : Layout.
Variable cfg : Settings.

Definition upd (c : @Collector Spaces) : list (AllocationSpace * Z) :=
  updated_objects (events c).

Lemma upd_log e (c : @Collector Spaces) :
  upd (log e c)
  = upd c ++ match e with PointersUpdated sp o => [(sp, o)] | _ => [] end.
Proof.
  unfold upd, updated_objects. simpl. rewrite flat_map_app. simpl.
  rewrite app_nil_r. reflexivity.
Qed.

Section Range.

Variable Alloc : @AllocationFunction Spaces.
Variable Encode : @EncodingFunction Spaces.
Variable ProcessNonLive : @ProcessNonLiveFunction Spaces.
Hypothesis Alloc_heap : forall o z c, heap (snd (Alloc o z c)) = heap c.
Hypothesis Encode_heap : forall o z n k c, heap (snd (Encode o z n k c)) = heap c.
Hypothesis ProcessNonLive_heap : forall o, keeps_heap (ProcessNonLive o).
Hypothesis Alloc_forwarded :
  forall o z c, forwarded (snd (Alloc o z c)) = forwarded c.
Hypothesis Encode_forwarded :
  forall o z n k c, forwarded (snd (Encode o z n k c)) = {[o]} ∪ forwarded c.
Hypothesis ProcessNonLive_forwarded :
  forall o c, forwarded (ProcessNonLive o c) = forwarded c.

Lemma EncodeForwardingAddressesInRange_loop_forwarded objects :
  forall free_start alive offset c,
    forwarded (snd (EncodeForwardingAddressesInRange_loop L Alloc Encode
                      ProcessNonLive objects free_start alive offset c))
    = forwarded c ∪ list_to_set (live_in objects (marked (heap c))).
Proof.
  induction objects as [|object rest IH]; intros free_start alive offset c;
    simpl; [set_solver|].
  unfold IsMarked.
  destruct (bool_decide (object ∈ marked (heap c))) eqn:Hm.
  - destruct (Alloc object _ _) as [fwd_object c1] eqn:HA.
    destruct (Encode object _ fwd_object offset c1) as [offset' c2] eqn:HE.
    pose proof (Alloc_heap object (object_size L object)
                  (with_heap decrement_marked_count (with_heap (ClearMark object) c)))
      as H1.
    pose proof (Alloc_forwarded object (object_size L object)
                  (with_heap decrement_marked_count (with_heap (ClearMark object) c)))
      as F1.
    rewrite HA in H1, F1.
    pose proof (Encode_heap object (object_size L object) fwd_object offset c1)
      as H2.
    pose proof (Encode_forwarded object (object_size L object) fwd_object offset c1)
      as F2.
    rewrite HE in H2, F2. simpl in H1, H2, F1, F2.
    rewrite IH.
    assert (Hh : forall c3 : @Collector Spaces,
      heap (if negb alive
            then with_memory
                   (FreeRegion.EncodeFreeRegion free_start
                      (int_sub (address object) free_start)) c3
            else c3) = heap c3)
      by (intros c3; destruct (negb alive); reflexivity).
    assert (Hf : forall c3 : @Collector Spaces,
      forwarded (if negb alive
                 then with_memory
                        (FreeRegion.EncodeFreeRegion free_start
                           (int_sub (address object) free_start)) c3
                 else c3) = forwarded c3)
      by (intros c3; destruct (negb alive); reflexivity).
    rewrite Hh, Hf. simpl heap. simpl forwarded. rewrite H2, H1, F2, F1. simpl.
    set_solver.
  - destruct alive; rewrite IH, ProcessNonLive_heap, ProcessNonLive_forwarded;
      reflexivity.
Qed.

Lemma EncodeForwardingAddressesInRange_forwarded objects end_ offset c :
  forwarded (snd (EncodeForwardingAddressesInRange L Alloc Encode ProcessNonLive
                    objects end_ offset c))
  = forwarded c ∪ list_to_set (live_in objects (marked (heap c))).
Proof.
  unfold EncodeForwardingAddressesInRange.
  pose proof (EncodeForwardingAddressesInRange_loop_forwarded objects 0 true
                offset c) as H.
  destruct (EncodeForwardingAddressesInRange_loop _ _ _ _ _ _ _ _ _)
    as [[[free_start alive] offset'] c1].
  simpl in *. destruct (negb alive); exact H.
Qed.

End Range.

Lemma iterate_forwarded {A : Type}
    (f : A -> @Collector Spaces -> @Collector Spaces)
    (objects_at : A -> list Z) l :
  (forall x c, swept (objects_at x) (heap c) (heap (f x c))) ->
  (forall x c, forwarded (f x c)
               = forwarded c
                 ∪ list_to_set (live_in (objects_at x) (marked (heap c)))) ->
  forall c,
    forwarded (iterate f l c)
    = forwarded c
      ∪ list_to_set (live_in (concat (map objects_at l)) (marked (heap c))).
Proof.
  intros Hs Hf. induction l as [|x l IH]; intros c; simpl.
  - set_solver.
  - rewrite IH, Hf, live_in_app, (swept_marked _ _ _ (Hs x c)),
      list_to_set_app_L. set_solver.
Qed.

Lemma on_spaces_forwarded f o z c :
  forwarded (snd (@on_spaces Spaces f o z c)) = forwarded c.
Proof. unfold on_spaces. destruct (f o z (spaces c)). reflexivity. Qed.

Lemma EncodeForwardingAddressInPagedSpace_forwarded o z n k c :
  forwarded (snd (@EncodeForwardingAddressInPagedSpace Spaces L o z n k c))
  = {[o]} ∪ forwarded c.
Proof.
  unfold EncodeForwardingAddressInPagedSpace. destruct (k =? 0); reflexivity.
Qed.

Lemma LogNonLiveCodeObject_forwarded o c :
  forwarded (@LogNonLiveCodeObject Spaces cfg o c) = forwarded c.
Proof. unfold LogNonLiveCodeObject. destruct (IsCode cfg o); reflexivity. Qed.

Lemma EncodeForwardingAddressesInPagedSpace_forwarded Alloc ProcessNonLive pages :
  (forall o z c, heap (snd (Alloc o z c)) = heap c) ->
  (forall o, keeps_heap (ProcessNonLive o)) ->
  (forall o z c, forwarded (snd (Alloc o z c)) = forwarded c) ->
  (forall o c, forwarded (ProcessNonLive o c) = forwarded c) ->
  forall c,
    forwarded (@EncodeForwardingAddressesInPagedSpace Spaces L Alloc
                 ProcessNonLive pages c)
    = forwarded c ∪ list_to_set (live_in (objects_of pages) (marked (heap c))).
Proof.
  intros HA HP FA FP. unfold EncodeForwardingAddressesInPagedSpace, objects_of.
  apply iterate_forwarded; intros p c.
  - apply EncodeForwardingAddressesInRange_swept; auto.
    apply EncodeForwardingAddressInPagedSpace_heap.
  - apply EncodeForwardingAddressesInRange_forwarded; auto.
    + apply EncodeForwardingAddressInPagedSpace_heap.
    + apply EncodeForwardingAddressInPagedSpace_forwarded.
Qed.

Lemma EncodeForwardingAddresses_forwarded c :
  forwarded (EncodeForwardingAddresses MCAllocateRaw L cfg c)
  = forwarded c ∪ list_to_set (live_in (swept_objects L) (marked (heap c))).
Proof.
  unfold EncodeForwardingAddresses.
  set (c0 := log RelocationInfoReset (enter PhaseEncodeForwardingAddresses c)).
  set (c1 := EncodeForwardingAddressesInPagedSpace _ _ _ (old_space_pages L) c0).
  set (c2 := EncodeForwardingAddressesInPagedSpace _ _ _ (code_space_pages L) c1).
  set (c3 := EncodeForwardingAddressesInNewSpace _ _ _ c2).
  set (c4 := EncodeForwardingAddressesInPagedSpace _ _ _ (map_space_pages L) c3).
  assert (F1 : forwarded c1
               = forwarded c0
                 ∪ list_to_set (live_in (old_space_objects L) (marked (heap c0)))).
  { apply EncodeForwardingAddressesInPagedSpace_forwarded;
      try (intros; apply on_spaces_heap);
      try (intros; apply on_spaces_forwarded);
      intros o c'; reflexivity. }
  assert (S1 : swept (old_space_objects L) (heap c0) (heap c1)).
  { apply EncodeForwardingAddressesInPagedSpace_swept;
      [intros; apply on_spaces_heap|intros o c'; reflexivity]. }
  assert (F2 : forwarded c2
               = forwarded c1
                 ∪ list_to_set (live_in (code_space_objects L) (marked (heap c1)))).
  { apply EncodeForwardingAddressesInPagedSpace_forwarded;
      try (intros; apply on_spaces_heap);
      try (intros; apply on_spaces_forwarded).
    - apply LogNonLiveCodeObject_heap.
    - apply LogNonLiveCodeObject_forwarded. }
  assert (S2 : swept (code_space_objects L) (heap c1) (heap c2)).
  { apply EncodeForwardingAddressesInPagedSpace_swept;
      [intros; apply on_spaces_heap|apply LogNonLiveCodeObject_heap]. }
  assert (F3 : forwarded c3
               = forwarded c2
                 ∪ list_to_set (live_in (new_space_objects L) (marked (heap c2)))).
  { apply EncodeForwardingAddressesInRange_forwarded;
      try (intros; apply on_spaces_heap);
      try (intros; apply on_spaces_forwarded);
      try (intros o c'; reflexivity); intros; reflexivity. }
  assert (S3 : swept (new_space_objects L) (heap c2) (heap c3)).
  { apply EncodeForwardingAddressesInRange_swept;
      [intros; apply on_spaces_heap|intros; reflexivity|intros o c'; reflexivity]. }
  assert (F4 : forwarded c4
               = forwarded c3
                 ∪ list_to_set (live_in (map_space_objects L) (marked (heap c3)))).
  { apply EncodeForwardingAddressesInPagedSpace_forwarded;
      try (intros; apply on_spaces_heap);
      try (intros; apply on_spaces_forwarded);
      intros o c'; reflexivity. }
  cbn [forwarded log]. fold c0 c1 c2 c3 c4.
  rewrite F4, F3, F2, F1.
  rewrite (swept_marked _ _ _ S3), (swept_marked _ _ _ S2), (swept_marked _ _ _ S1).
  change (heap c0) with (heap c). change (forwarded c0) with (forwarded c).
  unfold swept_objects. rewrite !live_in_app, !list_to_set_app_L.
  rewrite !(assoc_L (∪)). reflexivity.
Qed.

Lemma IterateLiveObjects_upd objects size_f sp :
  (forall o c, upd (size_f o c) = upd c ++ [(sp, o)]) ->
  (forall o c, forwarded (size_f o c) = forwarded c) ->
  (forall o c, rel (size_f o c) = rel c) ->
  forall c : @Collector Spaces,
    upd (IterateLiveObjects objects size_f c)
    = upd c ++ map (pair sp)
                 (List.filter (fun o => bool_decide (o ∈ forwarded c)) objects)
    /\ forwarded (IterateLiveObjects objects size_f c) = forwarded c
    /\ rel (IterateLiveObjects objects size_f c) = rel c.
Proof.
  intros Hu Hf Hr. unfold IterateLiveObjects.
  induction objects as [|o objects IH]; intros c; simpl.
  - rewrite app_nil_r. auto.
  - destruct (decide (o ∈ forwarded c)) as [Ho|Ho].
    + rewrite (bool_decide_eq_true_2 _ Ho).
      destruct (IH (size_f o c)) as (-> & -> & ->).
      rewrite Hu, Hf, Hr, <- app_assoc. auto.
    + rewrite (bool_decide_eq_false_2 _ Ho). apply IH.
Qed.

Lemma iterate_UpdatePointersInNewObject sp objects :
  forall c : @Collector Spaces,
    upd (iterate (UpdatePointersInNewObject sp) objects c)
    = upd c ++ map (pair sp) objects
    /\ forwarded (iterate (UpdatePointersInNewObject sp) objects c) = forwarded c
    /\ rel (iterate (UpdatePointersInNewObject sp) objects c) = rel c.
Proof.
  induction objects as [|o objects IH]; intros c; simpl.
  - rewrite app_nil_r. auto.
  - destruct (IH (UpdatePointersInNewObject sp o c)) as (-> & -> & ->).
    unfold UpdatePointersInNewObject. rewrite upd_log, rel_log, <- app_assoc.
    rewrite app_nil_r. auto.
Qed.

Lemma UpdatePointers_upd (c : @Collector Spaces) :
  let visited sp objects :=
    map (pair sp) (List.filter (fun o => bool_decide (o ∈ forwarded c)) objects) in
  upd (UpdatePointers L c)
  = upd c ++ visited MAP_SPACE (map_space_objects L)
      ++ visited OLD_SPACE (old_space_objects L)
      ++ visited CODE_SPACE (code_space_objects L)
      ++ visited NEW_SPACE (new_space_objects L)
      ++ map (pair LO_SPACE) (lo_space_objects L)
  /\ forwarded (UpdatePointers L c) = forwarded c
  /\ rel (UpdatePointers L c) = rel c.
Proof.
  intros visited. unfold UpdatePointers.
  set (c0 := log RootsUpdated
               (set_state UPDATE_POINTERS (enter PhaseUpdatePointers c))).
  set (c1 := IterateLiveObjects (map_space_objects L) _ c0).
  set (c2 := IterateLiveObjects (old_space_objects L) _ c1).
  set (c3 := IterateLiveObjects (code_space_objects L) _ c2).
  set (c4 := IterateLiveObjects (new_space_objects L) _ c3).
  destruct (IterateLiveObjects_upd (map_space_objects L)
              (@UpdatePointersInOldObject Spaces MAP_SPACE) MAP_SPACE)
    with (c := c0) as (U1 & W1 & R1);
    [intros o c'; apply upd_log|reflexivity|
     intros o c'; unfold UpdatePointersInOldObject; rewrite rel_log;
     apply app_nil_r|].
  destruct (IterateLiveObjects_upd (old_space_objects L)
              (@UpdatePointersInOldObject Spaces OLD_SPACE) OLD_SPACE)
    with (c := c1) as (U2 & W2 & R2);
    [intros o c'; apply upd_log|reflexivity|
     intros o c'; unfold UpdatePointersInOldObject; rewrite rel_log;
     apply app_nil_r|].
  destruct (IterateLiveObjects_upd (code_space_objects L)
              (@UpdatePointersInOldObject Spaces CODE_SPACE) CODE_SPACE)
    with (c := c2) as (U3 & W3 & R3);
    [intros o c'; apply upd_log|reflexivity|
     intros o c'; unfold UpdatePointersInOldObject; rewrite rel_log;
     apply app_nil_r|].
  destruct (IterateLiveObjects_upd (new_space_objects L)
              (@UpdatePointersInNewObject Spaces NEW_SPACE) NEW_SPACE)
    with (c := c3) as (U4 & W4 & R4);
    [intros o c'; apply upd_log|reflexivity|
     intros o c'; unfold UpdatePointersInNewObject; rewrite rel_log;
     apply app_nil_r|].
  fold c1 in U1, W1, R1. fold c2 in U2, W2, R2. fold c3 in U3, W3, R3.
  fold c4 in U4, W4, R4.
  destruct (iterate_UpdatePointersInNewObject LO_SPACE (lo_space_objects L) c4)
    as (U5 & W5 & R5).
  rewrite U5, W5, R5, U4, W4, R4, U3, W3, R3, U2, W2, R2, U1, W1, R1.
  assert (U0 : upd c0 = upd c) by (unfold c0; rewrite upd_log; apply app_nil_r).
  assert (R0 : rel c0 = rel c) by (unfold c0; rewrite rel_log; apply app_nil_r).
  rewrite U0, R0. change (forwarded c0) with (forwarded c).
  rewrite <- !app_assoc. auto.
Qed.

(** Phase 2 relocates no object and updates no pointer. *)
Definition vis (c : @Collector Spaces)
    : list (AllocationSpace * Z) * list (AllocationSpace * Z) :=
  (rel c, upd c).

Lemma vis_log e (c : @Collector Spaces) :
  match e with Relocated _ _ | PointersUpdated _ _ => False | _ => True end ->
  vis (log e c) = vis c.
Proof.
  intros He. unfold vis. rewrite rel_log, upd_log.
  destruct e; try contradiction; rewrite !app_nil_r; reflexivity.
Qed.

Lemma EncodeForwardingAddressesInRange_vis Alloc Encode ProcessNonLive
    objects end_ offset :
  (forall o z c, vis (snd (Alloc o z c)) = vis c) ->
  (forall o z n k c, vis (snd (Encode o z n k c)) = vis c) ->
  (forall o c, vis (ProcessNonLive o c) = vis c) ->
  forall c,
    vis (snd (@EncodeForwardingAddressesInRange Spaces L Alloc Encode
                ProcessNonLive objects end_ offset c)) = vis c.
Proof.
  intros HA HE HP c. unfold EncodeForwardingAddressesInRange.
  assert (Hloop : forall objects free_start alive offset c,
    vis (snd (EncodeForwardingAddressesInRange_loop L Alloc Encode
                ProcessNonLive objects free_start alive offset c)) = vis c).
  { clear c objects offset.
    induction objects as [|object rest IH]; intros free_start alive offset c;
      simpl; [reflexivity|].
    destruct (IsMarked object (heap c)).
    - destruct (Alloc object _ _) as [fwd_object c1] eqn:HA1.
      destruct (Encode object _ fwd_object offset c1) as [offset' c2] eqn:HE1.
      pose proof (HA object (object_size L object)
                    (with_heap decrement_marked_count
                       (with_heap (ClearMark object) c))) as V1.
      pose proof (HE object (object_size L object) fwd_object offset c1) as V2.
      rewrite HA1 in V1. rewrite HE1 in V2. simpl in V1, V2.
      rewrite IH.
      assert (Hv : forall c3 : @Collector Spaces,
        vis (if negb alive
             then with_memory
                    (FreeRegion.EncodeFreeRegion free_start
                       (int_sub (address object) free_start)) c3
             else c3) = vis c3)
        by (intros c3; destruct (negb alive); reflexivity).
      rewrite Hv, vis_log by exact I. rewrite V2, V1. reflexivity.
    - destruct alive; rewrite IH, HP; reflexivity. }
  pose proof (Hloop objects 0 true offset c) as H.
  destruct (EncodeForwardingAddressesInRange_loop _ _ _ _ _ _ _ _ _)
    as [[[free_start alive] offset'] c1].
  simpl in *. destruct (negb alive); exact H.
Qed.

Lemma on_spaces_vis f o z c :
  vis (snd (@on_spaces Spaces f o z c)) = vis c.
Proof. unfold on_spaces. destruct (f o z (spaces c)). reflexivity. Qed.

Lemma EncodeForwardingAddressInPagedSpace_vis o z n k c :
  vis (snd (@EncodeForwardingAddressInPagedSpace Spaces L o z n k c)) = vis c.
Proof.
  unfold EncodeForwardingAddressInPagedSpace. cbn [snd].
  change (vis (set_forwarded ?F ?c0)) with (vis c0).
  rewrite vis_log by exact I.
  destruct (k =? 0); [apply vis_log; exact I|reflexivity].
Qed.

Lemma LogNonLiveCodeObject_vis o c :
  vis (@LogNonLiveCodeObject Spaces cfg o c) = vis c.
Proof.
  unfold LogNonLiveCodeObject.
  destruct (IsCode cfg o); [apply vis_log; exact I|reflexivity].
Qed.

Lemma EncodeForwardingAddressesInPagedSpace_vis Alloc ProcessNonLive pages :
  (forall o z c, vis (snd (Alloc o z c)) = vis c) ->
  (forall o c, vis (ProcessNonLive o c) = vis c) ->
  forall c,
    vis (@EncodeForwardingAddressesInPagedSpace Spaces L Alloc ProcessNonLive
           pages c) = vis c.
Proof.
  intros HA HP. unfold EncodeForwardingAddressesInPagedSpace.
  induction pages as [|p pages IH]; intros c; simpl; [reflexivity|].
  rewrite IH. apply EncodeForwardingAddressesInRange_vis; auto.
  apply EncodeForwardingAddressInPagedSpace_vis.
Qed.

Lemma EncodeForwardingAddresses_vis c :
  vis (EncodeForwardingAddresses MCAllocateRaw L cfg c) = vis c.
Proof.
  unfold EncodeForwardingAddresses.
  rewrite !vis_log by exact I.
  rewrite EncodeForwardingAddressesInPagedSpace_vis;
    [|intros; apply on_spaces_vis|reflexivity].
  unfold EncodeForwardingAddressesInNewSpace.
  rewrite EncodeForwardingAddressesInRange_vis;
    [|intros; apply on_spaces_vis|reflexivity|reflexivity].
  rewrite EncodeForwardingAddressesInPagedSpace_vis;
    [|intros; apply on_spaces_vis|apply LogNonLiveCodeObject_vis].
  rewrite EncodeForwardingAddressesInPagedSpace_vis;
    [|intros; apply on_spaces_vis|reflexivity].
  rewrite vis_log by exact I. reflexivity.
Qed.

Lemma filter_forwarded_marked (F M : gset Z) (all objects : list Z) :
  F = list_to_set (live_in all M) ->
  (forall o, In o objects -> In o all) ->
  List.filter (fun o => bool_decide (o ∈ F)) objects
  = List.filter (fun o => bool_decide (o ∈ M)) objects.
Proof.
  intros -> Hsub. apply List.filter_ext_in. intros o Ho.
  apply bool_decide_ext. rewrite elem_of_list_to_set, list_elem_of_In, live_in_elem.
  split; [tauto|]. intros HM. split; [apply Hsub; exact Ho|exact HM].
Qed.


End Phases.


End Compaction.
